(** * markdown_math_to_word: the formula rasterizer and the export transform

    A shallow embedding of the two source units of the repository that carry
    its logic:

    - [MathToImage] (the React component that typesets a formula into an
      off-screen container, captures it with html2canvas and shows the
      resulting image), and
    - [App.handleCopy] (the export action: readiness gate, clone and inline
      styles, regular-expression attribute injection, clipboard tiers).

    Conventions of the embedding.

    - A JavaScript [number] is modelled by a rational; [NaN] and
      [undefined] are [None].  The scale and the size of the capture, which
      are rounded up to whole pixels, are computed as the program computes
      them: every product and quotient is rounded to the nearest binary64
      number ([JS.double]).  Infinities are not modelled: the theorems on
      these quantities assume sizes and ratios far inside the range of
      binary64.  The other quantities (font size, padding) are computed on
      exact rationals.  Module [Binary64] repeats evaluations on the
      primitive floating-point numbers.
    - A JavaScript string is a [string] of bytes, the UTF-8 encoding of its
      text.  All patterns of the source are ASCII and no ASCII byte occurs
      inside a multi-byte sequence, so matching byte by byte agrees with
      matching by code unit; white space beyond ASCII is recognised by its
      encoding ([JS.blank]).
    - Browser services the source calls but does not define ([parseFloat],
      [katex.renderToString]) are fields of a [Host] record; what the browser
      answers at run time (measurements, captured canvases, clipboard
      outcomes) arrives as data of the events that drive the model. *)

From Stdlib Require Import String Ascii List Bool Arith ZArith QArith Qpower Qround Qabs Qminmax Lia.
From Stdlib Require Import DecimalString Lqa Permutation.
From Stdlib Require Import Floats.PrimFloat Floats.SpecFloat Floats.FloatOps.
Import ListNotations.

(* ================================================================== *)
(** * Definitions                                                       *)
(* ================================================================== *)

(** ** JavaScript values *)

Module JS.

(** A number: [None] is [NaN] (or [undefined] where a number is read). *)
Definition number := option Q.

Definition lift2 (f : Q -> Q -> Q) (a b : number) : number :=
  match a, b with
  | Some x, Some y => Some (f x y)
  | _, _ => None
  end.

Definition add : number -> number -> number := lift2 Qplus.
Definition sub : number -> number -> number := lift2 Qminus.
Definition mul : number -> number -> number := lift2 Qmult.

(** [Math.max(a, b)]: [NaN] as soon as one argument is [NaN]. *)
Definition Math_max : number -> number -> number := lift2 Qmax.

(** [x || d] on numbers: [0], [NaN] and [undefined] are falsy. *)
Definition or_default (x : number) (d : Q) : Q :=
  match x with
  | Some v => if Qeq_bool v 0 then d else v
  | None => d
  end.

Definition Qltb (x y : Q) : bool := negb (Qle_bool y x).

(** *** Binary64 arithmetic

    The result of an arithmetic operation is the binary64 number nearest
    to the exact result, the one with the even significand when two are
    equally near.  [ilog2 x] is the exponent of the power of two at or
    below [|x|]; the binary64 numbers near [x] are the multiples of
    [2 ^ quantum x], which leaves 53 significant bits above [2 ^ -1022]
    and is [2 ^ -1074] below. *)
Definition ilog2 (x : Q) : Z :=
  let a := Qabs x in
  let k := (Z.log2 (Qnum a) - Z.log2 (Zpos (Qden a)))%Z in
  if Qle_bool (2 ^ k) a then k else (k - 1)%Z.

Definition quantum (x : Q) : Z := Z.max (ilog2 x - 52) (-1074).

(** The integer nearest to [x], the even one of two that are equally
    near. *)
Definition half_even (x : Q) : Z :=
  let f := Qfloor x in
  match Qcompare (x - inject_Z f) (1 # 2) with
  | Lt => f
  | Gt => (f + 1)%Z
  | Eq => if Z.even f then f else (f + 1)%Z
  end.

Definition double (x : Q) : Q :=
  let e := quantum x in inject_Z (half_even (x / 2 ^ e)) * 2 ^ e.

(** [x] is a binary64 number (the infinities aside): an integer of at
    most 53 bits times a power of two that is not below [2 ^ -1074]. *)
Definition is_double (x : Q) : Prop :=
  exists n e : Z,
    (Z.abs n <= 2 ^ 53)%Z /\ (-1074 <= e)%Z /\ x == inject_Z n * 2 ^ e.

(** [x * y] and [x / y] as the program computes them. *)
Definition fmul (x y : Q) : Q := double (x * y).
Definition fdiv (x y : Q) : Q := double (x / y).

(** [s || d] on strings read from an array: a missing entry and the empty
    string are falsy. *)
Definition str_or (s : option string) (d : string) : string :=
  match s with
  | Some EmptyString => d
  | Some v => v
  | None => d
  end.

Definition is_space (c : ascii) : bool :=
  let n := nat_of_ascii c in
  (n =? 32) || ((9 <=? n) && (n <=? 13)).

(** The second and third byte of a white-space code point that is encoded
    on three bytes, after its first byte [b]: U+1680, U+2000 to U+200A,
    U+2028, U+2029, U+202F, U+205F, U+3000 and U+FEFF. *)
Definition wide_space (b c d : nat) : bool :=
  ((b =? 225) && (c =? 154) && (d =? 128))
  || ((b =? 226) && (c =? 128)
      && (((128 <=? d) && (d <=? 138)) || (d =? 168) || (d =? 169)
          || (d =? 175)))
  || ((b =? 226) && (c =? 129) && (d =? 159))
  || ((b =? 227) && (c =? 128) && (d =? 128))
  || ((b =? 239) && (c =? 187) && (d =? 191)).

(** [!s.trim()]: the text consists of white space only.  [trim] strips the
    code points [WhiteSpace] and [LineTerminator] of ECMAScript: those of
    the ASCII range ([is_space]), U+00A0 (bytes 194, 160) and the ones of
    [wide_space]. *)
Fixpoint blank (s : string) : bool :=
  match s with
  | EmptyString => true
  | String b r =>
      if is_space b then blank r
      else
        match r with
        | String c r1 =>
            if (nat_of_ascii b =? 194) && (nat_of_ascii c =? 160)
            then blank r1
            else
              match r1 with
              | String d r2 =>
                  wide_space (nat_of_ascii b) (nat_of_ascii c)
                             (nat_of_ascii d)
                  && blank r2
              | EmptyString => false
              end
        | EmptyString => false
        end
  end.

(** [s.split(' ')]. *)
Fixpoint split_space_from (cur : string) (s : string) : list string :=
  match s with
  | EmptyString => [cur]
  | String c r =>
      if Ascii.eqb c " " then cur :: split_space_from EmptyString r
      else split_space_from (cur ++ String c EmptyString) r
  end.

Definition split_space (s : string) : list string :=
  split_space_from EmptyString s.

(** [s.startsWith(p)]. *)
Definition startsWith (s p : string) : bool := prefix p s.

(** Decimal rendering of a small natural number in a template literal. *)
Definition nat_to_string (n : nat) : string :=
  NilZero.string_of_uint (Nat.to_uint n).

(** [tokens.join(' ')]. *)
Definition join_space (tokens : list string) : string :=
  String.concat " " tokens.

(** [l.includes(x)] on an array of strings. *)
Definition includes (x : string) (l : list string) : bool :=
  existsb (String.eqb x) l.

(** [s.replace(/\n$/, '')]: a line feed that ends the string is removed. *)
Fixpoint strip_final_newline (s : string) : string :=
  match s with
  | EmptyString => EmptyString
  | String c r =>
      match r with
      | EmptyString => if Ascii.eqb c "010" then EmptyString else s
      | String _ _ => String c (strip_final_newline r)
      end
  end.

End JS.

(** ** Serialized markup and the attribute injections of [handleCopy] *)

Module Markup.

Local Open Scope string_scope.

Definition dquote : string := String "034"%char EmptyString.
Definition squote : string := String "039"%char EmptyString.
Definition newline : ascii := "010"%char.

(** [html.replace(/\n/g, '<br>')] (Step C). *)
Fixpoint replace_newlines (s : string) : string :=
  match s with
  | EmptyString => EmptyString
  | String c r =>
      if Ascii.eqb c newline then "<br>" ++ replace_newlines r
      else String c (replace_newlines r)
  end.

(** One injection: the literal that opens the pattern ([<code], [<th], ...)
    and the text placed in front of the closing [>] of each match. *)
Record injection := { opening : string; attr : string }.

(** The global replacement of the pattern [<NAME], then any run of
    characters other than [>] (captured), then [>], by [<NAME], the
    captured run, [attr] and [>].

    The scanner is outside a match or inside one.  Outside, a match begins
    where the text starts with [opening]; inside, characters are copied
    until the first [>], in front of which [attr] is placed, and scanning
    resumes after it.  When no [>] follows, nothing was matched and the
    text was copied unchanged, as the regular expression leaves it. *)
Fixpoint inject_from (p : injection) (inside : bool) (s : string) : string :=
  match s with
  | EmptyString => EmptyString
  | String c r =>
      if inside then
        if Ascii.eqb c ">"
        then attr p ++ String c (inject_from p false r)
        else String c (inject_from p true r)
      else String c (inject_from p (prefix (opening p) s) r)
  end.

Definition inject (p : injection) (s : string) : string :=
  inject_from p false s.

Definition style_attr (body : string) : string :=
  " style=" ++ dquote ++ body ++ dquote.

Definition mono_stack : string :=
  "Consolas, " ++ squote ++ "Courier New" ++ squote ++ ", Monaco, monospace".

Definition code_style : string :=
  "background-color: #f1f3f4; " ++
  "color: #c7254e; " ++
  "padding: 2px 6px; " ++
  "margin: 0 2px; " ++
  "font-family: " ++ mono_stack ++ "; " ++
  "font-size: 90%; " ++
  "font-weight: normal; " ++
  "border: 1px solid #d1d5db; " ++
  "border-radius: 3px; " ++
  "word-wrap: break-word; " ++
  "white-space: nowrap; " ++
  "vertical-align: baseline; " ++
  "mso-element: span;".

Definition table_style : string :=
  "border-collapse: collapse; " ++
  "width: 100%; " ++
  "margin: 16px 0; " ++
  "font-size: 14px; " ++
  "mso-table-lspace: 0pt; " ++
  "mso-table-rspace: 0pt; " ++
  "mso-table-anchor-vertical: paragraph; " ++
  "mso-table-anchor-horizontal: margin;".

Definition th_style : string :=
  "border: 1px solid #d0d7de; " ++
  "padding: 8px 12px; " ++
  "background-color: #f6f8fa; " ++
  "font-weight: 600; " ++
  "text-align: left; " ++
  "vertical-align: top; " ++
  "mso-element: th;".

Definition td_style : string :=
  "border: 1px solid #d0d7de; " ++
  "padding: 8px 12px; " ++
  "vertical-align: top; " ++
  "mso-element: td;".

Definition blockquote_style : string :=
  "margin: 16px 0; " ++
  "padding: 0 16px; " ++
  "border-left: 4px solid #d1d5db; " ++
  "background-color: #f9fafb; " ++
  "font-style: italic; " ++
  "color: #6b7280; " ++
  "page-break-inside: avoid;".

(** [Math.max(24 - i * 2, 14)]. *)
Definition heading_font_size (i : nat) : nat := Nat.max (24 - i * 2) 14.

Definition heading_style (i : nat) : string :=
  "font-size: " ++ JS.nat_to_string (heading_font_size i) ++ "px; " ++
  "font-weight: bold; " ++
  "margin: " ++ (if Nat.eqb i 1 then "24px" else "20px") ++ " 0 16px 0; " ++
  "color: #1f2937; " ++
  "line-height: 1.25; " ++
  "page-break-after: avoid; " ++
  "mso-element: h" ++ JS.nat_to_string i ++ ";".

Definition inj_code : injection :=
  {| opening := "<code"; attr := style_attr code_style |}.
Definition inj_table : injection :=
  {| opening := "<table"; attr := style_attr table_style |}.
Definition inj_th : injection :=
  {| opening := "<th"; attr := style_attr th_style |}.
Definition inj_td : injection :=
  {| opening := "<td"; attr := style_attr td_style |}.
Definition inj_blockquote : injection :=
  {| opening := "<blockquote"; attr := style_attr blockquote_style |}.
Definition inj_heading (i : nat) : injection :=
  {| opening := "<h" ++ JS.nat_to_string i;
     attr := style_attr (heading_style i) |}.

(** The injections in the order [handleCopy] applies them; the [for] loop
    over the heading levels is unrolled. *)
Definition injections : list injection :=
  [inj_code; inj_table; inj_th; inj_td; inj_blockquote]
    ++ map inj_heading (seq 1 6).

Definition apply_all (ps : list injection) (html : string) : string :=
  fold_left (fun h p => inject p h) ps html.

Definition nl : string := String newline EmptyString.

(** The wrapper written around [clonedPreview.innerHTML]. *)
Definition wrap (inner : string) : string :=
  "<div style=" ++ dquote ++ nl ++
  "          font-family: -apple-system, BlinkMacSystemFont, " ++
    squote ++ "Segoe UI" ++ squote ++ ", " ++
    squote ++ "Roboto" ++ squote ++ ", " ++
    squote ++ "Helvetica Neue" ++ squote ++ ", Arial, sans-serif;" ++ nl ++
  "          font-size: 16px;" ++ nl ++
  "          line-height: 1.6;" ++ nl ++
  "          color: #1f2937;" ++ nl ++
  "          max-width: none;" ++ nl ++
  "          margin: 0;" ++ nl ++
  "          padding: 0;" ++ nl ++
  "          background-color: #ffffff;" ++ nl ++
  "          word-wrap: break-word;" ++ nl ++
  "          mso-line-height-rule: exactly;" ++ nl ++
  "          mso-text-raise: 0;" ++ nl ++
  "        " ++ dquote ++ ">" ++ inner ++ "</div>".

(** The fragment [handleCopy] hands to the clipboard. *)
Definition export_fragment (innerHTML : string) : string :=
  apply_all injections (wrap innerHTML).

(** No [<] inside a tag: between a [<] and the next [>] there is no other
    [<].  [in_tag] tells whether the text starts inside a tag. *)
Fixpoint flat_from (in_tag : bool) (s : string) : bool :=
  match s with
  | EmptyString => true
  | String c r =>
      if Ascii.eqb c "<" then negb in_tag && flat_from true r
      else if Ascii.eqb c ">" then flat_from false r
      else flat_from in_tag r
  end.

Definition flat (s : string) : bool := flat_from false s.

(** [c] does not occur in [s]. *)
Fixpoint lacks (c : ascii) (s : string) : bool :=
  match s with
  | EmptyString => true
  | String d r => negb (Ascii.eqb d c) && lacks c r
  end.

(** [needle] occurs in [s]. *)
Fixpoint occurs (needle s : string) : bool :=
  prefix needle s ||
  match s with
  | EmptyString => false
  | String _ r => occurs needle r
  end.

(** What the lemmas need of an injection: the opening starts with [<] and
    holds neither [>] nor a blank, and the attribute starts with a blank
    and holds neither [<] nor [>]. *)
Definition wf (p : injection) : bool :=
  prefix "<" (opening p) && lacks ">" (opening p) && lacks " " (opening p)
  && prefix " " (attr p) && lacks "<" (attr p) && lacks ">" (attr p).

(** Neither opening is a prefix of the other: the two patterns never begin
    a match at the same place. *)
Definition apart (p q : injection) : bool :=
  negb (prefix (opening p) (opening q)) && negb (prefix (opening q) (opening p)).

Definition same (p q : injection) : bool :=
  String.eqb (opening p) (opening q) && String.eqb (attr p) (attr q).

(** The same pattern with its attribute written twice. *)
Definition twice (p : injection) : injection :=
  {| opening := opening p; attr := attr p ++ attr p |}.

(** The name of a tag and the opening literal of an injection of which
    neither begins the other: the injection does not match the tag. *)
Definition foreign (name : string) (q : injection) : bool :=
  negb (prefix (opening q) name) && negb (prefix name (opening q)).

(** The injections that follow the one for [<code]. *)
Definition later_injections : list injection := tl injections.

(** Whether a text ends inside a tag: after a [<] that no [>] follows. *)
Fixpoint ends_in_tag (in_tag : bool) (s : string) : bool :=
  match s with
  | EmptyString => in_tag
  | String c r =>
      if Ascii.eqb c "<" then ends_in_tag true r
      else if Ascii.eqb c ">" then ends_in_tag false r
      else ends_in_tag in_tag r
  end.

(** The two literal parts of [wrap]: what it writes in front of the
    content, and behind it. *)
Definition wrapper_close : string := "</div>".

Definition wrapper_open : string :=
  Eval cbv in
    substring 0 (String.length (wrap "") - String.length wrapper_close)
              (wrap "").

End Markup.

(** ** The [MathToImage] component *)

Module MathToImage.

Local Open Scope string_scope.
Local Open Scope Q_scope.

(** Browser and library services the component calls. *)
Record Host := {
  (** [parseFloat(s)]; [None] is [NaN]. *)
  parseFloat : string -> JS.number;
  (** [katex.renderToString(math, {displayMode, ...})]; [None]: it throws. *)
  renderToString : string -> bool -> option string
}.

(** The props, with [parentFontSize] absent as [None]. *)
Record Props := {
  math : string;
  displayMode : bool;
  className : string;
  parentFontSize : option string;
  targetDPI : Q;
  quality : Q
}.

(** The defaults of the destructuring in the component's signature. *)
Definition with_defaults (m : string) : Props :=
  {| math := m; displayMode := false; className := "";
     parentFontSize := None; targetDPI := 96; quality := 1 |}.

(** A value of a style property: a literal of the source, or a number
    followed by [px] as the template literals of the source build it. *)
Inductive css :=
| Raw (s : string)
| Px (n : JS.number).

(** The inline style of the staging container: the assignments made, the
    latest first; reading a property returns its latest assignment. *)
Definition Style := list (string * css).

Definition set_style (k : string) (v : css) (st : Style) : Style :=
  (k, v) :: st.

Fixpoint get_style (k : string) (st : Style) : option css :=
  match st with
  | [] => None
  | (k', v) :: r => if String.eqb k k' then Some v else get_style k r
  end.

(** Lines 67-84: [baseFontSize]. *)
Definition baseFontSize (h : Host) (p : Props) : css :=
  match parentFontSize p with
  | Some (String _ _ as s) =>
      let parentSize := parseFloat h s in
      if displayMode p
      then Px (JS.Math_max (JS.mul parentSize (Some 1.1)) (Some 18))
      else Px (JS.Math_max (JS.mul parentSize (Some 1.0)) (Some 14))
  | _ =>
      if displayMode p then Px (Some 20) else Px (Some 16)
  end.

(** Lines 59-104: the style of the freshly created container. *)
Definition staging_style (h : Host) (p : Props) : Style :=
  let st0 :=
    set_style "color" (Raw "black")
    (set_style "background" (Raw "white")
    (set_style "fontFamily" (Raw "KaTeX_Main,Times New Roman,serif")
    (set_style "top" (Raw "-9999px")
    (set_style "left" (Raw "-9999px")
    (set_style "position" (Raw "absolute") []))))) in
  if displayMode p then
    set_style "lineHeight" (Raw "1.4")
    (set_style "minHeight" (Raw "2.5em")
    (set_style "margin" (Raw "0 auto")
    (set_style "maxWidth" (Raw "600px")
    (set_style "textAlign" (Raw "center")
    (set_style "padding" (Raw "0.8em 1.0em")
    (set_style "fontSize" (baseFontSize h p) st0))))))
  else
    set_style "textAlign" (Raw "center")
    (set_style "minHeight" (Raw "1.2em")
    (set_style "minWidth" (Raw "1.2em")
    (set_style "display" (Raw "inline-block")
    (set_style "lineHeight" (Raw "1.2")
    (set_style "padding" (Raw "0.3em 0.5em")
    (set_style "fontSize" (baseFontSize h p) st0)))))).

Record Rect := { left : Q; top : Q; width : Q; height : Q }.

(** [tempDiv.style.padding ? tempDiv.style.padding.split(' ')
    : ['0', '0', '0', '0']]. *)
Definition currentPadding (st : Style) : list string :=
  match get_style "padding" st with
  | Some (Raw (String _ _ as s)) => JS.split_space s
  | _ => ["0"; "0"; "0"; "0"]
  end.

(** Lines 136-139: the four numbers read from the padding; a unit that
    follows a number is dropped by [parseFloat]. *)
Record Padding := {
  paddingTop : JS.number;
  paddingRight : JS.number;
  paddingBottom : JS.number;
  paddingLeft : JS.number
}.

Definition read_padding (h : Host) (st : Style) : Padding :=
  let cp := currentPadding st in
  let at_ i := nth_error cp i in
  {| paddingTop := parseFloat h (JS.str_or (at_ 0%nat) "0");
     paddingRight :=
       parseFloat h (JS.str_or (at_ 1%nat) (JS.str_or (at_ 0%nat) "0"));
     paddingBottom :=
       parseFloat h (JS.str_or (at_ 2%nat) (JS.str_or (at_ 0%nat) "0"));
     paddingLeft :=
       parseFloat h
         (JS.str_or (at_ 3%nat)
            (JS.str_or (at_ 1%nat) (JS.str_or (at_ 0%nat) "0"))) |}.

Definition offsetX (katex container : Rect) : Q := left katex - left container.
Definition offsetY (katex container : Rect) : Q := top katex - top container.

(** Line 134: [Math.abs(offsetX) > 1 || Math.abs(offsetY) > 1]. *)
Definition off_position (katex container : Rect) : bool :=
  JS.Qltb 1 (Qabs (offsetX katex container))
  || JS.Qltb 1 (Qabs (offsetY katex container)).

Definition adjustX (katex container : Rect) : Q :=
  (width container - width katex) / 2 - offsetX katex container.
Definition adjustY (katex container : Rect) : Q :=
  (height container - height katex) / 2 - offsetY katex container.

(** Lines 122-151: the centering adjustment; [katex] is the rectangle of
    the [.katex] element, absent when [querySelector] finds none. *)
Definition adjust_centering (h : Host) (st : Style)
           (katex : option Rect) (container : Rect) : Style :=
  match katex with
  | None => st
  | Some k =>
      if off_position k container then
        let pd := read_padding h st in
        let ax := Some (adjustX k container) in
        let ay := Some (adjustY k container) in
        set_style "paddingRight"
          (Px (JS.Math_max (Some 0) (JS.sub (paddingRight pd) ax)))
        (set_style "paddingLeft"
          (Px (JS.Math_max (Some 0) (JS.add (paddingLeft pd) ax)))
        (set_style "paddingBottom"
          (Px (JS.Math_max (Some 0) (JS.sub (paddingBottom pd) ay)))
        (set_style "paddingTop"
          (Px (JS.Math_max (Some 0) (JS.add (paddingTop pd) ay))) st)))
      else st
  end.

(** What the browser reports when the settle timer fires. *)
Record Measure := {
  katexRect : option Rect;
  containerRect : Rect;
  devicePixelRatio : JS.number;
  offsetWidth : Q;
  scrollWidth : Q;
  offsetHeight : Q;
  scrollHeight : Q;
  computedWidth : string;
  computedHeight : string;
  rectWidth : Q;
  rectHeight : Q
}.

(** Line 159 and line 175. *)
Definition pixel_ratio (m : Measure) : Q :=
  JS.or_default (devicePixelRatio m) 1.

Definition scale (p : Props) (m : Measure) : Q :=
  JS.fdiv (targetDPI p) (JS.fmul 72 (pixel_ratio m)).

(** Lines 163-172. *)
Definition actualWidth (h : Host) (m : Measure) : Q :=
  Qmax (Qmax (JS.or_default (Some (offsetWidth m)) (scrollWidth m))
             (JS.or_default (parseFloat h (computedWidth m)) 0))
       (JS.or_default (Some (rectWidth m)) 0).

Definition actualHeight (h : Host) (m : Measure) : Q :=
  Qmax (Qmax (JS.or_default (Some (offsetHeight m)) (scrollHeight m))
             (JS.or_default (parseFloat h (computedHeight m)) 0))
       (JS.or_default (Some (rectHeight m)) 0).

(** Lines 184-185: the [width] and [height] handed to html2canvas. *)
Definition capture_extent (size s : Q) : Z := Qceiling (JS.fmul size s).

Definition capture_width (h : Host) (p : Props) (m : Measure) : Z :=
  capture_extent (actualWidth h m) (scale p m).
Definition capture_height (h : Host) (p : Props) (m : Measure) : Z :=
  capture_extent (actualHeight h m) (scale p m).

Inductive Format := Png | Jpeg.

(** A canvas, as far as the component uses it: [toDataURL(type, quality)],
    [None] when it throws. *)
Record Canvas := { toDataURL : Format -> Q -> option string }.

(** What is written down while an attempt runs. *)
Inductive Entry :=
| Attached (n : nat)
| Detached (n : nat)
| CaptureRequested (n : nat) (w h : Z)
| Encode (f : Format) (q : Q)
| Warned
| ErrorLogged
| CleanupFailed.

(** Lines 190-199: the data URL, or [None] when the JPEG retry throws as
    well, with the encodings attempted. *)
Definition encode (c : Canvas) (q : Q) : option string * list Entry :=
  match toDataURL c Png q with
  | Some d => (Some d, [Encode Png q])
  | None =>
      let q' := Qmax q 0.8 in
      (toDataURL c Jpeg q', [Encode Png q; Warned; Encode Jpeg q'])
  end.

(** *** The component as a machine

    One component instance serves one formula occurrence.  Every run of the
    effect starts an attempt that is suspended twice, at the settle timer
    and at the html2canvas promise; the attempts of one instance share the
    state of the instance and the children of [document.body]. *)

Inductive Phase :=
| Settling
| Capturing.

(** An attempt in flight; [node] is its staging container. *)
Record Task := {
  node : nat;
  request : Props;
  style : Style;
  phase : Phase
}.

Record World := {
  props : Props;             (* the props of the latest render *)
  imageDataUrl : string;     (* useState('') *)
  isLoading : bool;          (* useState(true) *)
  body : list nat;           (* staging containers under document.body *)
  fresh : nat;               (* the next container to be created *)
  tasks : list Task;
  log : list Entry
}.

Definition initial (p : Props) : World :=
  {| props := p; imageDataUrl := ""; isLoading := true;
     body := []; fresh := 0; tasks := []; log := [] |}.

Definition setIsLoading (b : bool) (w : World) : World :=
  {| props := props w; imageDataUrl := imageDataUrl w; isLoading := b;
     body := body w; fresh := fresh w; tasks := tasks w; log := log w |}.

Definition setImageDataUrl (d : string) (w : World) : World :=
  {| props := props w; imageDataUrl := d; isLoading := isLoading w;
     body := body w; fresh := fresh w; tasks := tasks w; log := log w |}.

Definition set_props (p : Props) (w : World) : World :=
  {| props := p; imageDataUrl := imageDataUrl w; isLoading := isLoading w;
     body := body w; fresh := fresh w; tasks := tasks w; log := log w |}.

Definition write (es : list Entry) (w : World) : World :=
  {| props := props w; imageDataUrl := imageDataUrl w;
     isLoading := isLoading w; body := body w; fresh := fresh w;
     tasks := tasks w; log := (log w ++ es)%list |}.

Definition set_tasks (ts : list Task) (w : World) : World :=
  {| props := props w; imageDataUrl := imageDataUrl w;
     isLoading := isLoading w; body := body w; fresh := fresh w;
     tasks := ts; log := log w |}.

(** [document.createElement('div')] followed by
    [document.body.appendChild(tempDiv)]. *)
Definition appendChild (w : World) : nat * World :=
  let n := fresh w in
  (n, {| props := props w; imageDataUrl := imageDataUrl w;
         isLoading := isLoading w; body := (body w ++ [n])%list;
         fresh := S n; tasks := tasks w;
         log := (log w ++ [Attached n])%list |}).

(** [tempDiv.parentNode] is not null. *)
Definition has_parent (n : nat) (w : World) : bool :=
  existsb (Nat.eqb n) (body w).

(** [document.body.removeChild(tempDiv)]; [None]: it throws, the node not
    being a child of the body. *)
Definition removeChild (n : nat) (w : World) : option World :=
  if existsb (Nat.eqb n) (body w) then
    Some {| props := props w; imageDataUrl := imageDataUrl w;
            isLoading := isLoading w;
            body := filter (fun k => negb (Nat.eqb n k)) (body w);
            fresh := fresh w; tasks := tasks w;
            log := (log w ++ [Detached n])%list |}
  else None.

(** [if (tempDiv && tempDiv.parentNode) document.body.removeChild(tempDiv)];
    [None] when [removeChild] throws. *)
Definition release (n : nat) (w : World) : option World :=
  if has_parent n w then removeChild n w else Some w.

(** Lines 207-218: the [catch] block. *)
Definition on_failure (n : nat) (w : World) : World :=
  let w1 := write [ErrorLogged] w in
  let w2 := match release n w1 with
            | Some w' => w'
            | None => write [CleanupFailed] w1
            end in
  setIsLoading false w2.

(** Lines 200-206: after a successful encoding. *)
Definition on_success (n : nat) (d : string) (w : World) : World :=
  let w1 := setImageDataUrl d w in
  match release n w1 with
  | Some w2 => setIsLoading false w2
  | None => on_failure n w1
  end.

Definition find_task (n : nat) (w : World) : option Task :=
  find (fun t => Nat.eqb n (node t)) (tasks w).

Definition drop_task (n : nat) (w : World) : World :=
  set_tasks (filter (fun t => negb (Nat.eqb n (node t))) (tasks w)) w.

Definition put_task (t : Task) (w : World) : World :=
  set_tasks
    (map (fun u => if Nat.eqb (node t) (node u) then t else u) (tasks w)) w.

(** What happens to an instance. *)
Inductive Event :=
(** The effect runs for props [p] (on mount and when a dependency has
    changed); [typeset] tells whether [katex.render] returns. *)
| Effect (p : Props) (typeset : bool)
(** The settle timer of the attempt on container [n] fires; [m] is what
    the layout reads return, [None] when one of them throws. *)
| Settled (n : nat) (m : option Measure)
(** The html2canvas promise of the attempt on container [n] settles; [c]
    is the canvas, [None] when the promise is rejected. *)
| Captured (n : nat) (c : option Canvas).

(** Lines 45-223, one event at a time. *)
Definition step (h : Host) (w : World) (e : Event) : World :=
  match e with
  | Effect p typeset =>
      let w1 := setIsLoading true (set_props p w) in
      if JS.blank (math p) then setIsLoading false w1
      else
        let (n, w2) := appendChild w1 in
        if typeset then
          set_tasks
            (tasks w2 ++ [{| node := n; request := p;
                             style := staging_style h p;
                             phase := Settling |}])%list w2
        else on_failure n w2
  | Settled n m =>
      match find_task n w with
      | Some t =>
          match phase t, m with
          | Settling, Some m =>
              let st := adjust_centering h (style t)
                          (katexRect m) (containerRect m) in
              let cw := capture_width h (request t) m in
              let ch := capture_height h (request t) m in
              write [CaptureRequested n cw ch]
                (put_task {| node := n; request := request t;
                             style := st; phase := Capturing |} w)
          | Settling, None => on_failure n (drop_task n w)
          | Capturing, _ => w
          end
      | None => w
      end
  | Captured n c =>
      match find_task n w with
      | Some t =>
          match phase t, c with
          | Capturing, Some c =>
              let (d, es) := encode c (quality (request t)) in
              let w1 := write es (drop_task n w) in
              match d with
              | Some d => on_success n d w1
              | None => on_failure n w1
              end
          | Capturing, None => on_failure n (drop_task n w)
          | Settling, _ => w
          end
      | None => w
      end
  end.

Definition run (h : Host) (w : World) (es : list Event) : World :=
  fold_left (step h) es w.

(** How often container [n] was attached and detached, and whether its
    attempt is still in flight. *)
Definition is_attach (n : nat) (e : Entry) : bool :=
  match e with Attached k => Nat.eqb n k | _ => false end.

Definition is_detach (n : nat) (e : Entry) : bool :=
  match e with Detached k => Nat.eqb n k | _ => false end.

Definition is_cleanup_failure (e : Entry) : bool :=
  match e with CleanupFailed => true | _ => false end.

Definition attaches (n : nat) (l : list Entry) : nat :=
  length (filter (is_attach n) l).

Definition detaches (n : nat) (l : list Entry) : nat :=
  length (filter (is_detach n) l).

Definition in_flight (n : nat) (w : World) : bool :=
  existsb (fun t => Nat.eqb n (node t)) (tasks w).

(** What holds of the document and the log whenever no step is under
    way: the containers under the body are distinct and were created
    earlier; every container created was attached once; a container was
    detached once if it is no longer under the body and never otherwise;
    no cleanup failed. *)
Record Core (w : World) : Prop := {
  core_nodup : NoDup (body w);
  core_fresh : Forall (fun n => n < fresh w)%nat (body w);
  core_attached :
    forall n, attaches n (log w) = if (n <? fresh w)%nat then 1%nat else 0%nat;
  core_detached :
    forall n, detaches n (log w)
              = if (n <? fresh w)%nat && negb (existsb (Nat.eqb n) (body w))
                then 1%nat else 0%nat;
  core_clean : existsb is_cleanup_failure (log w) = false
}.

(** Between steps the containers under the body are those of the attempts
    in flight. *)
Record Inv (w : World) : Prop := {
  inv_tasks : map node (tasks w) = body w;
  inv_core : Core w
}.

(** Within a step that is about to leave the attempt on container [n]:
    the container is still attached, its task is gone. *)
Record Leaving (n : nat) (w : World) : Prop := {
  leaving_tasks :
    map node (tasks w) = filter (fun k => negb (Nat.eqb n k)) (body w);
  leaving_attached : In n (body w);
  leaving_core : Core w
}.

(** Entries that record neither an attachment, nor a detachment, nor a
    failed cleanup. *)
Definition quiet (e : Entry) : bool :=
  match e with
  | Attached _ | Detached _ | CleanupFailed => false
  | _ => true
  end.

(** *** What the instance renders *)

Inductive Content :=
| Text (s : string)
| Html (markup : string)
| NoContent.

Record Element := {
  tag : string;
  class : string;
  src : string;
  alt : string;
  title : option string;
  content : Content
}.

Definition loading_text : string := "公式加载中...".
Definition loading_dot : string := "·".
Definition formula_label : string := "数学公式: ".
Definition load_failed_notice : string := "图片加载失败，已显示公式文本".

(** Lines 225-424. *)
Definition render (h : Host) (w : World) : Element :=
  let p := props w in
  if isLoading w then
    {| tag := "span"; class := "math-loading " ++ className p;
       src := ""; alt := ""; title := None;
       content := Text (if displayMode p then loading_text else loading_dot) |}
  else
    match imageDataUrl w with
    | EmptyString =>
        match renderToString h (math p) (displayMode p) with
        | Some markup =>
            {| tag := "span"; class := "math-fallback " ++ className p;
               src := ""; alt := ""; title := None;
               content := Html markup |}
        | None =>
            {| tag := "span"; class := className p;
               src := ""; alt := ""; title := None;
               content := Text (math p) |}
        end
    | d =>
        {| tag := "img"; class := "math-image " ++ className p;
           src := d; alt := formula_label ++ math p;
           title := Some (formula_label ++ math p);
           content := NoContent |}
    end.

(** Lines 348-363: what the [onError] handler of the image inserts when
    the browser cannot load the committed image. *)
Definition onError_text (p : Props) : Element :=
  {| tag := "span"; class := ""; src := ""; alt := "";
     title := Some load_failed_notice; content := Text (math p) |}.

(** The states of the specification, read off the instance. *)
Inductive Status := Loading | Rendered | Fallback.

Definition status (w : World) : Status :=
  if isLoading w then Loading
  else match imageDataUrl w with
       | EmptyString => Fallback
       | _ => Rendered
       end.

(** *** Used sizes of the container's padding

    The padding a browser applies on one side: the longhand set by the
    centering adjustment where there is one, else the component of the
    shorthand, an [em] counting for the font size. *)

Inductive Side := STop | SRight | SBottom | SLeft.

Definition longhand (s : Side) : string :=
  match s with
  | STop => "paddingTop"
  | SRight => "paddingRight"
  | SBottom => "paddingBottom"
  | SLeft => "paddingLeft"
  end.

Definition declared (h : Host) (s : Side) (st : Style) : JS.number :=
  let pd := read_padding h st in
  match s with
  | STop => paddingTop pd
  | SRight => paddingRight pd
  | SBottom => paddingBottom pd
  | SLeft => paddingLeft pd
  end.

Definition used_padding (h : Host) (fontPx : Q) (s : Side) (st : Style)
  : JS.number :=
  match get_style (longhand s) st with
  | Some (Px v) => v
  | _ => JS.mul (declared h s st) (Some fontPx)
  end.

(** The padding of the container along one axis. *)
Definition vertical_padding (h : Host) (fontPx : Q) (st : Style) : JS.number :=
  JS.add (used_padding h fontPx STop st) (used_padding h fontPx SBottom st).

Definition horizontal_padding (h : Host) (fontPx : Q) (st : Style)
  : JS.number :=
  JS.add (used_padding h fontPx SLeft st) (used_padding h fontPx SRight st).

(** [x] is the number [q], up to the representation of the fraction. *)
Definition is_number (x : JS.number) (q : Q) : Prop :=
  match x with
  | Some v => v == q
  | None => False
  end.

(** A device pixel ratio as browsers report it: not negative. *)
Definition ratio_not_negative (raw : JS.number) : Prop :=
  match raw with
  | Some d => 0 <= d
  | None => True
  end.

(** Sizes, resolutions and ratios far inside the range of binary64: in
    the computation of the scale and of the capture size no product or
    quotient of such numbers overflows or falls below the normal
    numbers. *)
Definition ordinary (x : Q) : Prop := 2 ^ (-256) <= x /\ x <= 2 ^ 256.

(** A device pixel ratio as browsers report it: missing, zero or
    ordinary. *)
Definition ratio_ordinary (raw : JS.number) : Prop :=
  match raw with
  | Some d => d == 0 \/ ordinary d
  | None => True
  end.

(** A measured size: zero or ordinary. *)
Definition sized (x : Q) : Prop := x == 0 \/ ordinary x.

(** The sides (top, right, bottom, left) that CSS gives a padding
    shorthand of one to four values. *)
Definition shorthand_sides (tokens : list string)
  : option (string * string * string * string) :=
  match tokens with
  | [a] => Some (a, a, a, a)
  | [a; b] => Some (a, b, a, b)
  | [a; b; c] => Some (a, b, c, b)
  | [a; b; c; d] => Some (a, b, c, d)
  | _ => None
  end.

(** A value of a padding shorthand: not empty and without a blank. *)
Definition is_token (t : string) : bool :=
  negb (String.eqb t "") && Markup.lacks " " t.

(** An effect run that goes past the test on the trimmed source. *)
Definition starts_attempt (e : Event) : bool :=
  match e with
  | Effect p _ => negb (JS.blank (math p))
  | _ => false
  end.

(** The padding strings of the two branches of lines 86-104. *)
Definition padding_tokens (display : bool) : string * string :=
  if display then ("0.8em", "1.0em") else ("0.3em", "0.5em").

End MathToImage.

(** ** The scale on primitive floating-point numbers

    The two lines of the source that compute the scale and the scaled size,
    on the binary64 numbers of the kernel.  They serve to check, on
    examples, that [JS.double] rounds as the floating-point unit does. *)

Module Binary64.

Definition scale (targetDPI devicePixelRatio : float) : float :=
  (targetDPI / (72 * devicePixelRatio))%float.

Definition scaled (size targetDPI devicePixelRatio : float) : float :=
  (size * scale targetDPI devicePixelRatio)%float.

(** [x] lies strictly between the integers [lo] and [lo + 1], so that
    [Math.ceil(x)] is [lo + 1]. *)
Definition strictly_between (lo x : float) : bool :=
  (PrimFloat.ltb lo x && PrimFloat.ltb x (lo + 1))%float.

(** The rational a finite floating-point number stands for. *)
Definition to_Q (x : float) : option Q :=
  match Prim2SF x with
  | S754_zero _ => Some 0%Q
  | S754_finite s m e =>
      Some ((if s then -1 else 1) * inject_Z (Zpos m) * 2 ^ e)%Q
  | _ => None
  end.

(** The floating-point number [x] is the rational [q]. *)
Definition agree (x : float) (q : Q) : bool :=
  match to_Q x with
  | Some v => Qeq_bool v q
  | None => false
  end.

End Binary64.

(** ** The export action [handleCopy] of [App] *)

Module App.

Local Open Scope string_scope.

(** An element below the preview node, with the one run-time property the
    readiness check reads. *)
Record Node := {
  elem : MathToImage.Element;
  naturalWidth : Z
}.

(** The page at the moment the button is pressed. *)
Record Page := {
  (** [previewRef.current] with its descendants; [None]: the ref is null. *)
  preview : option (list Node);
  (** [clonedPreview.innerHTML] after steps A to C; [None]: cloning or
      inlining throws. *)
  innerHTML : option string;
  (** [navigator.clipboard && window.ClipboardItem]. *)
  clipboard_api : bool;
  (** [navigator.clipboard.write] resolves. *)
  write_ok : bool;
  (** [window.getSelection()] is not null. *)
  selection : bool;
  (** The result of [document.execCommand('copy')]. *)
  execCommand_copy : bool
}.

Inductive Action :=
| Alert (msg : string)
| ClipboardWrite (html : string)
| RemoveAllRanges
| AddRangeNode           (* a range made by [selectNode] *)
| AddRangeContents       (* a range made by [selectNodeContents] *)
| ExecCopy
| ConsoleError.

Definition msg_pending : string := "正在生成数学公式图片，请稍后再试...".
Definition msg_copied : string :=
  "内容已复制到剪贴板！可以粘贴到Word等应用中。".
Definition msg_manual : string :=
  "自动复制失败。请手动选择右侧预览区域的内容（Ctrl+A），然后复制（Ctrl+C）到Word中。".

(** [querySelectorAll('.math-image')]: the class attribute holds the token
    [math-image]. *)
Definition is_math_image (n : Node) : bool :=
  existsb (String.eqb "math-image")
          (JS.split_space (MathToImage.class (elem n))).

(** [img instanceof HTMLImageElement]. *)
Definition is_img (n : Node) : bool :=
  String.eqb (MathToImage.tag (elem n)) "img".

(** [!img.src.startsWith('data:image') || img.naturalWidth === 0]. *)
Definition not_ready (n : Node) : bool :=
  negb (JS.startsWith (MathToImage.src (elem n)) "data:image")
  || (naturalWidth n =? 0)%Z.

(** Lines 122-130. *)
Definition mathImages (nodes : list Node) : list Node :=
  filter is_math_image nodes.

Definition loadingImages (nodes : list Node) : list Node :=
  filter not_ready (filter is_img (mathImages nodes)).

(** Lines 123-136: the export is refused. *)
Definition refused (nodes : list Node) : bool :=
  match mathImages nodes with
  | [] => false
  | _ => match loadingImages nodes with
         | [] => false
         | _ => true
         end
  end.

(** Lines 378-389: the [catch] block. *)
Definition on_error (pg : Page) : list Action :=
  [ConsoleError; Alert msg_manual] ++
  (if selection pg then [RemoveAllRanges; AddRangeContents] else []).

(** Lines 345-373: the clipboard tiers, for the fragment [html]. *)
Definition commit (pg : Page) (html : string) : list Action :=
  if clipboard_api pg then
    if write_ok pg
    then [ClipboardWrite html; Alert msg_copied]
    else ClipboardWrite html :: on_error pg
  else
    if selection pg then
      [RemoveAllRanges; AddRangeNode; ExecCopy; RemoveAllRanges] ++
      (if execCommand_copy pg then [Alert msg_copied] else on_error pg)
    else [].

(** Lines 118-392. *)
Definition handleCopy (pg : Page) : list Action :=
  match preview pg with
  | None => []
  | Some nodes =>
      if refused nodes then [Alert msg_pending]
      else
        match innerHTML pg with
        | Some inner => commit pg (Markup.export_fragment inner)
        | None => on_error pg
        end
  end.

Definition alerts (l : list Action) : list string :=
  flat_map (fun a => match a with Alert m => [m] | _ => [] end) l.

Definition is_write (a : Action) : bool :=
  match a with ClipboardWrite _ => true | _ => false end.

Definition is_exec (a : Action) : bool :=
  match a with ExecCopy => true | _ => false end.

Definition is_select_contents (a : Action) : bool :=
  match a with AddRangeContents => true | _ => false end.

(** The element a component instance contributes to the preview, with
    the natural width the browser has for it. *)
Definition node_of (h : MathToImage.Host) (w : MathToImage.World) (nw : Z)
  : Node :=
  {| elem := MathToImage.render h w; naturalWidth := nw |}.


(** An instance that shows an image the check counts as not ready. *)
Definition pending (x : MathToImage.World * Z) : bool :=
  negb (MathToImage.isLoading (fst x))
  && negb (String.eqb (MathToImage.imageDataUrl (fst x)) "")
  && (negb (JS.startsWith (MathToImage.imageDataUrl (fst x)) "data:image")
      || (snd x =? 0)%Z).

(** *** The component overrides handed to ReactMarkdown (lines 433-487) *)

(** What an override returns: a [MathToImage] element, or the element it
    was called for. *)
Inductive Rendering :=
| Formula (p : MathToImage.Props)
| Plain.

(** [<MathToImage math={text} displayMode={display}
    parentFontSize="16px" />]. *)
Definition formula (text : string) (display : bool) : MathToImage.Props :=
  {| MathToImage.math := text; MathToImage.displayMode := display;
     MathToImage.className := "";
     MathToImage.parentFontSize := Some "16px";
     MathToImage.targetDPI := 96; MathToImage.quality := 1 |}.

(** [className ? className.split(' ') : []]. *)
Definition classNames (className : option string) : list string :=
  match className with
  | Some (String _ _ as s) => JS.split_space s
  | _ => []
  end.

(** Lines 435-443. *)
Definition span_override (className : option string) (children : string)
  : Rendering :=
  if JS.includes "math-inline" (classNames className)
  then Formula (formula children false) else Plain.

(** Lines 446-454. *)
Definition div_override (className : option string) (children : string)
  : Rendering :=
  if JS.includes "math-display" (classNames className)
  then Formula (formula children true) else Plain.

(** Lines 459-475. *)
Definition code_override (className : option string) (children : string)
  : Rendering :=
  let names := classNames className in
  let codeText := JS.strip_final_newline children in
  if JS.includes "language-math" names then
    if JS.includes "math-inline" names then Formula (formula codeText false)
    else if JS.includes "math-display" names
         then Formula (formula codeText true)
         else Plain
  else Plain.

(** Lines 478-487.  [child] is the single element child of the [pre], with
    its [className] prop and its text; [None] when the children are not one
    element.  The test on the class is [String.prototype.includes]: a
    substring test. *)
Definition pre_override (child : option (option string * string))
  : Rendering :=
  match child with
  | Some (Some cn, text) =>
      if Markup.occurs "language-math" cn
      then Formula (formula (JS.strip_final_newline text) true)
      else Plain
  | _ => Plain
  end.

End App.

(** ** A concrete host for evaluation *)

Module Sample.

Local Open Scope string_scope.

Definition digit (c : ascii) : option nat :=
  let n := nat_of_ascii c in
  if (48 <=? n)%nat && (n <=? 57)%nat then Some (n - 48)%nat else None.

(** The digits at the head of [s], as a number and a count, and the rest. *)
Fixpoint digits (acc : nat) (cnt : nat) (s : string) : nat * nat * string :=
  match s with
  | EmptyString => (acc, cnt, s)
  | String c r =>
      match digit c with
      | Some d => digits (acc * 10 + d) (S cnt) r
      | None => (acc, cnt, s)
      end
  end.

(** [parseFloat] on an unsigned decimal literal followed by anything:
    [16px], [0.8em], [1.0em], [0]; [NaN] without a leading digit. *)
Definition parseFloat (s : string) : JS.number :=
  match digits 0 0 s with
  | (_, O, _) => None
  | (i, _, String "." r) =>
      match digits 0 0 r with
      | (f, k, _) =>
          Some (Qred (inject_Z (Z.of_nat i)
                      + inject_Z (Z.of_nat f) / inject_Z (10 ^ Z.of_nat k)))
      end
  | (i, _, _) => Some (inject_Z (Z.of_nat i))
  end.

Definition host : MathToImage.Host :=
  {| MathToImage.parseFloat := parseFloat;
     MathToImage.renderToString :=
       fun m _ => Some ("<span class=katex>" ++ m ++ "</span>") |}.

(** A canvas both of whose encodings succeed, one that only encodes JPEG,
    and one that encodes nothing. *)
Definition canvas (name : string) : MathToImage.Canvas :=
  {| MathToImage.toDataURL := fun f _ =>
       match f with
       | MathToImage.Png => Some ("data:image/png;base64," ++ name)
       | MathToImage.Jpeg => Some ("data:image/jpeg;base64," ++ name)
       end |}.

Definition canvas_jpeg_only (name : string) : MathToImage.Canvas :=
  {| MathToImage.toDataURL := fun f _ =>
       match f with
       | MathToImage.Png => None
       | MathToImage.Jpeg => Some ("data:image/jpeg;base64," ++ name)
       end |}.

Definition canvas_dead : MathToImage.Canvas :=
  {| MathToImage.toDataURL := fun _ _ => None |}.

Definition rect (l t w h : Q) : MathToImage.Rect :=
  {| MathToImage.left := l; MathToImage.top := t;
     MathToImage.width := w; MathToImage.height := h |}.

(** The measurements of a container [w] by [h] CSS pixels whose typeset
    content sits at [k]. *)
Definition measure (k : MathToImage.Rect) (w h : Z) (dpr : JS.number)
  : MathToImage.Measure :=
  {| MathToImage.katexRect := Some k;
     MathToImage.containerRect := rect 0 0 (inject_Z w) (inject_Z h);
     MathToImage.devicePixelRatio := dpr;
     MathToImage.offsetWidth := inject_Z w;
     MathToImage.scrollWidth := inject_Z w;
     MathToImage.offsetHeight := inject_Z h;
     MathToImage.scrollHeight := inject_Z h;
     MathToImage.computedWidth := "auto";
     MathToImage.computedHeight := "auto";
     MathToImage.rectWidth := inject_Z w;
     MathToImage.rectHeight := inject_Z h |}.

Definition inline (m : string) : MathToImage.Props :=
  {| MathToImage.math := m; MathToImage.displayMode := false;
     MathToImage.className := "";
     MathToImage.parentFontSize := Some "16px";
     MathToImage.targetDPI := 96; MathToImage.quality := 1 |}.

Definition block (m : string) : MathToImage.Props :=
  {| MathToImage.math := m; MathToImage.displayMode := true;
     MathToImage.className := "";
     MathToImage.parentFontSize := Some "16px";
     MathToImage.targetDPI := 96; MathToImage.quality := 1 |}.

Definition with_dpi (dpi : Q) (p : MathToImage.Props) : MathToImage.Props :=
  {| MathToImage.math := MathToImage.math p;
     MathToImage.displayMode := MathToImage.displayMode p;
     MathToImage.className := MathToImage.className p;
     MathToImage.parentFontSize := MathToImage.parentFontSize p;
     MathToImage.targetDPI := dpi;
     MathToImage.quality := MathToImage.quality p |}.

(** An inline formula in a container of 66 by 30 pixels, its content 8
    pixels from the left and 5 from the top. *)
Definition settled : MathToImage.Measure :=
  measure (rect 8 5 50 20) 66 30 (Some 1).

(** A container 31 pixels wide. *)
Definition narrow : MathToImage.Measure :=
  measure (rect 8 5 15 20) 31 30 (Some 1).

(** The same on a display zoomed out to half a device pixel per pixel. *)
Definition zoomed_out : MathToImage.Measure :=
  measure (rect 8 5 15 20) 31 30 (Some 0.5).

(** Two requests of one occurrence, the second issued while the first is
    in flight, both brought to the point where they wait for their
    capture. *)
Definition request_a : MathToImage.Props := inline "a^2".
Definition request_b : MathToImage.Props := inline "b^2".

Definition both_capturing : list MathToImage.Event :=
  [MathToImage.Effect request_a true; MathToImage.Effect request_b true;
   MathToImage.Settled 0 (Some settled); MathToImage.Settled 1 (Some settled)].

Definition task_of (n : nat) (p : MathToImage.Props) : MathToImage.Task :=
  {| MathToImage.node := n; MathToImage.request := p;
     MathToImage.style :=
       MathToImage.adjust_centering host (MathToImage.staging_style host p)
         (MathToImage.katexRect settled) (MathToImage.containerRect settled);
     MathToImage.phase := MathToImage.Capturing |}.

(** The later request resolves first, the earlier one last. *)
Definition stale_last : list MathToImage.Event :=
  both_capturing ++
  [MathToImage.Captured 1 (Some (canvas "b2"));
   MathToImage.Captured 0 (Some (canvas "a2"))].

(** One request whose capture can be encoded in neither format. *)
Definition request_e : MathToImage.Props := inline "E=mc^2".

Definition capturing_e : list MathToImage.Event :=
  [MathToImage.Effect request_e true; MathToImage.Settled 0 (Some settled)].

Definition both_encodings_fail : list MathToImage.Event :=
  capturing_e ++ [MathToImage.Captured 0 (Some canvas_dead)].

(** An inline formula at 16 pixels whose content sits 2.2 pixels below
    the centre of its container of 66 by 29.6 pixels. *)
Definition low_content : MathToImage.Rect := rect 8 7 50 20.
Definition low_container : MathToImage.Rect := rect 0 0 66 29.6.

(** White space beyond ASCII, in UTF-8: a no-break space (U+00A0), an
    ideographic space (U+3000), a byte order mark (U+FEFF); and a
    zero-width space (U+200B), which [trim] keeps. *)
Definition no_break_space : string :=
  String "194" (String "160" "").
Definition ideographic_space : string :=
  String "227" (String "128" (String "128" "")).
Definition byte_order_mark : string :=
  String "239" (String "187" (String "191" "")).
Definition zero_width_space : string :=
  String "226" (String "128" (String "139" "")).

(** A page whose only formula is still loading. *)
Definition loading_page : App.Page :=
  {| App.preview :=
       Some [App.node_of host
               (MathToImage.run host (MathToImage.initial request_e)
                  [MathToImage.Effect request_e true]) 0];
     App.innerHTML := Some "<p><span class=math-loading>·</span></p>";
     App.clipboard_api := true; App.write_ok := true;
     App.selection := true; App.execCommand_copy := true |}.

(** A page where the structured write is rejected although the legacy
    copy command would work. *)
Definition rejected_write_page : App.Page :=
  {| App.preview := Some [];
     App.innerHTML := Some "<p>x</p>";
     App.clipboard_api := true; App.write_ok := false;
     App.selection := true; App.execCommand_copy := true |}.

(** A committed image the browser has not decoded yet. *)
Definition undecoded_image : App.Node :=
  {| App.elem :=
       {| MathToImage.tag := "img"; MathToImage.class := "math-image ";
          MathToImage.src := "data:image/png;base64,e";
          MathToImage.alt := ""; MathToImage.title := None;
          MathToImage.content := MathToImage.NoContent |};
     App.naturalWidth := 0 |}.

Definition undecoded_page : App.Page :=
  {| App.preview := Some [undecoded_image];
     App.innerHTML := Some "<p>x</p>";
     App.clipboard_api := true; App.write_ok := true;
     App.selection := true; App.execCommand_copy := true |}.

End Sample.

(* ================================================================== *)
(** * Theorems                                                          *)
(* ================================================================== *)

(** ** The attribute injections *)

Module MarkupFacts.
Import Markup.
Local Open Scope string_scope.

Lemma append_assoc (a b c : string) : (a ++ b) ++ c = a ++ (b ++ c).
Proof. induction a as [|x a IH]; simpl; [reflexivity|now rewrite IH]. Qed.

Lemma prefix_nil (s : string) : prefix EmptyString s = true.
Proof. now destruct s. Qed.

Lemma prefix_cons (a b : ascii) (o s : string) :
  prefix (String a o) (String b s) = Ascii.eqb a b && prefix o s.
Proof.
  simpl. destruct (ascii_dec a b) as [->|Hne].
  - now rewrite Ascii.eqb_refl.
  - apply Ascii.eqb_neq in Hne. now rewrite Hne.
Qed.

Lemma prefix_head (c : ascii) (o s : string) :
  prefix (String c EmptyString) o = true ->
  prefix o s = true ->
  exists r, s = String c r.
Proof.
  destruct o as [|a o]; [discriminate|].
  rewrite prefix_cons, andb_true_iff, Ascii.eqb_eq. intros [<- _].
  destruct s as [|b s]; [discriminate|].
  rewrite prefix_cons, andb_true_iff, Ascii.eqb_eq. intros [<- _]. now exists s.
Qed.

Lemma prefix_other_head (c d : ascii) (o s : string) :
  prefix (String c EmptyString) o = true ->
  Ascii.eqb d c = false ->
  prefix o (String d s) = false.
Proof.
  intros Ho Hd. destruct (prefix o (String d s)) eqn:E; [|reflexivity].
  destruct (prefix_head _ _ _ Ho E) as [r Hr]. injection Hr as -> _.
  now rewrite Ascii.eqb_refl in Hd.
Qed.

(** Two literals that both begin a text are comparable. *)
Lemma prefix_comparable (o1 o2 s : string) :
  prefix o1 s = true -> prefix o2 s = true ->
  prefix o1 o2 = true \/ prefix o2 o1 = true.
Proof.
  revert o2 s. induction o1 as [|a o1 IH]; intros o2 s H1 H2.
  - left; apply prefix_nil.
  - destruct o2 as [|b o2]; [right; apply prefix_nil|].
    destruct s as [|c s]; [discriminate|].
    rewrite prefix_cons, andb_true_iff, Ascii.eqb_eq in H1, H2.
    destruct H1 as [-> H1], H2 as [-> H2].
    rewrite !prefix_cons, Ascii.eqb_refl. simpl. eauto.
Qed.

Section OneInjection.

Variable p : injection.

Lemma inject_inside_close (r : string) :
  inject_from p true (String ">" r)
  = attr p ++ String ">" (inject_from p false r).
Proof. reflexivity. Qed.

Lemma inject_inside_other (c : ascii) (r : string) :
  Ascii.eqb c ">" = false ->
  inject_from p true (String c r) = String c (inject_from p true r).
Proof. intros H. simpl. now rewrite H. Qed.

Lemma inject_outside (c : ascii) (r : string) :
  inject_from p false (String c r)
  = String c (inject_from p (prefix (opening p) (String c r)) r).
Proof. reflexivity. Qed.

Hypothesis Hwf : wf p = true.

Lemma wf_parts :
  prefix "<" (opening p) = true /\ lacks ">" (opening p) = true
  /\ lacks " " (opening p) = true /\ prefix " " (attr p) = true
  /\ lacks "<" (attr p) = true /\ lacks ">" (attr p) = true.
Proof.
  unfold wf in Hwf. rewrite !andb_true_iff in Hwf. tauto.
Qed.

Lemma inject_outside_other (c : ascii) (r : string) :
  Ascii.eqb c "<" = false ->
  inject_from p false (String c r) = String c (inject_from p false r).
Proof.
  intros H. rewrite inject_outside.
  now rewrite (prefix_other_head _ _ _ _ (proj1 wf_parts) H).
Qed.

(** Text without [<] passes an idle scanner unchanged. *)
Lemma inject_outside_plain (u t : string) :
  lacks "<" u = true ->
  inject_from p false (u ++ t) = u ++ inject_from p false t.
Proof.
  induction u as [|c u IH]; intros H; [reflexivity|].
  simpl in H. apply andb_true_iff in H as [Hc Hu].
  apply negb_true_iff in Hc.
  change (String c u ++ t) with (String c (u ++ t)).
  rewrite inject_outside_other by assumption. now rewrite IH.
Qed.

(** Text without [>] passes a scanner inside a match unchanged. *)
Lemma inject_inside_plain (u t : string) :
  lacks ">" u = true ->
  inject_from p true (u ++ t) = u ++ inject_from p true t.
Proof.
  induction u as [|c u IH]; intros H; [reflexivity|].
  simpl in H. apply andb_true_iff in H as [Hc Hu].
  apply negb_true_iff in Hc.
  change (String c u ++ t) with (String c (u ++ t)).
  rewrite inject_inside_other by assumption. now rewrite IH.
Qed.

(** The injection neither creates nor destroys the beginning of a
    literal that holds no [>] and no blank. *)
Lemma prefix_inject (o : string) :
  lacks ">" o = true -> lacks " " o = true ->
  forall st s, prefix o (inject_from p st s) = prefix o s.
Proof.
  destruct wf_parts as (_ & _ & _ & Ha & _).
  induction o as [|a o IH]; intros Hg Hb st s; [now rewrite !prefix_nil|].
  simpl in Hg, Hb.
  apply andb_true_iff in Hg as [Hg Hg'], Hb as [Hb Hb'].
  apply negb_true_iff in Hg, Hb.
  destruct s as [|c r]; [reflexivity|].
  destruct st.
  - destruct (Ascii.eqb c ">") eqn:Ec.
    + apply Ascii.eqb_eq in Ec as ->. rewrite inject_inside_close.
      destruct (attr p) as [|b t]; [discriminate|].
      rewrite prefix_cons, andb_true_iff, Ascii.eqb_eq in Ha.
      destruct Ha as [<- _].
      change (String " " t ++ ?x) with (String " " (t ++ x)).
      now rewrite !prefix_cons, Hg, Hb.
    + rewrite inject_inside_other by assumption.
      rewrite !prefix_cons. f_equal. now apply IH.
  - rewrite inject_outside, !prefix_cons. f_equal. now apply IH.
Qed.

End OneInjection.

(** Applying an injection a second time writes the attribute a second
    time in front of each [>] the first application wrote it at. *)
Lemma inject_from_twice (p : injection) :
  wf p = true ->
  forall st s,
    inject_from p st (inject_from p st s) = inject_from (twice p) st s.
Proof.
  intros Hwf. destruct (wf_parts p Hwf) as (Ho & Hg & Hb & Ha & Hl & Hr).
  intros st s. revert st.
  induction s as [|c r IH]; intros st; [reflexivity|].
  destruct st.
  - destruct (Ascii.eqb c ">") eqn:Ec.
    + apply Ascii.eqb_eq in Ec as ->.
      rewrite !inject_inside_close.
      rewrite inject_inside_plain by assumption.
      rewrite inject_inside_close, IH.
      simpl attr. now rewrite append_assoc.
    + rewrite !inject_inside_other by assumption. now rewrite IH.
  - rewrite (inject_outside p c r).
    set (b := prefix (opening p) (String c r)).
    rewrite inject_outside.
    replace (prefix (opening p) (String c (inject_from p b r))) with b.
    2:{ change (String c (inject_from p b r))
          with (inject_from p false (String c r)).
        now rewrite prefix_inject. }
    rewrite IH. reflexivity.
Qed.

Section TwoInjections.

Variables p q : injection.
Hypothesis Hp : wf p = true.
Hypothesis Hq : wf q = true.
Hypothesis Hpq : apart p q = true.

Lemma never_both (s : string) :
  prefix (opening p) s && prefix (opening q) s = false.
Proof.
  destruct (prefix (opening p) s) eqn:E1, (prefix (opening q) s) eqn:E2;
    try reflexivity.
  unfold apart in Hpq. apply andb_true_iff in Hpq as [H1 H2].
  apply negb_true_iff in H1, H2.
  destruct (prefix_comparable _ _ _ E1 E2); congruence.
Qed.

(** One scanner inside a match, the other idle, on text that lies inside
    a tag. *)
Lemma commute_one_inside (a b : injection) (c : ascii) (r : string) :
  wf a = true -> wf b = true ->
  flat_from true (String c r) = true ->
  (flat_from false r = true ->
   inject_from a false (inject_from b false r)
   = inject_from b false (inject_from a false r)) ->
  (flat_from true r = true ->
   inject_from a true (inject_from b false r)
   = inject_from b false (inject_from a true r)) ->
  inject_from a true (inject_from b false (String c r))
  = inject_from b false (inject_from a true (String c r)).
Proof.
  intros Ha Hb Hflat IHff IHtf.
  destruct (wf_parts a Ha) as (_ & _ & _ & _ & Hl & _).
  simpl in Hflat.
  destruct (Ascii.eqb c "<") eqn:Elt; [discriminate|].
  rewrite (inject_outside_other b Hb) by assumption.
  destruct (Ascii.eqb c ">") eqn:Egt.
  - apply Ascii.eqb_eq in Egt as ->.
    rewrite !inject_inside_close.
    rewrite (inject_outside_plain b Hb) by assumption.
    rewrite (inject_outside_other b Hb) by reflexivity.
    now rewrite IHff.
  - rewrite !inject_inside_other by assumption.
    rewrite (inject_outside_other b Hb) by assumption.
    now rewrite IHtf.
Qed.

(** Both scanners idle. *)
Lemma commute_both_idle (c : ascii) (r : string) (tag : bool) :
  flat_from tag (String c r) = true ->
  (forall t, flat_from t r = true ->
   inject_from p false (inject_from q false r)
   = inject_from q false (inject_from p false r)) ->
  (flat_from true r = true ->
   inject_from p true (inject_from q false r)
   = inject_from q false (inject_from p true r)) ->
  (flat_from true r = true ->
   inject_from p false (inject_from q true r)
   = inject_from q true (inject_from p false r)) ->
  inject_from p false (inject_from q false (String c r))
  = inject_from q false (inject_from p false (String c r)).
Proof.
  intros Hflat IHff IHtf IHft.
  destruct (wf_parts p Hp) as (Hop & Hgp & Hbp & _).
  destruct (wf_parts q Hq) as (Hoq & Hgq & Hbq & _).
  rewrite (inject_outside q c r).
  set (bq := prefix (opening q) (String c r)).
  rewrite (inject_outside p c (inject_from q bq r)).
  replace (prefix (opening p) (String c (inject_from q bq r)))
    with (prefix (opening p) (String c r)).
  2:{ change (String c (inject_from q bq r))
        with (inject_from q false (String c r)).
      now rewrite (prefix_inject q Hq). }
  rewrite (inject_outside p c r).
  set (bp := prefix (opening p) (String c r)).
  rewrite (inject_outside q c (inject_from p bp r)).
  replace (prefix (opening q) (String c (inject_from p bp r))) with bq.
  2:{ change (String c (inject_from p bp r))
        with (inject_from p false (String c r)).
      now rewrite (prefix_inject p Hp). }
  f_equal.
  pose proof (never_both (String c r)) as Hnb. fold bp bq in Hnb.
  assert (Hin : bp || bq = true -> flat_from true r = true).
  { intros Hb.
    assert (Hc : c = "<"%char).
    { apply orb_true_iff in Hb as [Hb|Hb].
      - destruct (prefix_head _ _ _ Hop Hb) as [x Hx]. now injection Hx.
      - destruct (prefix_head _ _ _ Hoq Hb) as [x Hx]. now injection Hx. }
    subst c. simpl in Hflat. now apply andb_true_iff in Hflat. }
  destruct bp, bq; try discriminate.
  - now apply IHtf, Hin.
  - now apply IHft, Hin.
  - simpl in Hflat.
    destruct (Ascii.eqb c "<").
    + apply andb_true_iff in Hflat as [_ Hflat]. now apply (IHff true).
    + destruct (Ascii.eqb c ">"); eapply IHff; eassumption.
Qed.

(** The two scanners commute from every pair of states that a flat text
    can put them in. *)
Lemma commute_from (s : string) :
  (forall t, flat_from t s = true ->
     inject_from p false (inject_from q false s)
     = inject_from q false (inject_from p false s))
  /\ (flat_from true s = true ->
     inject_from p true (inject_from q false s)
     = inject_from q false (inject_from p true s))
  /\ (flat_from true s = true ->
     inject_from p false (inject_from q true s)
     = inject_from q true (inject_from p false s)).
Proof.
  induction s as [|c r (IHff & IHtf & IHft)]; [now repeat split|].
  repeat split.
  - intros t Hflat. now apply (commute_both_idle c r t).
  - intros Hflat. apply commute_one_inside; auto.
    intros H. now apply (IHff false).
  - intros Hflat. symmetry. apply commute_one_inside; auto.
    + intros H. symmetry. now apply (IHff false).
    + intros H. symmetry. now apply IHft.
Qed.

Lemma inject_commute (s : string) :
  flat s = true ->
  inject p (inject q s) = inject q (inject p s).
Proof. intros H. exact (proj1 (commute_from s) false H). Qed.

End TwoInjections.

(** An injection writes no [<] and no [>]: flat text stays flat. *)
Lemma flat_from_plain (u t : string) (tag : bool) :
  lacks "<" u = true -> lacks ">" u = true ->
  flat_from tag (u ++ t) = flat_from tag t.
Proof.
  induction u as [|c u IH]; intros Hl Hg; [reflexivity|].
  simpl in Hl, Hg.
  apply andb_true_iff in Hl as [Hl Hl'], Hg as [Hg Hg'].
  apply negb_true_iff in Hl, Hg.
  simpl. rewrite Hl, Hg. now apply IH.
Qed.

Lemma flat_from_inject (p : injection) :
  wf p = true ->
  forall s st tag, flat_from tag (inject_from p st s) = flat_from tag s.
Proof.
  intros Hwf. destruct (wf_parts p Hwf) as (_ & _ & _ & _ & Hl & Hg).
  induction s as [|c r IH]; intros st tag; [reflexivity|].
  destruct st.
  - destruct (Ascii.eqb c ">") eqn:Ec.
    + apply Ascii.eqb_eq in Ec as ->. rewrite inject_inside_close.
      rewrite flat_from_plain by assumption. simpl. apply IH.
    + rewrite inject_inside_other by assumption.
      simpl. rewrite Ec, !IH. reflexivity.
  - rewrite inject_outside. simpl. now rewrite !IH.
Qed.

Lemma apply_all_cons (p : injection) (ps : list injection) (s : string) :
  apply_all (p :: ps) s = apply_all ps (inject p s).
Proof. reflexivity. Qed.

(** Pairwise commuting injections may be applied in any order. *)
Lemma apply_all_permutation (l l' : list injection) :
  Permutation l l' ->
  (forall p, In p l -> wf p = true) ->
  (forall p q, In p l -> In q l -> p = q \/ apart p q = true) ->
  forall s, flat s = true -> apply_all l s = apply_all l' s.
Proof.
  induction 1 as [|x l l' HP IH|x y l|l l' l'' HP1 IH1 HP2 IH2];
    intros Hwf Hap s Hs.
  - reflexivity.
  - rewrite !apply_all_cons. apply IH.
    + intros p Hp. apply Hwf. now right.
    + intros p q Hp Hq. apply Hap; now right.
    + unfold flat, inject. rewrite flat_from_inject; [exact Hs|].
      apply Hwf. now left.
  - rewrite !apply_all_cons. f_equal.
    destruct (Hap x y) as [->|Hxy]; [right; now left|now left|reflexivity|].
    apply inject_commute; try assumption; apply Hwf; [right; now left|now left].
  - rewrite IH1 by assumption. apply IH2; [| |assumption].
    + intros p Hp. apply Hwf. eapply Permutation_in; [symmetry|]; eassumption.
    + intros p q Hp Hq.
      apply Hap; (eapply Permutation_in; [symmetry|]; eassumption).
Qed.

Lemma length_append (a b : string) :
  String.length (a ++ b) = (String.length a + String.length b)%nat.
Proof. induction a as [|c a IH]; simpl; [reflexivity|now rewrite IH]. Qed.

(** The doubled attribute lengthens the text twice as much. *)
Lemma length_inject_twice (p : injection) (s : string) (st : bool) :
  (String.length (inject_from (twice p) st s) + String.length s
   = 2 * String.length (inject_from p st s))%nat.
Proof.
  revert st. induction s as [|c r IH]; intros st; [reflexivity|].
  destruct st; simpl.
  - destruct (Ascii.eqb c ">").
    + rewrite !length_append. simpl. specialize (IH false). lia.
    + simpl. specialize (IH true). lia.
  - specialize (IH (prefix (opening p) (String c r))).
    simpl in IH. lia.
Qed.

Lemma length_inject_ge (p : injection) (s : string) (st : bool) :
  (String.length s <= String.length (inject_from p st s))%nat.
Proof.
  revert st. induction s as [|c r IH]; intros st; [reflexivity|].
  destruct st; simpl.
  - destruct (Ascii.eqb c ">").
    + rewrite length_append. simpl. specialize (IH false). lia.
    + simpl. specialize (IH true). lia.
  - apply le_n_S, IH.
Qed.

(** An injection that does not lengthen the text leaves it as it is. *)
Lemma inject_same_length (p : injection) :
  wf p = true ->
  forall s st,
    String.length (inject_from p st s) = String.length s ->
    inject_from p st s = s.
Proof.
  intros Hwf. destruct (wf_parts p Hwf) as (_ & _ & _ & Ha & _).
  induction s as [|c r IH]; intros st; [reflexivity|].
  destruct st; simpl.
  - destruct (Ascii.eqb c ">").
    + rewrite length_append. simpl.
      destruct (attr p) as [|b t]; [discriminate|]. simpl.
      pose proof (length_inject_ge p r false). lia.
    + simpl. intros H. f_equal. apply IH. lia.
  - intros H. f_equal. apply IH. lia.
Qed.

Lemma inject_idempotent_iff (p : injection) (s : string) :
  wf p = true ->
  inject p (inject p s) = inject p s <-> inject p s = s.
Proof.
  intros Hwf. split; [|intros H; now rewrite !H].
  unfold inject. rewrite inject_from_twice by assumption. intros H.
  apply inject_same_length; [assumption|].
  pose proof (length_inject_twice p s false) as L. rewrite H in L. lia.
Qed.

Lemma prefix_upto_close (o : string) :
  lacks ">" o = true ->
  forall x t, prefix o (x ++ String ">" t) = prefix o (x ++ ">").
Proof.
  induction o as [|a o IH]; intros Hg x t.
  - now rewrite !prefix_nil.
  - simpl in Hg. apply andb_true_iff in Hg as [Hg Hg'].
    apply negb_true_iff in Hg.
    destruct x as [|c x].
    + change ("" ++ ?y) with y. now rewrite !prefix_cons, Hg.
    + change (String c x ++ ?y) with (String c (x ++ y)).
      rewrite !prefix_cons. f_equal. now apply IH.
Qed.

(** A [>] ends whatever match is under way: the text behind it is
    scanned from the idle state. *)
Lemma inject_split_at_close (p : injection) :
  wf p = true ->
  forall v st t,
    inject_from p st (v ++ String ">" t)
    = inject_from p st (v ++ ">") ++ inject_from p false t.
Proof.
  intros Hwf. destruct (wf_parts p Hwf) as (Ho & Hg & _).
  induction v as [|c v IH]; intros st t.
  - change ("" ++ ?y) with y. destruct st.
    + rewrite !inject_inside_close. simpl inject_from.
      now rewrite append_assoc.
    + rewrite !(inject_outside_other p Hwf) by reflexivity. reflexivity.
  - change (String c v ++ ?y) with (String c (v ++ y)). destruct st.
    + destruct (Ascii.eqb c ">") eqn:Ec.
      * apply Ascii.eqb_eq in Ec as ->. rewrite !inject_inside_close.
        rewrite IH, append_assoc. reflexivity.
      * rewrite !inject_inside_other by assumption. now rewrite IH.
    + rewrite !inject_outside.
      change (String c (v ++ String ">" t))
        with (String c v ++ String ">" t).
      change (String c (v ++ ">")) with (String c v ++ ">").
      rewrite (prefix_upto_close _ Hg). now rewrite IH.
Qed.


Lemma same_eq (p q : injection) : same p q = true -> p = q.
Proof.
  destruct p, q. unfold same. simpl.
  rewrite andb_true_iff, !String.eqb_eq. now intros [-> ->].
Qed.

Lemma injections_wf (p : injection) : In p injections -> wf p = true.
Proof.
  revert p. apply forallb_forall. vm_compute. reflexivity.
Qed.

Lemma injections_apart (p q : injection) :
  In p injections -> In q injections -> p = q \/ apart p q = true.
Proof.
  intros Hp Hq.
  assert (H : forallb (fun a => forallb (fun b => same a b || apart a b)
                                        injections) injections = true)
    by (vm_compute; reflexivity).
  rewrite forallb_forall in H. specialize (H p Hp).
  rewrite forallb_forall in H. specialize (H q Hq).
  apply orb_true_iff in H as [H|H]; [left; now apply same_eq|now right].
Qed.

Example code_twice :
  inject inj_code (inject inj_code "<code>")
  = "<code" ++ attr inj_code ++ attr inj_code ++ ">".
Proof. vm_compute. reflexivity. Qed.

(** C8, as the specification states it, fails: the inline-code injection
    applied twice to [<code>] does not give what one application gives. *)
Lemma injection_not_idempotent :
  inject inj_code (inject inj_code "<code>") <> inject inj_code "<code>".
Proof. vm_compute. discriminate. Qed.

(** Inside a tag that holds a [<] two injections can meet at the same
    [>], and then the order of the two attributes tells which was applied
    first. *)
Example injections_meet_inside_a_tag :
  let s := "<code title=" ++ dquote ++ "<th" ++ dquote ++ ">" in
  flat s = false
  /\ inject inj_th (inject inj_code s)
     = "<code title=" ++ dquote ++ "<th" ++ dquote
       ++ attr inj_code ++ attr inj_th ++ ">"
  /\ inject inj_code (inject inj_th s)
     = "<code title=" ++ dquote ++ "<th" ++ dquote
       ++ attr inj_th ++ attr inj_code ++ ">".
Proof. repeat split. Qed.

(** C8 (amended).  For the injections of [handleCopy] and every serialized
    fragment: a second application of an injection writes its style
    attribute a second time, so that it is idempotent on a fragment exactly
    when the fragment has no tag it matches; on a fragment without [<]
    inside a tag, injections of distinct element types commute and the
    whole sequence of injections gives the same fragment in every order. *)
Theorem injections_repeat_and_commute (p q : injection) (s : string) :
  In p injections -> In q injections -> p <> q ->
  inject p (inject p s) = inject (twice p) s
  /\ (inject p (inject p s) = inject p s <-> inject p s = s)
  /\ (flat s = true ->
      inject p (inject q s) = inject q (inject p s)
      /\ forall order, Permutation injections order ->
                       apply_all order s = apply_all injections s).
Proof.
  intros Hp Hq Hne.
  pose proof (injections_wf p Hp) as Wp.
  pose proof (injections_wf q Hq) as Wq.
  split; [now apply inject_from_twice|].
  split; [now apply inject_idempotent_iff|].
  intros Hs. split.
  - destruct (injections_apart p q Hp Hq) as [E|A]; [contradiction|].
    now apply inject_commute.
  - intros order HP. symmetry.
    apply apply_all_permutation; auto using injections_wf, injections_apart.
Qed.

Lemma injections_repeat_and_commute_witness :
  let s := "<h1>T</h1><p><code>x</code></p><table><tr><th>a</th></tr></table>" in
  inject inj_code (inject inj_code s) = inject (twice inj_code) s
  /\ (inject inj_code (inject inj_code s) = inject inj_code s
      <-> inject inj_code s = s)
  /\ (flat s = true ->
      inject inj_code (inject inj_th s) = inject inj_th (inject inj_code s)
      /\ forall order, Permutation injections order ->
                       apply_all order s = apply_all injections s).
Proof.
  intros s.
  apply (injections_repeat_and_commute inj_code inj_th s).
  - simpl. tauto.
  - simpl. tauto.
  - discriminate.
Defined.

End MarkupFacts.

(** ** The arithmetic of binary64 *)

Module DoubleFacts.
Import JS.
Local Open Scope Q_scope.

(** *** Powers of two *)

Lemma two_neq_0 : ~ 2 == 0.
Proof. discriminate. Qed.

Lemma pow2_pos (k : Z) : 0 < 2 ^ k.
Proof. apply Qpower_0_lt. reflexivity. Qed.

Lemma pow2_add (a b : Z) : 2 ^ (a + b) == 2 ^ a * 2 ^ b.
Proof. apply Qpower_plus, two_neq_0. Qed.

Lemma pow2_succ (a : Z) : 2 ^ (a + 1) == 2 * 2 ^ a.
Proof. rewrite pow2_add. change (2 ^ 1) with 2. ring. Qed.

Lemma pow2_le (a b : Z) : (a <= b)%Z -> 2 ^ a <= 2 ^ b.
Proof. intros H. apply Qpower_le_compat_l; [exact H|discriminate]. Qed.

Lemma pow2_lt (a b : Z) : (a < b)%Z -> 2 ^ a < 2 ^ b.
Proof. intros H. apply Qpower_lt_compat_l; [exact H|reflexivity]. Qed.

Lemma pow2_Z (k : Z) : (0 <= k)%Z -> inject_Z (2 ^ k) == 2 ^ k.
Proof. intros H. now rewrite Zpower_Qpower. Qed.

Lemma pow2_sub (a b : Z) : 2 ^ a / 2 ^ b == 2 ^ (a - b).
Proof.
  unfold Z.sub. rewrite pow2_add, Qpower_opp. reflexivity.
Qed.

(** *** The exponent of a positive number *)

Lemma ilog2_spec (x : Q) :
  0 < x -> 2 ^ ilog2 x <= x /\ x < 2 ^ (ilog2 x + 1).
Proof.
  intros Hx. destruct x as [n d].
  assert (Hn : (0 < n)%Z).
  { unfold Qlt in Hx. simpl in Hx. lia. }
  unfold ilog2.
  replace (Qabs (n # d)) with (n # d)
    by (unfold Qabs; now rewrite Z.abs_eq by lia).
  cbn [Qnum Qden].
  set (ln := Z.log2 n). set (ld := Z.log2 (Zpos d)).
  pose proof (Z.log2_spec n Hn) as [Ln Un]. fold ln in Ln, Un.
  pose proof (Z.log2_spec (Zpos d) eq_refl) as [Ld Ud]. fold ld in Ld, Ud.
  pose proof (Z.log2_nonneg n) as Nn. fold ln in Nn.
  pose proof (Z.log2_nonneg (Zpos d)) as Nd. fold ld in Nd.
  assert (Qn1 : 2 ^ ln <= inject_Z n).
  { rewrite <- pow2_Z by assumption. now rewrite <- Zle_Qle. }
  assert (Qn2 : inject_Z n < 2 ^ (ln + 1)).
  { rewrite <- pow2_Z by lia. rewrite <- Zlt_Qlt. exact Un. }
  assert (Qd1 : 2 ^ ld <= inject_Z (Zpos d)).
  { rewrite <- pow2_Z by assumption. now rewrite <- Zle_Qle. }
  assert (Qd2 : inject_Z (Zpos d) < 2 ^ (ld + 1)).
  { rewrite <- pow2_Z by lia. rewrite <- Zlt_Qlt. exact Ud. }
  assert (Dpos : 0 < inject_Z (Zpos d)) by reflexivity.
  assert (E : (n # d) == inject_Z n / inject_Z (Zpos d))
    by apply Qmake_Qdiv.
  assert (Upper : (n # d) < 2 ^ (ln - ld + 1)).
  { rewrite E. apply Qlt_shift_div_r; [exact Dpos|].
    apply Qlt_le_trans with (2 ^ (ln + 1)); [exact Qn2|].
    replace (ln + 1)%Z with ((ln - ld + 1) + ld)%Z by lia.
    rewrite pow2_add.
    apply Qmult_le_l; [apply pow2_pos|exact Qd1]. }
  assert (Lower : 2 ^ (ln - ld - 1) <= (n # d)).
  { rewrite E. apply Qle_shift_div_l; [exact Dpos|].
    apply Qle_trans with (2 ^ ln); [|exact Qn1].
    replace ln with ((ln - ld - 1) + (ld + 1))%Z at 2 by lia.
    rewrite pow2_add.
    apply Qmult_le_l; [apply pow2_pos|]. now apply Qlt_le_weak. }
  destruct (Qle_bool (2 ^ (ln - ld)) (n # d)) eqn:B.
  - apply Qle_bool_iff in B. split; assumption.
  - split; [exact Lower|].
    replace (ln - ld - 1 + 1)%Z with (ln - ld)%Z by lia.
    apply Qnot_le_lt. intros L. apply Qle_bool_iff in L. congruence.
Qed.

Lemma ilog2_unique (x : Q) (k : Z) :
  2 ^ k <= x -> x < 2 ^ (k + 1) -> ilog2 x = k.
Proof.
  intros L U.
  assert (Hx : 0 < x) by (pose proof (pow2_pos k); lra).
  destruct (ilog2_spec x Hx) as [L' U'].
  destruct (Z.lt_trichotomy (ilog2 x) k) as [H|[H|H]]; [|exact H|].
  - pose proof (pow2_le (ilog2 x + 1) k ltac:(lia)). lra.
  - pose proof (pow2_le (k + 1) (ilog2 x) ltac:(lia)). lra.
Qed.

Lemma ilog2_comp (x y : Q) : 0 < x -> x == y -> ilog2 x = ilog2 y.
Proof.
  intros Hx E. destruct (ilog2_spec x Hx) as [L U].
  symmetry. apply ilog2_unique; lra.
Qed.

Lemma ilog2_ge (x : Q) (k : Z) : 2 ^ k <= x -> (k <= ilog2 x)%Z.
Proof.
  intros L.
  assert (Hx : 0 < x) by (pose proof (pow2_pos k); lra).
  destruct (ilog2_spec x Hx) as [_ U].
  destruct (Z.le_gt_cases k (ilog2 x)) as [H|H]; [exact H|].
  pose proof (pow2_le (ilog2 x + 1) k ltac:(lia)). lra.
Qed.

Lemma ilog2_mono (x y : Q) : 0 < x -> x <= y -> (ilog2 x <= ilog2 y)%Z.
Proof.
  intros Hx L. destruct (ilog2_spec x Hx) as [Lx _].
  apply ilog2_ge. lra.
Qed.

Lemma ilog2_twice (x : Q) : 0 < x -> ilog2 (2 * x) = (ilog2 x + 1)%Z.
Proof.
  intros Hx. destruct (ilog2_spec x Hx) as [L U].
  apply ilog2_unique.
  - rewrite pow2_succ. lra.
  - rewrite pow2_succ. lra.
Qed.

Lemma quantum_mono (x y : Q) : 0 < x -> x <= y -> (quantum x <= quantum y)%Z.
Proof.
  intros Hx L. pose proof (ilog2_mono x y Hx L). unfold quantum. lia.
Qed.

(** *** The nearest integer *)

Lemma half_even_cases (x : Q) :
  let f := Qfloor x in
  let r := x - inject_Z f in
  0 <= r /\ r < 1
  /\ ((r < 1 # 2 /\ half_even x = f)
      \/ (1 # 2 < r /\ half_even x = (f + 1)%Z)
      \/ (r == 1 # 2 /\ Z.even f = true /\ half_even x = f)
      \/ (r == 1 # 2 /\ Z.even f = false /\ half_even x = (f + 1)%Z)).
Proof.
  intros f r.
  pose proof (Qfloor_le x) as L. pose proof (Qlt_floor x) as U.
  fold f in L, U. rewrite inject_Z_plus in U.
  change (inject_Z 1) with 1 in U.
  split; [unfold r; lra|]. split; [unfold r; lra|].
  unfold half_even. fold f. fold r.
  destruct (Qcompare r (1 # 2)) eqn:C.
  - apply Qeq_alt in C. destruct (Z.even f) eqn:Ev.
    + right; right; left. auto.
    + right; right; right. auto.
  - apply Qlt_alt in C. left. auto.
  - apply Qgt_alt in C. right; left. auto.
Qed.

Lemma half_even_near (x : Q) :
  x - (1 # 2) <= inject_Z (half_even x)
  /\ inject_Z (half_even x) <= x + (1 # 2).
Proof.
  destruct (half_even_cases x) as (R0 & R1 & [[C ->]|[[C ->]|[(C & _ & ->)|(C & _ & ->)]]]);
    rewrite ?inject_Z_plus; change (inject_Z 1) with 1; lra.
Qed.

Lemma half_even_mono (x y : Q) : x <= y -> (half_even x <= half_even y)%Z.
Proof.
  intros L.
  pose proof (Qfloor_resp_le x y L) as F.
  destruct (half_even_cases x) as (Rx0 & Rx1 & Cx).
  destruct (half_even_cases y) as (Ry0 & Ry1 & Cy).
  destruct (Z.eq_dec (Qfloor x) (Qfloor y)) as [E|N].
  - rewrite <- E in *.
    destruct Cx as [[Cx ->]|[[Cx ->]|[(Cx & Ex & ->)|(Cx & Ex & ->)]]];
      destruct Cy as [[Cy ->]|[[Cy ->]|[(Cy & Ey & ->)|(Cy & Ey & ->)]]];
      try lia; try lra; congruence.
  - assert (Hx : (half_even x <= Qfloor x + 1)%Z)
      by (destruct Cx as [[_ ->]|[[_ ->]|[(_ & _ & ->)|(_ & _ & ->)]]]; lia).
    assert (Hy : (Qfloor y <= half_even y)%Z)
      by (destruct Cy as [[_ ->]|[[_ ->]|[(_ & _ & ->)|(_ & _ & ->)]]]; lia).
    lia.
Qed.

Lemma half_even_comp (x y : Q) : x == y -> half_even x = half_even y.
Proof.
  intros E. apply Z.le_antisymm; apply half_even_mono; lra.
Qed.

Lemma half_even_Z (n : Z) : half_even (inject_Z n) = n.
Proof.
  destruct (half_even_cases (inject_Z n)) as (_ & _ & C).
  rewrite Qfloor_Z in C.
  destruct C as [[_ ->]|[[C _]|[(C & _)|(C & _)]]]; try reflexivity; lra.
Qed.

(** *** Rounding to binary64 *)

Lemma double_zero (x : Q) : x == 0 -> double x == 0.
Proof.
  intros E. unfold double.
  assert (H : x / 2 ^ quantum x == inject_Z 0).
  { generalize (2 ^ quantum x). intros c. rewrite E. reflexivity. }
  rewrite (half_even_comp _ _ H), half_even_Z. reflexivity.
Qed.

Lemma double_nonneg (x : Q) : 0 <= x -> 0 <= double x.
Proof.
  intros Hx. unfold double.
  pose proof (pow2_pos (quantum x)) as P.
  apply Qmult_le_0_compat; [|lra].
  change 0 with (inject_Z 0). rewrite <- Zle_Qle.
  rewrite <- (half_even_Z 0). apply half_even_mono.
  change (inject_Z 0) with 0.
  apply Qle_shift_div_l; [exact P|lra].
Qed.

Lemma double_comp (x y : Q) : 0 < x -> x == y -> double x == double y.
Proof.
  intros Hx E. unfold double, quantum.
  rewrite <- (ilog2_comp x y Hx E).
  set (e := Z.max (ilog2 x - 52) (-1074)).
  assert (H : x / 2 ^ e == y / 2 ^ e) by (now rewrite E).
  now rewrite (half_even_comp _ _ H).
Qed.

Lemma double_comp_nonneg (x y : Q) :
  0 <= x -> x == y -> double x == double y.
Proof.
  intros Hx E. destruct (Qlt_le_dec 0 x) as [P|N].
  - now apply double_comp.
  - rewrite (double_zero x), (double_zero y); [reflexivity|lra|lra].
Qed.

(** The scaled significand of a positive number lies below [2 ^ 53], and
    at or above [2 ^ 52] when the number is normal. *)
Lemma significand_upper (x : Q) :
  0 < x -> x / 2 ^ quantum x < 2 ^ 53.
Proof.
  intros Hx. destruct (ilog2_spec x Hx) as [_ U].
  apply Qlt_shift_div_r; [apply pow2_pos|].
  rewrite <- pow2_add.
  apply Qlt_le_trans with (2 ^ (ilog2 x + 1)); [exact U|].
  apply pow2_le. unfold quantum. lia.
Qed.

Lemma significand_lower (x : Q) :
  0 < x -> (-1074 <= ilog2 x - 52)%Z -> 2 ^ 52 <= x / 2 ^ quantum x.
Proof.
  intros Hx Hn. destruct (ilog2_spec x Hx) as [L _].
  apply Qle_shift_div_l; [apply pow2_pos|].
  rewrite <- pow2_add.
  apply Qle_trans with (2 ^ ilog2 x); [|exact L].
  apply pow2_le. unfold quantum. lia.
Qed.

Lemma half_even_le_pow2 (y : Q) (k : Z) :
  (0 <= k)%Z -> y <= 2 ^ k -> inject_Z (half_even y) <= 2 ^ k.
Proof.
  intros Hk L. rewrite <- pow2_Z by assumption. rewrite <- Zle_Qle.
  rewrite <- (half_even_Z (2 ^ k)). apply half_even_mono.
  now rewrite pow2_Z.
Qed.

Lemma half_even_ge_pow2 (y : Q) (k : Z) :
  (0 <= k)%Z -> 2 ^ k <= y -> 2 ^ k <= inject_Z (half_even y).
Proof.
  intros Hk L. rewrite <- pow2_Z by assumption. rewrite <- Zle_Qle.
  rewrite <- (half_even_Z (2 ^ k)) at 1. apply half_even_mono.
  now rewrite pow2_Z.
Qed.

(** What rounding gives is a binary64 number. *)
Lemma double_is_double (x : Q) : 0 <= x -> is_double (double x).
Proof.
  intros Hx. exists (half_even (x / 2 ^ quantum x)), (quantum x).
  pose proof (pow2_pos (quantum x)) as P.
  split; [|split; [unfold quantum; lia|reflexivity]].
  assert (N : (0 <= half_even (x / 2 ^ quantum x))%Z).
  { rewrite <- (half_even_Z 0) at 1. apply half_even_mono.
    change (inject_Z 0) with 0. apply Qle_shift_div_l; [exact P|lra]. }
  rewrite Z.abs_eq by exact N.
  destruct (Qlt_le_dec 0 x) as [Pos|Neg].
  - pose proof (significand_upper x Pos) as S.
    pose proof (half_even_le_pow2 _ 53 ltac:(lia) (Qlt_le_weak _ _ S)) as M.
    rewrite <- (pow2_Z 53) in M by lia. now rewrite <- Zle_Qle in M.
  - assert (E : x / 2 ^ quantum x == inject_Z 0).
    { generalize (2 ^ quantum x). intros c.
      assert (Z : x == 0) by lra. rewrite Z. reflexivity. }
    rewrite (half_even_comp _ _ E), half_even_Z. lia.
Qed.

(** Rounding keeps the order. *)
Lemma double_mono_pos (x y : Q) : 0 < x -> x <= y -> double x <= double y.
Proof.
  intros Hx L.
  assert (Hy : 0 < y) by lra.
  pose proof (quantum_mono x y Hx L) as Q.
  unfold double.
  set (ex := quantum x) in *. set (ey := quantum y) in *.
  pose proof (pow2_pos ex) as Px. pose proof (pow2_pos ey) as Py.
  destruct (Z.eq_dec ex ey) as [E|N].
  - rewrite <- E. apply Qmult_le_compat_r; [|lra].
    rewrite <- Zle_Qle. apply half_even_mono.
    apply Qmult_le_compat_r; [exact L|].
    apply Qlt_le_weak, Qinv_lt_0_compat, Px.
  - assert (Lt : (ex + 1 <= ey)%Z) by lia.
    assert (Ny : (-1074 <= ilog2 y - 52)%Z).
    { unfold ey, ex, quantum in *. lia. }
    pose proof (significand_upper x Hx) as Sx. fold ex in Sx.
    pose proof (significand_lower y Hy Ny) as Sy. fold ey in Sy.
    pose proof (half_even_le_pow2 _ 53 ltac:(lia) (Qlt_le_weak _ _ Sx)) as Mx.
    pose proof (half_even_ge_pow2 _ 52 ltac:(lia) Sy) as My.
    apply Qle_trans with (2 ^ 53 * 2 ^ ex).
    + apply Qmult_le_compat_r; [exact Mx|lra].
    + apply Qle_trans with (2 ^ 52 * 2 ^ ey).
      * rewrite <- !pow2_add. apply pow2_le. lia.
      * apply Qmult_le_compat_r; [exact My|lra].
Qed.

Lemma double_mono (x y : Q) : 0 <= x -> x <= y -> double x <= double y.
Proof.
  intros Hx L. destruct (Qlt_le_dec 0 x) as [P|N].
  - now apply double_mono_pos.
  - rewrite (double_zero x) by lra. apply double_nonneg. lra.
Qed.

(** The powers of two from [2 ^ -1074] on are binary64 numbers. *)
Lemma double_pow2 (k : Z) : (-1074 <= k)%Z -> double (2 ^ k) == 2 ^ k.
Proof.
  intros Hk. unfold double, quantum.
  rewrite (ilog2_unique (2 ^ k) k); [|lra|apply pow2_lt; lia].
  set (e := Z.max (k - 52) (-1074)).
  assert (He : (0 <= k - e)%Z) by (unfold e; lia).
  assert (H : 2 ^ k / 2 ^ e == inject_Z (2 ^ (k - e))).
  { rewrite pow2_sub. now rewrite pow2_Z. }
  rewrite (half_even_comp _ _ H), half_even_Z, pow2_Z by assumption.
  rewrite <- pow2_add. now replace (k - e + e)%Z with k by lia.
Qed.

Lemma double_ge_pow2 (x : Q) (k : Z) :
  (-1074 <= k)%Z -> 2 ^ k <= x -> 2 ^ k <= double x.
Proof.
  intros Hk L. rewrite <- (double_pow2 k Hk).
  apply double_mono; [|exact L]. apply Qlt_le_weak, pow2_pos.
Qed.

Lemma double_le_pow2 (x : Q) (k : Z) :
  (-1074 <= k)%Z -> 0 <= x -> x <= 2 ^ k -> double x <= 2 ^ k.
Proof.
  intros Hk Hx L. rewrite <- (double_pow2 k Hk).
  now apply double_mono.
Qed.

(** Doubling a normal number is exact. *)
Lemma double_twice (x : Q) :
  2 ^ (-1022) <= x -> double (2 * x) == 2 * double x.
Proof.
  intros L.
  assert (Hx : 0 < x) by (pose proof (pow2_pos (-1022)); lra).
  pose proof (ilog2_ge x (-1022) L) as G.
  unfold double, quantum. rewrite (ilog2_twice x Hx).
  replace (Z.max (ilog2 x + 1 - 52) (-1074)) with (ilog2 x - 52 + 1)%Z by lia.
  replace (Z.max (ilog2 x - 52) (-1074)) with (ilog2 x - 52)%Z by lia.
  set (e := (ilog2 x - 52)%Z).
  pose proof (pow2_pos e) as P.
  assert (H : 2 * x / 2 ^ (e + 1) == x / 2 ^ e).
  { rewrite pow2_succ. field. lra. }
  rewrite (half_even_comp _ _ H), pow2_succ. ring.
Qed.

(** A normal number is rounded by at most one part in [2 ^ 53]. *)
Lemma double_near (x : Q) :
  2 ^ (-1022) <= x ->
  x * (1 - 2 ^ (-53)) <= double x /\ double x <= x * (1 + 2 ^ (-53)).
Proof.
  intros L.
  assert (Hx : 0 < x) by (pose proof (pow2_pos (-1022)); lra).
  pose proof (ilog2_ge x (-1022) L) as G.
  destruct (ilog2_spec x Hx) as [Lx _].
  unfold double, quantum.
  replace (Z.max (ilog2 x - 52) (-1074)) with (ilog2 x - 52)%Z by lia.
  set (e := (ilog2 x - 52)%Z).
  pose proof (pow2_pos e) as P.
  destruct (half_even_near (x / 2 ^ e)) as [N1 N2].
  set (m := inject_Z (half_even (x / 2 ^ e))) in *.
  assert (X : x / 2 ^ e * 2 ^ e == x) by (field; lra).
  assert (B : 2 ^ e * (1 # 2) <= x * 2 ^ (-53)).
  { assert (E1 : 2 ^ e * (1 # 2) == 2 ^ ilog2 x * 2 ^ (-53)).
    { assert (E0 : 2 ^ (-52) * (1 # 2) == 2 ^ (-53)) by reflexivity.
      unfold e. unfold Z.sub. rewrite pow2_add.
      change (- (52))%Z with (-52)%Z. rewrite <- E0. ring. }
    rewrite E1. apply Qmult_le_compat_r; [exact Lx|].
    apply Qlt_le_weak, pow2_pos. }
  assert (M1 : (x / 2 ^ e - (1 # 2)) * 2 ^ e <= m * 2 ^ e)
    by (apply Qmult_le_compat_r; lra).
  assert (M2 : m * 2 ^ e <= (x / 2 ^ e + (1 # 2)) * 2 ^ e)
    by (apply Qmult_le_compat_r; lra).
  split.
  - apply Qle_trans with ((x / 2 ^ e - (1 # 2)) * 2 ^ e); [|exact M1].
    setoid_replace ((x / 2 ^ e - (1 # 2)) * 2 ^ e)
      with (x - 2 ^ e * (1 # 2)) by (field; lra).
    lra.
  - apply Qle_trans with ((x / 2 ^ e + (1 # 2)) * 2 ^ e); [exact M2|].
    setoid_replace ((x / 2 ^ e + (1 # 2)) * 2 ^ e)
      with (x + 2 ^ e * (1 # 2)) by (field; lra).
    lra.
Qed.

End DoubleFacts.

(** ** Numbers and sizes *)

Module NumberFacts.
Import JS.
Local Open Scope Q_scope.

Lemma Qltb_lt (x y : Q) : Qltb x y = true <-> x < y.
Proof.
  unfold Qltb. rewrite negb_true_iff. split.
  - intros H. apply Qnot_le_lt. intros L.
    apply Qle_bool_iff in L. congruence.
  - intros H. destruct (Qle_bool y x) eqn:E; [|reflexivity].
    apply Qle_bool_iff in E. lra.
Qed.

Lemma or_default_pos (d : Q) : 0 < d -> or_default (Some d) 1 = d.
Proof.
  intros H. unfold or_default.
  destruct (Qeq_bool d 0) eqn:E; [|reflexivity].
  apply Qeq_bool_eq in E. lra.
Qed.

Lemma or_default_falsy (x : number) :
  x = None \/ (exists v, x = Some v /\ v == 0) -> or_default x 1 = 1.
Proof.
  intros [->|(v & -> & Hv)]; [reflexivity|].
  unfold or_default. now rewrite (Qeq_eq_bool _ _ Hv).
Qed.

(** The ceiling of a doubled number is the doubled ceiling, or one less. *)
Lemma Qceiling_double (x : Q) :
  (2 * Qceiling x - 1 <= Qceiling (2 * x) <= 2 * Qceiling x)%Z.
Proof.
  pose proof (Qle_ceiling x) as U.
  pose proof (Qceiling_lt x) as L.
  pose proof (Qle_ceiling (2 * x)) as U2.
  split.
  - assert (H : inject_Z (2 * Qceiling x - 2) < inject_Z (Qceiling (2 * x))).
    { apply Qlt_le_trans with (2 * x); [|exact U2].
      replace (2 * Qceiling x - 2)%Z with (2 * (Qceiling x - 1))%Z by lia.
      rewrite inject_Z_mult. change (inject_Z 2) with 2. lra. }
    rewrite <- Zlt_Qlt in H. lia.
  - rewrite <- (Qceiling_Z (2 * Qceiling x)).
    apply Qceiling_resp_le. rewrite inject_Z_mult.
    change (inject_Z 2) with 2. lra.
Qed.
End NumberFacts.

Module RasterFacts.
Import JS MathToImage NumberFacts DoubleFacts.
Local Open Scope string_scope.
Local Open Scope Q_scope.

Section WithHost.

Variable h : Host.

(** C7.  With a non-empty [parentFontSize] whose numeric value is [v],
    the base font size is [max(1.1 v, 18)] pixels for a block formula
    and [max(1.0 v, 14)] pixels for an inline one; without a
    [parentFontSize] it is 20 pixels for a block formula and 16 pixels
    for an inline one. *)
Theorem baseFontSize_spec (p : Props) :
  (forall s v,
      parentFontSize p = Some s -> s <> "" -> parseFloat h s = Some v ->
      exists x,
        baseFontSize h p = Px (Some x)
        /\ x == (if displayMode p then Qmax (1.1 * v) 18
                 else Qmax (1.0 * v) 14))
  /\ (parentFontSize p = None ->
      baseFontSize h p = Px (Some (if displayMode p then 20 else 16))).
Proof.
  split.
  - intros s v Hs Hne Hv. unfold baseFontSize. rewrite Hs.
    destruct s as [|c s]; [congruence|]. rewrite Hv.
    destruct (displayMode p); simpl; eexists; (split; [reflexivity|]);
      apply Q.max_compat; [ring|reflexivity|ring|reflexivity].
  - intros Hs. unfold baseFontSize. rewrite Hs.
    now destruct (displayMode p).
Qed.

Lemma pixel_ratio_pos (m : Measure) :
  ratio_not_negative (devicePixelRatio m) -> 0 < pixel_ratio m.
Proof.
  unfold pixel_ratio, or_default, ratio_not_negative.
  destruct (devicePixelRatio m) as [d|]; [|intros _; lra].
  destruct (Qeq_bool d 0) eqn:E; [intros _; lra|].
  apply Qeq_bool_neq in E. intros H. lra.
Qed.

(** *** The scale and the size of the capture *)

Lemma one_ordinary : ordinary 1.
Proof. split; discriminate. Qed.

Lemma pixel_ratio_ordinary (m : Measure) :
  ratio_ordinary (devicePixelRatio m) -> ordinary (pixel_ratio m).
Proof.
  unfold pixel_ratio, or_default, ratio_ordinary.
  destruct (devicePixelRatio m) as [d|]; [|intros _; exact one_ordinary].
  destruct (Qeq_bool d 0) eqn:E; [intros _; exact one_ordinary|].
  apply Qeq_bool_neq in E. intros [H|H]; [contradiction|exact H].
Qed.

Lemma pow2_mul_ge (a b : Q) (i j : Z) :
  2 ^ i <= a -> 2 ^ j <= b -> 2 ^ (i + j) <= a * b.
Proof.
  intros Ha Hb. rewrite pow2_add.
  pose proof (pow2_pos i). pose proof (pow2_pos j).
  apply Qle_trans with (a * 2 ^ j).
  - apply Qmult_le_compat_r; lra.
  - apply Qmult_le_l; lra.
Qed.

Lemma pow2_mul_le (a b : Q) (i j : Z) :
  0 <= a -> a <= 2 ^ i -> b <= 2 ^ j -> a * b <= 2 ^ (i + j).
Proof.
  intros H0 Ha Hb. rewrite pow2_add.
  pose proof (pow2_pos i). pose proof (pow2_pos j).
  apply Qle_trans with (a * 2 ^ j).
  - rewrite (Qmult_comm a b), (Qmult_comm a (2 ^ j)).
    apply Qmult_le_compat_r; lra.
  - apply Qmult_le_compat_r; lra.
Qed.

Lemma pow2_div_ge (a b : Q) (i j : Z) :
  2 ^ i <= a -> 0 < b -> b <= 2 ^ j -> 2 ^ (i - j) <= a / b.
Proof.
  intros Ha H0 Hb. apply Qle_shift_div_l; [exact H0|].
  apply Qle_trans with (2 ^ i); [|exact Ha].
  replace i with (i - j + j)%Z at 2 by lia. rewrite pow2_add.
  apply Qmult_le_l; [apply pow2_pos|exact Hb].
Qed.

Lemma pow2_div_le (a b : Q) (i j : Z) :
  a <= 2 ^ i -> 2 ^ j <= b -> a / b <= 2 ^ (i - j).
Proof.
  intros Ha Hb. pose proof (pow2_pos j).
  apply Qle_shift_div_r; [lra|].
  apply Qle_trans with (2 ^ i); [exact Ha|].
  replace i with (i - j + j)%Z at 1 by lia. rewrite pow2_add.
  apply Qmult_le_l; [apply pow2_pos|exact Hb].
Qed.

(** The divisor [72 * d] as the program computes it. *)
Lemma divisor_bounds (d : Q) :
  ordinary d ->
  2 ^ (-250) <= 72 * d /\ 72 * d <= 2 ^ 263
  /\ 2 ^ (-250) <= fmul 72 d /\ fmul 72 d <= 2 ^ 263.
Proof.
  intros [L U].
  assert (A : 2 ^ (-250) <= 72 * d).
  { apply Qle_trans with (2 ^ 6 * d).
    - exact (pow2_mul_ge (2 ^ 6) d 6 (-256) (Qle_refl _) L).
    - apply Qmult_le_compat_r; [discriminate|].
      pose proof (pow2_pos (-256)). lra. }
  assert (B : 72 * d <= 2 ^ 263).
  { apply (pow2_mul_le 72 d 7 256); [discriminate|discriminate|exact U]. }
  split; [exact A|]. split; [exact B|]. unfold fmul. split.
  - apply double_ge_pow2; [lia|exact A].
  - apply double_le_pow2; [lia| |exact B].
    pose proof (pow2_pos (-250)). lra.
Qed.

(** The quotient [targetDPI / (72 * d)] before and after its rounding. *)
Lemma scale_bounds (p : Props) (m : Measure) :
  ordinary (targetDPI p) -> ratio_ordinary (devicePixelRatio m) ->
  let q := targetDPI p / fmul 72 (pixel_ratio m) in
  2 ^ (-519) <= q /\ q <= 2 ^ 506
  /\ 2 ^ (-519) <= scale p m /\ scale p m <= 2 ^ 506.
Proof.
  intros [Lt Ut] Hd q.
  destruct (divisor_bounds _ (pixel_ratio_ordinary m Hd))
    as (_ & _ & Lc & Uc).
  pose proof (pow2_pos (-250)) as P.
  assert (A : 2 ^ (-519) <= q).
  { assert (C0 : 0 < fmul 72 (pixel_ratio m)) by lra.
    exact (pow2_div_ge _ _ (-256) 263 Lt C0 Uc). }
  assert (B : q <= 2 ^ 506).
  { exact (pow2_div_le _ _ 256 (-250) Ut Lc). }
  split; [exact A|]. split; [exact B|].
  unfold scale, fdiv. fold q. split.
  - apply double_ge_pow2; [lia|exact A].
  - apply double_le_pow2; [lia| |exact B].
    pose proof (pow2_pos (-519)). lra.
Qed.

Lemma scale_pos (p : Props) (m : Measure) :
  ordinary (targetDPI p) -> ratio_ordinary (devicePixelRatio m) ->
  0 < scale p m.
Proof.
  intros Ht Hd. destruct (scale_bounds p m Ht Hd) as (_ & _ & L & _).
  pose proof (pow2_pos (-519)). lra.
Qed.

(** The scale differs from the exact quotient by at most one part in
    [2 ^ 51]. *)
Lemma scale_near (p : Props) (m : Measure) :
  ordinary (targetDPI p) -> ratio_ordinary (devicePixelRatio m) ->
  let exact := targetDPI p / (72 * pixel_ratio m) in
  exact * (1 - 2 ^ (-51)) <= scale p m
  /\ scale p m <= exact * (1 + 2 ^ (-51)).
Proof.
  intros Ht Hd exact.
  pose proof (pixel_ratio_ordinary m Hd) as Ho.
  destruct (divisor_bounds _ Ho) as (La & _ & Lc & _).
  destruct (scale_bounds p m Ht Hd) as (Lq & _ & _ & _).
  set (d := pixel_ratio m) in *.
  set (c := fmul 72 d) in *.
  set (q := targetDPI p / c) in *.
  pose proof (pow2_pos (-250)) as P1. pose proof (pow2_pos (-519)) as P2.
  pose proof (pow2_pos (-1022)) as P3.
  assert (N1 : 2 ^ (-1022) <= 72 * d).
  { apply Qle_trans with (2 ^ (-250)); [apply pow2_le; lia|exact La]. }
  assert (N2 : 2 ^ (-1022) <= q).
  { apply Qle_trans with (2 ^ (-519)); [apply pow2_le; lia|exact Lq]. }
  destruct (double_near (72 * d) N1) as [C1 C2]. fold (fmul 72 d) in C1, C2.
  fold c in C1, C2.
  destruct (double_near q N2) as [S1 S2].
  change (double q) with (scale p m) in S1, S2.
  set (s := scale p m) in *.
  set (u := 2 ^ (-53)) in *.
  assert (U4 : 2 ^ (-51) == 4 * u) by reflexivity.
  assert (U0 : 0 < u) by reflexivity.
  assert (U1 : u <= 1 # 2) by discriminate.
  rewrite U4.
  set (t := targetDPI p) in *.
  assert (Hd0 : 0 < 72 * d) by lra.
  assert (Hc0 : 0 < c) by lra.
  assert (Et : exact * (72 * d) == t) by (unfold exact; field; lra).
  assert (Eq : q * c == t) by (unfold q; field; lra).
  assert (Hq0 : 0 < q) by lra.
  assert (He0 : 0 < exact).
  { unfold exact. apply Qlt_shift_div_l; [exact Hd0|].
    destruct Ht as [Lt _]. fold t in Lt. pose proof (pow2_pos (-256)). lra. }
  (* q lies between exact / (1 + u) and exact / (1 - u) *)
  assert (Q1 : exact <= q * (1 + u)).
  { apply Qmult_le_r with (72 * d); [exact Hd0|]. rewrite Et, <- Eq.
    setoid_replace (q * (1 + u) * (72 * d)) with (q * (72 * d * (1 + u)))
      by ring.
    apply Qmult_le_l; [exact Hq0|exact C2]. }
  assert (Q2 : q * (1 - u) <= exact).
  { apply Qmult_le_r with (72 * d); [exact Hd0|]. rewrite Et, <- Eq.
    setoid_replace (q * (1 - u) * (72 * d)) with (q * (72 * d * (1 - u)))
      by ring.
    apply Qmult_le_l; [exact Hq0|exact C1]. }
  split.
  - (* exact (1 - 4u) <= q (1 + u) (1 - 4u) <= q (1 - u) <= s *)
    apply Qle_trans with (q * (1 - u)); [|exact S1].
    apply Qle_trans with (q * (1 + u) * (1 - 4 * u)).
    + apply Qmult_le_compat_r; [exact Q1|lra].
    + setoid_replace (q * (1 + u) * (1 - 4 * u))
        with (q * ((1 + u) * (1 - 4 * u))) by ring.
      apply Qmult_le_l; [exact Hq0|].
      assert (0 <= u * u) by (apply Qmult_le_0_compat; lra).
      setoid_replace ((1 + u) * (1 - 4 * u))
        with (1 - 3 * u - 4 * (u * u)) by ring.
      lra.
  - (* s <= q (1 + u), and q (1 - u) <= exact *)
    apply Qle_trans with (q * (1 + u)); [exact S2|].
    apply Qmult_le_r with (1 - u); [lra|].
    apply Qle_trans with (exact * (1 + u)).
    + setoid_replace (q * (1 + u) * (1 - u)) with (q * (1 - u) * (1 + u))
        by ring.
      apply Qmult_le_compat_r; [exact Q2|lra].
    + setoid_replace (exact * (1 + 4 * u) * (1 - u))
        with (exact * ((1 + 4 * u) * (1 - u))) by ring.
      apply Qmult_le_l; [exact He0|].
      assert (u * u <= u * (1 # 2)) by (apply Qmult_le_l; lra).
      setoid_replace ((1 + 4 * u) * (1 - u))
        with (1 + 3 * u - 4 * (u * u)) by ring.
      lra.
Qed.

Lemma scale_double (p p2 : Props) (m : Measure) :
  ordinary (targetDPI p) -> ratio_ordinary (devicePixelRatio m) ->
  targetDPI p2 == 2 * targetDPI p ->
  scale p2 m == 2 * scale p m.
Proof.
  intros Ht Hd E.
  destruct (divisor_bounds _ (pixel_ratio_ordinary m Hd))
    as (_ & _ & Lc & _).
  destruct (scale_bounds p m Ht Hd) as (Lq & _ & _ & _).
  pose proof (pow2_pos (-250)) as P1. pose proof (pow2_pos (-519)) as P2.
  unfold scale, fdiv in *.
  set (c := fmul 72 (pixel_ratio m)) in *.
  assert (E2 : targetDPI p2 / c == 2 * (targetDPI p / c)).
  { rewrite E. field. lra. }
  assert (H2 : 0 <= targetDPI p2 / c).
  { rewrite E2. lra. }
  rewrite (double_comp_nonneg _ _ H2 E2).
  apply double_twice.
  apply Qle_trans with (2 ^ (-519)); [apply pow2_le; lia|exact Lq].
Qed.

Lemma capture_extent_double (size s s2 : Q) :
  sized size -> 2 ^ (-519) <= s -> s2 == 2 * s ->
  (2 * capture_extent size s - 1 <= capture_extent size s2
   <= 2 * capture_extent size s)%Z.
Proof.
  intros Hsz Hs E. unfold capture_extent, fmul.
  pose proof (pow2_pos (-519)) as P.
  assert (E2 : size * s2 == 2 * (size * s)) by (rewrite E; ring).
  assert (D : double (size * s2) == 2 * double (size * s)).
  { destruct Hsz as [Z|[L U]].
    - rewrite (double_zero (size * s2)), (double_zero (size * s));
        [reflexivity|rewrite Z; ring|rewrite Z; ring].
    - pose proof (pow2_pos (-256)) as P2.
      pose proof (pow2_mul_ge size s (-256) (-519) L Hs) as G.
      change (-256 + -519)%Z with (-775)%Z in G.
      pose proof (pow2_pos (-775)) as P3.
      rewrite (double_comp_nonneg (size * s2) (2 * (size * s)));
        [|rewrite E2; lra|exact E2].
      apply double_twice.
      apply Qle_trans with (2 ^ (-775)); [apply pow2_le; lia|exact G]. }
  rewrite (Qceiling_comp _ _ D). apply Qceiling_double.
Qed.

(** C3 (amended).  For a [targetDPI], a device pixel ratio and measured
    sizes far inside the range of binary64, with [d] the reported ratio,
    or 1 when the ratio is zero or missing (a ratio below 1 is kept): the
    scale is the binary64 quotient of [targetDPI] by the binary64
    product [72 * d], a binary64 number and not the exact quotient; it
    is positive and differs from the exact [targetDPI / (72 d)] by at
    most one part in [2 ^ 51]; the capture width and height are the
    ceilings of the binary64 product of the measured size and the
    scale, the measured size being the largest of the offset size (the
    scroll size when that is zero), the computed-style size and the
    bounding-rectangle size; and at twice the [targetDPI] each capture
    dimension is twice the former one or one pixel less. *)
Theorem capture_scale_spec (p p2 : Props) (m : Measure) :
  ordinary (targetDPI p) ->
  ratio_ordinary (devicePixelRatio m) ->
  sized (actualWidth h m) -> sized (actualHeight h m) ->
  targetDPI p2 == 2 * targetDPI p ->
  let d := pixel_ratio m in
  match devicePixelRatio m with
  | Some r => if Qeq_bool r 0 then d = 1 else d = r
  | None => d = 1
  end
  /\ 0 < d
  /\ scale p m = double (targetDPI p / double (72 * d))
  /\ is_double (scale p m)
  /\ 0 < scale p m
  /\ (targetDPI p / (72 * d) * (1 - 2 ^ (-51)) <= scale p m
      /\ scale p m <= targetDPI p / (72 * d) * (1 + 2 ^ (-51)))
  /\ actualWidth h m
     = Qmax (Qmax (or_default (Some (offsetWidth m)) (scrollWidth m))
                  (or_default (parseFloat h (computedWidth m)) 0))
            (or_default (Some (rectWidth m)) 0)
  /\ actualHeight h m
     = Qmax (Qmax (or_default (Some (offsetHeight m)) (scrollHeight m))
                  (or_default (parseFloat h (computedHeight m)) 0))
            (or_default (Some (rectHeight m)) 0)
  /\ capture_width h p m
     = Qceiling (double (actualWidth h m * scale p m))
  /\ capture_height h p m
     = Qceiling (double (actualHeight h m * scale p m))
  /\ (2 * capture_width h p m - 1 <= capture_width h p2 m
      <= 2 * capture_width h p m)%Z
  /\ (2 * capture_height h p m - 1 <= capture_height h p2 m
      <= 2 * capture_height h p m)%Z.
Proof.
  intros Ht Hd Hw Hh E d.
  destruct (scale_bounds p m Ht Hd) as (_ & _ & Ls & _).
  pose proof (scale_double p p2 m Ht Hd E) as D.
  split; [|split; [|split; [|split; [|split; [|split; [|split; [|split;
    [|split; [|split; [|split]]]]]]]]]].
  - unfold d, pixel_ratio, or_default.
    destruct (devicePixelRatio m) as [r|]; [|reflexivity].
    now destruct (Qeq_bool r 0).
  - destruct (pixel_ratio_ordinary m Hd) as [L _].
    pose proof (pow2_pos (-256)). unfold d. lra.
  - reflexivity.
  - unfold scale, fdiv. apply double_is_double.
    destruct (scale_bounds p m Ht Hd) as (Lq & _).
    pose proof (pow2_pos (-519)). lra.
  - now apply scale_pos.
  - now apply scale_near.
  - reflexivity.
  - reflexivity.
  - reflexivity.
  - reflexivity.
  - now apply capture_extent_double.
  - now apply capture_extent_double.
Qed.

(** *** The centering adjustment *)

Lemma max0_split (x a : Q) :
  0 <= x -> Qmax 0 (x + a) + Qmax 0 (x - a) == x + Qmax x (Qabs a).
Proof.
  intros Hx.
  destruct (Q.max_spec 0 (x + a)) as [[M1 ->]|[M1 ->]];
    destruct (Q.max_spec 0 (x - a)) as [[M2 ->]|[M2 ->]];
    destruct (Q.max_spec x (Qabs a)) as [[M ->]|[M ->]];
    revert M; apply Qabs_case; intros; lra.
Qed.

Lemma staged_padding (p : Props) (x y : Q) :
  parseFloat h (fst (padding_tokens (displayMode p))) = Some x ->
  parseFloat h (snd (padding_tokens (displayMode p))) = Some y ->
  read_padding h (staging_style h p)
  = {| paddingTop := Some x; paddingRight := Some y;
       paddingBottom := Some x; paddingLeft := Some y |}.
Proof.
  intros Hx Hy. unfold staging_style.
  destruct (displayMode p); simpl in Hx, Hy;
    unfold read_padding; cbn; now rewrite Hx, Hy.
Qed.

Lemma staged_longhand (p : Props) (s : Side) :
  get_style (longhand s) (staging_style h p) = None.
Proof. unfold staging_style. destruct (displayMode p), s; reflexivity. Qed.

(** C6 (defect of the code).  The container's padding is declared in
    [em] (lines 89 and 98); the adjustment reads it with [parseFloat],
    which keeps the count and drops the unit, and writes the four sides
    back in pixels.  For a formula staged by the component, with [x] and
    [y] the counts of the two values of the declared padding and a font
    of [fontPx] pixels, whenever the content lies more than a pixel from
    the corner of the container: the sides are set to [x] plus and minus
    the vertical adjustment and [y] plus and minus the horizontal one,
    in pixels and not below zero; the padding along the vertical axis
    goes from [2 x fontPx] pixels to [x + max(x, |adjustY|)] pixels, and
    likewise along the horizontal axis; where neither side is cut at
    zero the padding along an axis, and with it the size of the
    container, stays as it was only if the font size is one pixel. *)
Theorem centering_writes_em_as_px
        (p : Props) (k c : Rect) (x y fontPx : Q) :
  parseFloat h (fst (padding_tokens (displayMode p))) = Some x ->
  parseFloat h (snd (padding_tokens (displayMode p))) = Some y ->
  0 < x -> 0 < y ->
  1 < Qabs (offsetX k c) \/ 1 < Qabs (offsetY k c) ->
  let st := staging_style h p in
  let st' := adjust_centering h st (Some k) c in
  let ax := adjustX k c in
  let ay := adjustY k c in
  get_style "padding" st
  = Some (Raw (fst (padding_tokens (displayMode p)) ++ " "
               ++ snd (padding_tokens (displayMode p))))
  /\ get_style "paddingTop" st' = Some (Px (Some (Qmax 0 (x + ay))))
  /\ get_style "paddingBottom" st' = Some (Px (Some (Qmax 0 (x - ay))))
  /\ get_style "paddingLeft" st' = Some (Px (Some (Qmax 0 (y + ax))))
  /\ get_style "paddingRight" st' = Some (Px (Some (Qmax 0 (y - ax))))
  /\ is_number (vertical_padding h fontPx st) (2 * x * fontPx)
  /\ is_number (vertical_padding h fontPx st') (x + Qmax x (Qabs ay))
  /\ is_number (horizontal_padding h fontPx st) (2 * y * fontPx)
  /\ is_number (horizontal_padding h fontPx st') (y + Qmax y (Qabs ax))
  /\ (Qabs ay <= x ->
      (is_number (vertical_padding h fontPx st') (2 * x * fontPx)
       <-> fontPx == 1))
  /\ (Qabs ax <= y ->
      (is_number (horizontal_padding h fontPx st') (2 * y * fontPx)
       <-> fontPx == 1)).
Proof.
  intros Hx Hy Hx0 Hy0 Hoff st st' ax ay.
  assert (Hoff' : off_position k c = true).
  { unfold off_position. now rewrite orb_true_iff, !Qltb_lt. }
  pose proof (staged_padding p x y Hx Hy) as Hpd. fold st in Hpd.
  assert (Hbefore : forall s, get_style (longhand s) st = None)
    by (intros s; apply staged_longhand).
  assert (V : is_number (vertical_padding h fontPx st')
                        (x + Qmax x (Qabs ay))).
  { unfold vertical_padding, used_padding, st', adjust_centering.
    rewrite Hoff', Hpd.
    cbn [paddingTop paddingRight paddingBottom paddingLeft longhand
         get_style set_style String.eqb Ascii.eqb Bool.eqb
         Math_max add sub mul lift2 is_number].
    fold ay. apply max0_split. lra. }
  assert (H : is_number (horizontal_padding h fontPx st')
                        (y + Qmax y (Qabs ax))).
  { unfold horizontal_padding, used_padding, st', adjust_centering.
    rewrite Hoff', Hpd.
    cbn [paddingTop paddingRight paddingBottom paddingLeft longhand
         get_style set_style String.eqb Ascii.eqb Bool.eqb
         Math_max add sub mul lift2 is_number].
    fold ax. apply max0_split. lra. }
  split; [|split; [|split; [|split; [|split; [|split; [|split;
    [|split; [|split; [|split]]]]]]]]].
  - unfold st, staging_style. now destruct (displayMode p).
  - unfold st', adjust_centering. now rewrite Hoff', Hpd.
  - unfold st', adjust_centering. now rewrite Hoff', Hpd.
  - unfold st', adjust_centering. now rewrite Hoff', Hpd.
  - unfold st', adjust_centering. now rewrite Hoff', Hpd.
  - unfold vertical_padding, used_padding. rewrite !Hbefore.
    unfold declared. rewrite Hpd.
    cbn [paddingTop paddingBottom add mul lift2 is_number]. ring.
  - exact V.
  - unfold horizontal_padding, used_padding. rewrite !Hbefore.
    unfold declared. rewrite Hpd.
    cbn [paddingLeft paddingRight add mul lift2 is_number]. ring.
  - exact H.
  - intros Hc.
    destruct (vertical_padding h fontPx st') as [v|]; [|contradiction].
    cbn [is_number] in *. rewrite V, Q.max_l by exact Hc.
    split; intros E.
    + apply (Qmult_inj_l _ _ (2 * x)); lra.
    + rewrite E. ring.
  - intros Hc.
    destruct (horizontal_padding h fontPx st') as [v|]; [|contradiction].
    cbn [is_number] in *. rewrite H, Q.max_l by exact Hc.
    split; intros E.
    + apply (Qmult_inj_l _ _ (2 * y)); lra.
    + rewrite E. ring.
Qed.

End WithHost.
End RasterFacts.

(** ** The life of an attempt *)

Module LifecycleFacts.
Import JS MathToImage.
Local Open Scope string_scope.
Local Open Scope nat_scope.

(** *** Counting entries *)

Lemma attaches_app (n : nat) (l l' : list Entry) :
  attaches n (l ++ l') = attaches n l + attaches n l'.
Proof. unfold attaches. now rewrite filter_app, length_app. Qed.

Lemma detaches_app (n : nat) (l l' : list Entry) :
  detaches n (l ++ l') = detaches n l + detaches n l'.
Proof. unfold detaches. now rewrite filter_app, length_app. Qed.

Lemma quiet_counts (n : nat) (es : list Entry) :
  forallb quiet es = true ->
  attaches n es = 0 /\ detaches n es = 0
  /\ existsb is_cleanup_failure es = false.
Proof.
  induction es as [|e es IH]; [now repeat split|].
  simpl. rewrite andb_true_iff. intros [He Hes].
  destruct (IH Hes) as (A & D & C).
  unfold attaches, detaches in *. simpl.
  destruct e; try discriminate; simpl; now repeat split.
Qed.

Lemma existsb_without_self (n : nat) (l : list nat) :
  existsb (Nat.eqb n) (filter (fun k => negb (Nat.eqb n k)) l) = false.
Proof.
  induction l as [|a l IH]; [reflexivity|]. simpl.
  destruct (Nat.eqb n a) eqn:E; simpl; [exact IH|now rewrite E].
Qed.

Lemma existsb_without_other (n k : nat) (l : list nat) :
  k <> n ->
  existsb (Nat.eqb k) (filter (fun j => negb (Nat.eqb n j)) l)
  = existsb (Nat.eqb k) l.
Proof.
  intros Hne. induction l as [|a l IH]; [reflexivity|]. simpl.
  destruct (Nat.eqb n a) eqn:E; simpl.
  - apply Nat.eqb_eq in E as <-.
    apply Nat.eqb_neq in Hne. now rewrite Hne.
  - now rewrite IH.
Qed.

Lemma existsb_In (n : nat) (l : list nat) :
  existsb (Nat.eqb n) l = true <-> In n l.
Proof.
  rewrite existsb_exists. split.
  - intros (x & Hx & E). apply Nat.eqb_eq in E. now subst.
  - intros H. exists n. split; [assumption|apply Nat.eqb_refl].
Qed.

Lemma filter_absent (n : nat) (l : list nat) :
  ~ In n l -> filter (fun k => negb (Nat.eqb n k)) l = l.
Proof.
  induction l as [|a l IH]; [reflexivity|]. simpl. intros H.
  destruct (Nat.eqb n a) eqn:E.
  - apply Nat.eqb_eq in E. subst. tauto.
  - simpl. f_equal. tauto.
Qed.

(** *** The invariant does not depend on the React state *)

Lemma core_ext (w w' : World) :
  body w' = body w -> fresh w' = fresh w -> log w' = log w ->
  Core w -> Core w'.
Proof.
  intros Hb Hf Hl [A B C D E].
  constructor; rewrite ?Hb, ?Hf, ?Hl; assumption.
Qed.

Lemma inv_ext (w w' : World) :
  tasks w' = tasks w -> body w' = body w -> fresh w' = fresh w ->
  log w' = log w -> Inv w -> Inv w'.
Proof.
  intros Ht Hb Hf Hl [A B].
  constructor; [now rewrite Ht, Hb|now apply (core_ext w)].
Qed.

Lemma leaving_ext (n : nat) (w w' : World) :
  tasks w' = tasks w -> body w' = body w -> fresh w' = fresh w ->
  log w' = log w -> Leaving n w -> Leaving n w'.
Proof.
  intros Ht Hb Hf Hl [A B C].
  constructor; [now rewrite Ht, Hb|now rewrite Hb|now apply (core_ext w)].
Qed.

Lemma core_write (es : list Entry) (w : World) :
  forallb quiet es = true -> Core w -> Core (write es w).
Proof.
  intros Hq [A B C D E]. destruct (quiet_counts 0 es Hq) as (_ & _ & Q).
  constructor; simpl; try assumption.
  - intros n. destruct (quiet_counts n es Hq) as (Qa & _).
    rewrite attaches_app, Qa, Nat.add_0_r. apply C.
  - intros n. destruct (quiet_counts n es Hq) as (_ & Qd & _).
    rewrite detaches_app, Qd, Nat.add_0_r. apply D.
  - now rewrite existsb_app, E, Q.
Qed.

Lemma inv_write (es : list Entry) (w : World) :
  forallb quiet es = true -> Inv w -> Inv (write es w).
Proof.
  intros Hq [A B]. constructor; [exact A|now apply core_write].
Qed.

Lemma leaving_write (n : nat) (es : list Entry) (w : World) :
  forallb quiet es = true -> Leaving n w -> Leaving n (write es w).
Proof.
  intros Hq [A B C]. constructor; [exact A|exact B|now apply core_write].
Qed.

(** *** Attaching and detaching *)

Lemma fresh_not_attached (w : World) : Core w -> ~ In (fresh w) (body w).
Proof.
  intros [_ B _ _ _] H. rewrite Forall_forall in B.
  specialize (B _ H). lia.
Qed.

Lemma core_appendChild (w : World) :
  Core w -> Core (snd (appendChild w)).
Proof.
  intros HC. pose proof (fresh_not_attached w HC) as Hn.
  destruct HC as [A B C D E]. constructor; simpl.
  - apply NoDup_app; repeat split; try assumption.
    + constructor; [intros []|constructor].
    + intros x Hx [<-|[]]. contradiction.
  - apply Forall_app. split.
    + eapply Forall_impl; [|exact B]. simpl. lia.
    + constructor; [lia|constructor].
  - intros n. rewrite attaches_app, C. unfold attaches. simpl.
    destruct (Nat.eqb_spec n (fresh w)) as [->|Hne]; simpl.
    + rewrite Nat.ltb_irrefl.
      now replace (fresh w <? S (fresh w))%nat with true
        by (symmetry; apply Nat.ltb_lt; lia).
    + destruct (Nat.ltb_spec n (fresh w)), (Nat.ltb_spec n (S (fresh w)));
        lia.
  - intros n. rewrite detaches_app, D. unfold detaches. simpl.
    rewrite Nat.add_0_r, existsb_app. simpl. rewrite orb_false_r.
    destruct (Nat.eqb_spec n (fresh w)) as [->|Hne]; simpl.
    + rewrite Nat.ltb_irrefl, orb_true_r, andb_false_r. reflexivity.
    + rewrite orb_false_r.
      destruct (Nat.ltb_spec n (fresh w)), (Nat.ltb_spec n (S (fresh w)));
        try reflexivity; lia.
  - rewrite existsb_app, E. reflexivity.
Qed.

Lemma inv_spawn (w : World) (t : Task) :
  node t = fresh w -> Inv w ->
  Inv (set_tasks (tasks (snd (appendChild w)) ++ [t]) (snd (appendChild w))).
Proof.
  intros Hn [A B]. constructor.
  - simpl. rewrite map_app, A. simpl. now rewrite Hn.
  - apply (core_ext (snd (appendChild w))); try reflexivity.
    now apply core_appendChild.
Qed.

Lemma leaving_appendChild (w : World) :
  Inv w -> Leaving (fresh w) (snd (appendChild w)).
Proof.
  intros [A B]. constructor.
  - simpl. rewrite filter_app. simpl. rewrite Nat.eqb_refl. simpl.
    rewrite app_nil_r, filter_absent; [exact A|].
    now apply fresh_not_attached.
  - simpl. apply in_or_app. right. now left.
  - now apply core_appendChild.
Qed.

Lemma leaving_drop_task (n : nat) (w : World) :
  Inv w -> in_flight n w = true -> Leaving n (drop_task n w).
Proof.
  intros [A B] Hin. constructor; simpl.
  - rewrite <- A. clear. induction (tasks w) as [|t ts IH]; [reflexivity|].
    simpl. destruct (Nat.eqb n (node t)); simpl; now rewrite IH.
  - rewrite <- A. unfold in_flight in Hin.
    apply existsb_exists in Hin as (t & Ht & E).
    apply Nat.eqb_eq in E. subst. now apply in_map.
  - apply (core_ext w); try reflexivity. exact B.
Qed.

(** The guarded [removeChild] of a container that is about to leave
    succeeds and restores the invariant. *)
Lemma release_leaving (n : nat) (w : World) :
  Leaving n w ->
  exists w',
    release n w = Some w' /\ Inv w'
    /\ props w' = props w /\ imageDataUrl w' = imageDataUrl w
    /\ isLoading w' = isLoading w /\ tasks w' = tasks w
    /\ log w' = (log w ++ [Detached n])%list.
Proof.
  intros [A B [N F CA CD CC]].
  assert (Hex : existsb (Nat.eqb n) (body w) = true) by now apply existsb_In.
  unfold release, has_parent, removeChild. rewrite Hex.
  eexists. split; [reflexivity|]. split; [|now repeat split].
  assert (Hlt : (n < fresh w)%nat)
    by (rewrite Forall_forall in F; now apply F).
  constructor; [exact A|]. constructor; simpl.
  - now apply NoDup_filter.
  - rewrite Forall_forall in *. intros x Hx.
    apply filter_In in Hx as [Hx _]. now apply F.
  - intros k. rewrite attaches_app, CA. unfold attaches. simpl. lia.
  - intros k. rewrite detaches_app, CD. unfold detaches. simpl.
    destruct (Nat.eqb_spec k n) as [->|Hne]; simpl.
    + rewrite Hex, existsb_without_self.
      apply Nat.ltb_lt in Hlt. rewrite Hlt. reflexivity.
    + rewrite existsb_without_other by assumption. lia.
  - rewrite existsb_app, CC. reflexivity.
Qed.

Lemma on_failure_leaving (n : nat) (w : World) :
  Leaving n w ->
  Inv (on_failure n w)
  /\ tasks (on_failure n w) = tasks w
  /\ imageDataUrl (on_failure n w) = imageDataUrl w
  /\ isLoading (on_failure n w) = false
  /\ props (on_failure n w) = props w
  /\ log (on_failure n w) = (log w ++ [ErrorLogged; Detached n])%list.
Proof.
  intros HL. unfold on_failure.
  assert (HL' : Leaving n (write [ErrorLogged] w))
    by now apply leaving_write.
  destruct (release_leaving _ _ HL') as (w' & -> & I & P & U & L & T & G).
  split; [now apply (inv_ext w')|].
  repeat split; try assumption.
  transitivity (log w'); [reflexivity|].
  rewrite G. simpl. now rewrite <- app_assoc.
Qed.

Lemma on_success_leaving (n : nat) (d : string) (w : World) :
  Leaving n w ->
  Inv (on_success n d w)
  /\ tasks (on_success n d w) = tasks w
  /\ imageDataUrl (on_success n d w) = d
  /\ isLoading (on_success n d w) = false
  /\ props (on_success n d w) = props w
  /\ log (on_success n d w) = (log w ++ [Detached n])%list.
Proof.
  intros HL. unfold on_success.
  assert (HL' : Leaving n (setImageDataUrl d w))
    by now apply (leaving_ext n w).
  destruct (release_leaving _ _ HL') as (w' & -> & I & P & U & L & T & G).
  split; [now apply (inv_ext w')|].
  repeat split; assumption.
Qed.


(** *** Tasks *)

Lemma existsb_nodes (n : nat) (ts : list Task) :
  existsb (fun t => Nat.eqb n (node t)) ts
  = existsb (Nat.eqb n) (map node ts).
Proof.
  induction ts as [|t ts IH]; [reflexivity|]. simpl. now rewrite IH.
Qed.

Lemma in_flight_body (w : World) (n : nat) :
  Inv w -> in_flight n w = existsb (Nat.eqb n) (body w).
Proof.
  intros [A _]. rewrite <- A. apply existsb_nodes.
Qed.

Lemma find_task_some (n : nat) (w : World) (t : Task) :
  find_task n w = Some t -> node t = n /\ in_flight n w = true.
Proof.
  unfold find_task, in_flight. intros H.
  apply find_some in H as [Hin E]. apply Nat.eqb_eq in E.
  split; [now symmetry|].
  apply existsb_exists. exists t. split; [assumption|].
  subst. apply Nat.eqb_refl.
Qed.

Lemma in_flight_dropped (n : nat) (ts : list Task) :
  existsb (fun t => Nat.eqb n (node t))
          (filter (fun t => negb (Nat.eqb n (node t))) ts) = false.
Proof.
  induction ts as [|t ts IH]; [reflexivity|]. simpl.
  destruct (Nat.eqb n (node t)) eqn:E; simpl; [exact IH|now rewrite E].
Qed.

Lemma find_other_dropped (a b : nat) (ts : list Task) :
  a <> b ->
  find (fun t => Nat.eqb b (node t))
       (filter (fun t => negb (Nat.eqb a (node t))) ts)
  = find (fun t => Nat.eqb b (node t)) ts.
Proof.
  intros Hne. induction ts as [|t ts IH]; [reflexivity|]. simpl.
  destruct (Nat.eqb a (node t)) eqn:E; simpl.
  - apply Nat.eqb_eq in E. subst a.
    apply not_eq_sym, Nat.eqb_neq in Hne. now rewrite Hne.
  - now rewrite IH.
Qed.

Lemma inv_put_task (t : Task) (w : World) : Inv w -> Inv (put_task t w).
Proof.
  intros [A B]. constructor.
  - simpl. rewrite <- A. rewrite map_map. apply map_ext.
    intros u. destruct (Nat.eqb (node t) (node u)) eqn:E; [|reflexivity].
    now apply Nat.eqb_eq in E.
  - apply (core_ext w); try reflexivity. exact B.
Qed.

Lemma find_put_task (t : Task) (w : World) (u : Task) :
  find_task (node t) w = Some u -> find_task (node t) (put_task t w) = Some t.
Proof.
  unfold find_task, put_task. simpl.
  induction (tasks w) as [|x xs IH]; [discriminate|]. simpl.
  destruct (Nat.eqb (node t) (node x)) eqn:E.
  - intros _. now rewrite Nat.eqb_refl.
  - rewrite E. exact IH.
Qed.

Lemma encode_quiet (c : Canvas) (q : Q) : forallb quiet (snd (encode c q)) = true.
Proof. unfold encode. now destruct (toDataURL c Png q). Qed.

(** *** One event *)

Section Steps.

Variable h : Host.

(** A capture that encodes: the data URL is committed. *)
Lemma captured_encoded (w : World) (n : nat) (t : Task) (c : Canvas)
      (d : string) :
  Inv w -> find_task n w = Some t -> phase t = Capturing ->
  fst (encode c (quality (request t))) = Some d ->
  let w' := step h w (Captured n (Some c)) in
  Inv w' /\ imageDataUrl w' = d /\ isLoading w' = false
  /\ props w' = props w /\ tasks w' = tasks (drop_task n w).
Proof.
  intros HI Hf Hp He w'. unfold w', step. rewrite Hf, Hp.
  destruct (encode c (quality (request t))) as [d' es] eqn:E.
  simpl in He. subst d'.
  destruct (find_task_some _ _ _ Hf) as [_ Hin].
  assert (HL : Leaving n (write es (drop_task n w))).
  { apply leaving_write; [|now apply leaving_drop_task].
    pose proof (encode_quiet c (quality (request t))) as Q.
    now rewrite E in Q. }
  destruct (on_success_leaving n d _ HL) as (I & T & U & L & P & _).
  split; [assumption|]. repeat split; assumption.
Qed.

(** A capture that fails, or whose two encodings fail: nothing is
    committed. *)
Lemma captured_failed (w : World) (n : nat) (t : Task) (c : option Canvas) :
  Inv w -> find_task n w = Some t -> phase t = Capturing ->
  match c with
  | Some c => fst (encode c (quality (request t))) = None
  | None => True
  end ->
  let w' := step h w (Captured n c) in
  Inv w' /\ imageDataUrl w' = imageDataUrl w /\ isLoading w' = false
  /\ props w' = props w /\ tasks w' = tasks (drop_task n w).
Proof.
  intros HI Hf Hp He w'. unfold w', step. rewrite Hf, Hp.
  destruct (find_task_some _ _ _ Hf) as [_ Hin].
  destruct c as [c|].
  - destruct (encode c (quality (request t))) as [d' es] eqn:E.
    simpl in He. subst d'.
    assert (HL : Leaving n (write es (drop_task n w))).
    { apply leaving_write; [|now apply leaving_drop_task].
      pose proof (encode_quiet c (quality (request t))) as Q.
      now rewrite E in Q. }
    destruct (on_failure_leaving n _ HL) as (I & T & U & L & P & _).
    split; [assumption|]. repeat split; assumption.
  - assert (HL : Leaving n (drop_task n w)) by now apply leaving_drop_task.
    destruct (on_failure_leaving n _ HL) as (I & T & U & L & P & _).
    split; [assumption|]. repeat split; assumption.
Qed.

Lemma step_inv (w : World) (e : Event) : Inv w -> Inv (step h w e).
Proof.
  intros HI. destruct e as [p ty|n m|n c].
  - simpl. assert (H1 : Inv (setIsLoading true (set_props p w)))
      by now apply (inv_ext w).
    destruct (blank (math p)); [now apply (inv_ext w)|].
    destruct ty.
    + exact (inv_spawn (setIsLoading true (set_props p w))
               {| node := fresh w; request := p;
                  style := staging_style h p; phase := Settling |}
               eq_refl H1).
    + exact (proj1 (on_failure_leaving _ _ (leaving_appendChild _ H1))).
  - simpl. destruct (find_task n w) as [t|] eqn:Hf; [|assumption].
    destruct (find_task_some _ _ _ Hf) as [_ Hin].
    destruct (phase t); [|assumption].
    destruct m as [m|].
    + now apply inv_write, inv_put_task.
    + now apply on_failure_leaving, leaving_drop_task.
  - destruct (find_task n w) as [t|] eqn:Hf;
      [|unfold step; now rewrite Hf].
    destruct (phase t) eqn:Hp; [unfold step; now rewrite Hf, Hp|].
    destruct c as [c|].
    + destruct (fst (encode c (quality (request t)))) as [d|] eqn:E.
      * exact (proj1 (captured_encoded w n t c d HI Hf Hp E)).
      * exact (proj1 (captured_failed w n t (Some c) HI Hf Hp E)).
    + exact (proj1 (captured_failed w n t None HI Hf Hp I)).
Qed.

Lemma initial_inv (p : Props) : Inv (initial p).
Proof.
  repeat constructor.
Qed.

Lemma run_inv (w : World) (es : list Event) : Inv w -> Inv (run h w es).
Proof.
  revert w. induction es as [|e es IH]; intros w HI; [assumption|].
  simpl. now apply IH, step_inv.
Qed.

Lemma find_task_tasks (n : nat) (w w' : World) :
  tasks w' = tasks w -> find_task n w' = find_task n w.
Proof. unfold find_task. now intros ->. Qed.

Lemma find_task_none (n : nat) (w : World) :
  find_task n w = None -> in_flight n w = false.
Proof.
  unfold find_task, in_flight. intros Hf.
  destruct (existsb _ (tasks w)) eqn:E; [|reflexivity].
  apply existsb_exists in E as (x & Hx & Ex).
  now rewrite (find_none _ _ Hf x Hx) in Ex.
Qed.

(** After its timer an attempt is gone or waits for its capture. *)
Lemma settled_next (w : World) (n : nat) (m : option Measure) :
  Inv w ->
  match find_task n (step h w (Settled n m)) with
  | Some t => phase t = Capturing
  | None => True
  end.
Proof.
  intros HI. unfold step.
  destruct (find_task n w) as [u|] eqn:Hu; [|now rewrite Hu].
  destruct (find_task_some _ _ _ Hu) as [Hn Hin].
  destruct (phase u) eqn:Pu; [|now rewrite Hu].
  destruct m as [m|].
  - set (t := {| node := n; request := request u;
                 style := adjust_centering h (style u)
                            (katexRect m) (containerRect m);
                 phase := Capturing |}).
    rewrite (find_task_tasks n (put_task t w)) by reflexivity.
    change n with (node t) at 1.
    rewrite (find_put_task t w u Hu). reflexivity.
  - assert (HL : Leaving n (drop_task n w)) by now apply leaving_drop_task.
    destruct (on_failure_leaving n _ HL) as (_ & T & _).
    rewrite (find_task_tasks n (drop_task n w)) by exact T.
    destruct (find_task n (drop_task n w)) as [x|] eqn:Hx; [|exact I].
    destruct (find_task_some _ _ _ Hx) as [_ Hin'].
    unfold in_flight in Hin'. simpl in Hin'.
    now rewrite in_flight_dropped in Hin'.
Qed.

Lemma captured_exits (v : World) (n : nat) (c : option Canvas) :
  Inv v ->
  match find_task n v with
  | Some t => phase t = Capturing
  | None => True
  end ->
  in_flight n (step h v (Captured n c)) = false.
Proof.
  intros HV. destruct (find_task n v) as [t|] eqn:Hf.
  - intros Hp.
    assert (T : tasks (step h v (Captured n c)) = tasks (drop_task n v)).
    { destruct c as [c|];
        [destruct (fst (encode c (quality (request t)))) as [d|] eqn:E|].
      - exact (proj2 (proj2 (proj2 (proj2
                 (captured_encoded v n t c d HV Hf Hp E))))).
      - exact (proj2 (proj2 (proj2 (proj2
                 (captured_failed v n t (Some c) HV Hf Hp E))))).
      - exact (proj2 (proj2 (proj2 (proj2
                 (captured_failed v n t None HV Hf Hp I))))). }
    unfold in_flight. rewrite T. apply in_flight_dropped.
  - intros _. unfold step. rewrite Hf. now apply find_task_none.
Qed.

(** Whatever the outcomes, the timer and the capture of an attempt end
    it. *)
Lemma attempt_exits (w : World) (n : nat) (m : option Measure)
      (c : option Canvas) :
  Inv w -> in_flight n (run h w [Settled n m; Captured n c]) = false.
Proof.
  intros HI.
  change (run h w [Settled n m; Captured n c])
    with (step h (step h w (Settled n m)) (Captured n c)).
  apply captured_exits; [now apply step_inv|now apply settled_next].
Qed.

End Steps.


(** C5.  In every state the component can reach, whatever the browser
    answered on the way: no staging container was attached or detached
    more than once; the container of an attempt in flight is attached and
    was never detached; the container of an attempt that has left, on
    whichever path, was detached exactly once and is no longer under the
    body; no cleanup failed; and the timer and the capture of an attempt,
    whatever their outcomes, make it leave. *)
Theorem staging_detached_exactly_once
        (h : Host) (p : Props) (evs : list Event) (n : nat)
        (m : option Measure) (c : option Canvas) :
  let w := run h (initial p) evs in
  attaches n (log w) <= 1
  /\ detaches n (log w) <= attaches n (log w)
  /\ (in_flight n w = true ->
      In n (body w) /\ attaches n (log w) = 1 /\ detaches n (log w) = 0)
  /\ (in_flight n w = false -> attaches n (log w) = 1 ->
      detaches n (log w) = 1 /\ ~ In n (body w))
  /\ existsb is_cleanup_failure (log w) = false
  /\ in_flight n (run h w [Settled n m; Captured n c]) = false.
Proof.
  intros w.
  assert (HI : Inv w) by (apply run_inv, initial_inv).
  pose proof (in_flight_body w n HI) as Hfl.
  destruct HI as [A [N F CA CD CC]].
  assert (HI : Inv w) by (apply run_inv, initial_inv).
  rewrite Hfl, CA, CD.
  destruct (existsb (Nat.eqb n) (body w)) eqn:E.
  - assert (Hin : In n (body w)) by now apply existsb_In.
    assert (Hlt : n < fresh w)
      by (rewrite Forall_forall in F; now apply F).
    apply Nat.ltb_lt in Hlt. rewrite Hlt. simpl.
    repeat split; try lia; try assumption; try discriminate.
    now apply attempt_exits.
  - assert (Hout : ~ In n (body w))
      by (rewrite <- existsb_In; congruence).
    destruct (n <? fresh w); simpl;
      repeat split; try lia; try assumption; try discriminate.
    all: now apply attempt_exits.
Qed.

(** C4 (amended).  The encoding first asks for PNG at the requested
    quality; when that throws it asks once for JPEG at
    [max(quality, 0.8)]; the first data URL obtained is committed and
    loading ends.  When both throw, nothing is committed and loading ends:
    an instance without an earlier image shows the fallback, which is the
    markup [katex.renderToString] gives for the formula, or the source
    text when that throws, and carries no title. *)
Theorem encoding_fallback
        (h : Host) (p : Props) (evs : list Event) (n : nat) (t : Task)
        (c : Canvas) :
  let w := run h (initial p) evs in
  let q := quality (request t) in
  let w' := step h w (Captured n (Some c)) in
  find_task n w = Some t -> phase t = Capturing ->
  (forall d, toDataURL c Png q = Some d ->
     encode c q = (Some d, [Encode Png q])
     /\ imageDataUrl w' = d /\ isLoading w' = false)
  /\ (forall d, toDataURL c Png q = None ->
        toDataURL c Jpeg (Qmax q 0.8) = Some d ->
        encode c q = (Some d, [Encode Png q; Warned; Encode Jpeg (Qmax q 0.8)])
        /\ imageDataUrl w' = d /\ isLoading w' = false)
  /\ (toDataURL c Png q = None -> toDataURL c Jpeg (Qmax q 0.8) = None ->
      encode c q = (None, [Encode Png q; Warned; Encode Jpeg (Qmax q 0.8)])
      /\ imageDataUrl w' = imageDataUrl w /\ isLoading w' = false
      /\ (imageDataUrl w = "" ->
          status w' = Fallback
          /\ title (render h w') = None
          /\ content (render h w')
             = match renderToString h (math (props w)) (displayMode (props w))
               with
               | Some markup => Html markup
               | None => Text (math (props w))
               end)).
Proof.
  intros w q w' Hf Hp.
  assert (HI : Inv w) by (apply run_inv, initial_inv).
  split; [|split].
  - intros d Hd.
    assert (E : encode c q = (Some d, [Encode Png q]))
      by (unfold encode; now rewrite Hd).
    split; [exact E|].
    destruct (captured_encoded h w n t c d HI Hf Hp) as (_ & U & L & _);
      [fold q; now rewrite E|].
    now split.
  - intros d Hd Hj.
    assert (E : encode c q
                = (Some d, [Encode Png q; Warned; Encode Jpeg (Qmax q 0.8)]))
      by (unfold encode; now rewrite Hd, Hj).
    split; [exact E|].
    destruct (captured_encoded h w n t c d HI Hf Hp) as (_ & U & L & _);
      [fold q; now rewrite E|].
    now split.
  - intros Hd Hj.
    assert (E : encode c q
                = (None, [Encode Png q; Warned; Encode Jpeg (Qmax q 0.8)]))
      by (unfold encode; now rewrite Hd, Hj).
    split; [exact E|].
    destruct (captured_failed h w n t (Some c) HI Hf Hp)
      as (_ & U & L & P & _); [fold q; now rewrite E|].
    fold w' in U, L, P.
    split; [exact U|]. split; [exact L|].
    intros Hu. unfold status, render. rewrite L, U, Hu, P.
    destruct (renderToString h (math (props w)) (displayMode (props w)));
      now repeat split.
Qed.

(** C1 (amended).  When request A and then request B of one occurrence
    are both waiting for their capture, each capture that encodes commits
    its image when it resolves, and the image shown afterwards is that of
    the capture that resolved last: B's when A resolved first, A's when B
    resolved first. *)
Theorem last_resolved_wins
        (h : Host) (p : Props) (evs : list Event) (a b : nat)
        (ta tb : Task) (ca cb : Canvas) (da db : string) :
  let w := run h (initial p) evs in
  a < b ->
  find_task a w = Some ta -> phase ta = Capturing ->
  find_task b w = Some tb -> phase tb = Capturing ->
  fst (encode ca (quality (request ta))) = Some da ->
  fst (encode cb (quality (request tb))) = Some db ->
  imageDataUrl (step h w (Captured a (Some ca))) = da
  /\ imageDataUrl (step h w (Captured b (Some cb))) = db
  /\ imageDataUrl (run h w [Captured a (Some ca); Captured b (Some cb)]) = db
  /\ imageDataUrl (run h w [Captured b (Some cb); Captured a (Some ca)]) = da.
Proof.
  intros w Hab Hfa Hpa Hfb Hpb Ea Eb.
  assert (HI : Inv w) by (apply run_inv, initial_inv).
  destruct (captured_encoded h w a ta ca da HI Hfa Hpa Ea)
    as (Ia & Ua & _ & _ & Ta).
  destruct (captured_encoded h w b tb cb db HI Hfb Hpb Eb)
    as (Ib & Ub & _ & _ & Tb).
  split; [exact Ua|]. split; [exact Ub|]. split.
  - change (run h w [Captured a (Some ca); Captured b (Some cb)])
      with (step h (step h w (Captured a (Some ca))) (Captured b (Some cb))).
    assert (Hf : find_task b (step h w (Captured a (Some ca))) = Some tb).
    { rewrite (find_task_tasks b (drop_task a w)) by exact Ta.
      unfold find_task. simpl. rewrite find_other_dropped by lia.
      exact Hfb. }
    now destruct (captured_encoded h _ b tb cb db Ia Hf Hpb Eb) as (_ & U & _).
  - change (run h w [Captured b (Some cb); Captured a (Some ca)])
      with (step h (step h w (Captured b (Some cb))) (Captured a (Some ca))).
    assert (Hf : find_task a (step h w (Captured b (Some cb))) = Some ta).
    { rewrite (find_task_tasks a (drop_task b w)) by exact Tb.
      unfold find_task. simpl. rewrite find_other_dropped by lia.
      exact Hfa. }
    now destruct (captured_encoded h _ a ta ca da Ib Hf Hpa Ea) as (_ & U & _).
Qed.

End LifecycleFacts.

(** ** The export action *)

Module ExportFacts.
Import MathToImage App.
Local Open Scope string_scope.

Lemma loading_is_span (h : Host) (w : World) (nw : Z) :
  isLoading w = true -> is_img (node_of h w nw) = false.
Proof. intros H. unfold is_img, node_of, render. simpl. now rewrite H. Qed.

(** The readiness check only ever looks at images. *)
Lemma loadingImages_app (l l' : list Node) :
  loadingImages (l ++ l') = (loadingImages l ++ loadingImages l')%list.
Proof. unfold loadingImages, mathImages. now rewrite !filter_app. Qed.

Lemma loadingImages_no_img (l : list Node) :
  Forall (fun n => is_img n = false) l -> loadingImages l = [].
Proof.
  unfold loadingImages, mathImages.
  induction 1 as [|n l Hn _ IH]; [reflexivity|]. simpl.
  destruct (is_math_image n); [|exact IH]. simpl. now rewrite Hn.
Qed.

Lemma refused_loadingImages (l : list Node) :
  refused l = match loadingImages l with [] => false | _ => true end.
Proof.
  unfold refused, loadingImages.
  now destruct (mathImages l).
Qed.

(** C2, evaluated.  Formula occurrences that are still loading are not
    seen by the readiness check: a preview made of such occurrences and of
    elements that pass the check is exported, and the fragment is written
    to the clipboard. *)
Theorem export_ignores_loading
        (h : Host) (loading : list (World * Z)) (others : list Node)
        (pg : Page) (inner : string) :
  Forall (fun x => isLoading (fst x) = true) loading ->
  refused others = false ->
  preview pg
  = Some (map (fun x => node_of h (fst x) (snd x)) loading ++ others)%list ->
  innerHTML pg = Some inner ->
  clipboard_api pg = true -> write_ok pg = true ->
  refused (map (fun x => node_of h (fst x) (snd x)) loading ++ others) = false
  /\ handleCopy pg
     = [ClipboardWrite (Markup.export_fragment inner); Alert msg_copied].
Proof.
  intros Hl Ho Hp Hi Ha Hw.
  assert (R : refused (map (fun x => node_of h (fst x) (snd x)) loading
                       ++ others) = false).
  { rewrite refused_loadingImages, loadingImages_app.
    rewrite loadingImages_no_img.
    - simpl. now rewrite <- refused_loadingImages.
    - apply Forall_map. eapply Forall_impl; [|exact Hl].
      intros [w nw] Hx. now apply loading_is_span. }
  split; [exact R|].
  unfold handleCopy. rewrite Hp, R, Hi. unfold commit. now rewrite Ha, Hw.
Qed.

Lemma export_ignores_loading_witness :
  status (run Sample.host (initial Sample.request_e)
            [Effect Sample.request_e true]) = Loading
  /\ refused [node_of Sample.host
                (run Sample.host (initial Sample.request_e)
                   [Effect Sample.request_e true]) 0] = false
  /\ handleCopy Sample.loading_page
     = [ClipboardWrite
          (Markup.export_fragment "<p><span class=math-loading>·</span></p>");
        Alert msg_copied].
Proof.
  split; [reflexivity|].
  apply (export_ignores_loading Sample.host
           [(run Sample.host (initial Sample.request_e)
               [Effect Sample.request_e true], 0%Z)] []
           Sample.loading_page
           "<p><span class=math-loading>·</span></p>").
  - repeat constructor.
  - reflexivity.
  - reflexivity.
  - reflexivity.
  - reflexivity.
  - reflexivity.
Defined.

(** C9, as the specification states it, fails: when the structured write
    is rejected the legacy copy command is not tried, although it would
    succeed; the flow goes to the manual-copy guidance. *)
Lemma rejected_write_skips_legacy_copy :
  handleCopy Sample.rejected_write_page
  = [ClipboardWrite (Markup.export_fragment "<p>x</p>"); ConsoleError;
     Alert msg_manual; RemoveAllRanges; AddRangeContents]
  /\ existsb is_exec (handleCopy Sample.rejected_write_page) = false
  /\ execCommand_copy Sample.rejected_write_page = true.
Proof. repeat split. Qed.

Lemma messages_differ : msg_copied <> msg_manual.
Proof. discriminate. Qed.

(** C9 (amended).  When the export is not refused and either the
    structured clipboard interface or a selection object is at hand: with
    the interface, the fragment is written through it and the legacy copy
    command is not used, whether the write succeeds or not; without it,
    the preview node is selected and the legacy copy command is used, and
    nothing is written through the interface.  Exactly one message is
    shown: the success message when the tier that was tried succeeded,
    else the manual-copy guidance, and then the contents of the preview
    are selected when a selection object is at hand. *)
Theorem clipboard_tiers (pg : Page) (nodes : list Node) (inner : string) :
  preview pg = Some nodes -> refused nodes = false ->
  innerHTML pg = Some inner ->
  clipboard_api pg = true \/ selection pg = true ->
  let acts := handleCopy pg in
  let ok := if clipboard_api pg then write_ok pg else execCommand_copy pg in
  (clipboard_api pg = true ->
   hd_error acts = Some (ClipboardWrite (Markup.export_fragment inner)))
  /\ existsb is_write acts = clipboard_api pg
  /\ existsb is_exec acts = negb (clipboard_api pg)
  /\ alerts acts = [if ok then msg_copied else msg_manual]
  /\ existsb is_select_contents acts = negb ok && selection pg.
Proof.
  intros Hp Hr Hi Hs acts ok. unfold acts, ok, handleCopy.
  rewrite Hp, Hr, Hi. unfold commit, on_error.
  destruct (clipboard_api pg), (write_ok pg), (selection pg),
    (execCommand_copy pg);
    try (destruct Hs; discriminate); now repeat split.
Qed.

Lemma clipboard_tiers_witness :
  let pg := Sample.rejected_write_page in
  let acts := handleCopy pg in
  (clipboard_api pg = true ->
   hd_error acts = Some (ClipboardWrite (Markup.export_fragment "<p>x</p>")))
  /\ existsb is_write acts = clipboard_api pg
  /\ existsb is_exec acts = negb (clipboard_api pg)
  /\ alerts acts
     = [if (if clipboard_api pg then write_ok pg else execCommand_copy pg)
        then msg_copied else msg_manual]
  /\ existsb is_select_contents acts
     = negb (if clipboard_api pg then write_ok pg else execCommand_copy pg)
       && selection pg.
Proof.
  intros pg acts.
  apply (clipboard_tiers Sample.rejected_write_page [] "<p>x</p>").
  - reflexivity.
  - reflexivity.
  - reflexivity.
  - left. reflexivity.
Defined.

End ExportFacts.

(** ** Evaluations *)

Module RasterExamples.
Import JS MathToImage NumberFacts RasterFacts.
Local Open Scope string_scope.
Local Open Scope Q_scope.

Lemma baseFontSize_spec_witness :
  (exists x,
      baseFontSize Sample.host (Sample.block "x") = Px (Some x)
      /\ x == Qmax (1.1 * 16) 18)
  /\ (exists x,
      baseFontSize Sample.host (Sample.inline "x") = Px (Some x)
      /\ x == Qmax (1.0 * 16) 14)
  /\ baseFontSize Sample.host (with_defaults "x") = Px (Some 16).
Proof.
  split; [|split].
  - apply (proj1 (baseFontSize_spec Sample.host (Sample.block "x")) "16px" 16);
      [reflexivity|discriminate|reflexivity].
  - apply (proj1 (baseFontSize_spec Sample.host (Sample.inline "x")) "16px" 16);
      [reflexivity|discriminate|reflexivity].
  - apply (proj2 (baseFontSize_spec Sample.host (with_defaults "x"))).
    reflexivity.
Defined.

(** C3, as the specification states it, fails.  A container 31 pixels
    wide is captured 42 pixels wide at 96 DPI and 83 pixels wide at 192
    DPI, which is not the double; a device pixel ratio of one half is used
    as it is, not raised to 1; and a container 30 pixels high is captured
    126 pixels high at 300 DPI, one more than the ceiling of 30 times
    [300 / 72]: the scale is rounded to binary64 before it is
    multiplied. *)
Lemma doubling_is_not_exact :
  capture_width Sample.host (Sample.with_dpi 96 Sample.request_e) Sample.narrow
  = 42%Z
  /\ capture_width Sample.host (Sample.with_dpi 192 Sample.request_e)
       Sample.narrow = 83%Z
  /\ capture_width Sample.host (Sample.with_dpi 192 Sample.request_e)
       Sample.narrow
     <> (2 * capture_width Sample.host (Sample.with_dpi 96 Sample.request_e)
               Sample.narrow)%Z
  /\ pixel_ratio Sample.zoomed_out == 0.5
  /\ scale (Sample.with_dpi 96 Sample.request_e) Sample.zoomed_out
     == 2 * scale (Sample.with_dpi 96 Sample.request_e) Sample.narrow
  /\ capture_height Sample.host (Sample.with_dpi 300 Sample.request_e)
       Sample.settled = 126%Z
  /\ Qceiling (actualHeight Sample.host Sample.settled * (300 / (72 * 1)))
     = 125%Z.
Proof.
  repeat split; try (vm_compute; reflexivity). vm_compute. discriminate.
Qed.

(** The same sizes on the primitive floating-point numbers: 31 pixels
    scaled for 96 DPI lie between 41 and 42, scaled for 192 DPI between 82
    and 83, and 30 pixels scaled for 300 DPI between 125 and 126. *)
Example doubling_in_binary64 :
  Binary64.strictly_between 41%float (Binary64.scaled 31 96 1)%float = true
  /\ Binary64.strictly_between 82%float (Binary64.scaled 31 192 1)%float
     = true
  /\ Binary64.strictly_between 125%float (Binary64.scaled 30 300 1)%float
     = true.
Proof. repeat split; reflexivity. Qed.

(** The rounding of [JS.double] gives the numbers the primitive
    floating-point operations give: on the scales and scaled sizes of the
    examples, on a quotient that is not exact, on a quotient below the
    normal numbers, and on two products that lie half way between two
    binary64 numbers ([2 ^ 53 + 1] and [2 ^ 53 + 3]). *)
Example double_agrees_with_binary64 :
  forallb (fun c => Binary64.agree (fst c) (snd c))
    [ (Binary64.scale 96 1, fdiv 96 (fmul 72 1));
      (Binary64.scale 192 1, fdiv 192 (fmul 72 1));
      (Binary64.scale 300 1, fdiv 300 (fmul 72 1));
      (Binary64.scale 96 2, fdiv 96 (fmul 72 2));
      (Binary64.scale 300 0.5, fdiv 300 (fmul 72 0.5));
      (Binary64.scaled 31 96 1, fmul 31 (fdiv 96 (fmul 72 1)));
      (Binary64.scaled 31 192 1, fmul 31 (fdiv 192 (fmul 72 1)));
      (Binary64.scaled 30 300 1, fmul 30 (fdiv 300 (fmul 72 1)));
      (Binary64.scaled 66 96 1, fmul 66 (fdiv 96 (fmul 72 1)));
      (Binary64.scaled 29.5 150 1.25,
       fmul 29.5 (fdiv 150 (fmul 72 1.25)));
      ((1 / 3)%float, fdiv 1 3);
      ((0x1p-1060 / 3)%float, fdiv (2 ^ (-1060)) 3);
      ((3 * 3002399751580331)%float, fmul 3 3002399751580331);
      ((5 * 1801439850948199)%float, fmul 5 1801439850948199) ]
  = true.
Proof. vm_compute. reflexivity. Qed.

Lemma capture_scale_spec_witness :
  let p := Sample.with_dpi 150 Sample.request_e in
  let p2 := Sample.with_dpi 300 Sample.request_e in
  let m := Sample.settled in
  (ordinary (targetDPI p) /\ targetDPI p2 == 2 * targetDPI p)
  /\ (is_double (scale p m)
      /\ 0 < scale p m
      /\ (targetDPI p / (72 * pixel_ratio m) * (1 - 2 ^ (-51)) <= scale p m
          /\ scale p m <= targetDPI p / (72 * pixel_ratio m) * (1 + 2 ^ (-51)))
      /\ capture_height Sample.host p m
         = Qceiling (double (actualHeight Sample.host m * scale p m))
      /\ (2 * capture_height Sample.host p m - 1
          <= capture_height Sample.host p2 m
          <= 2 * capture_height Sample.host p m)%Z).
Proof.
  intros p p2 m.
  assert (H1 : ordinary (targetDPI p)) by (split; discriminate).
  assert (H2 : ratio_ordinary (devicePixelRatio m))
    by (right; split; discriminate).
  assert (H3 : sized (actualWidth Sample.host m))
    by (right; split; discriminate).
  assert (H4 : sized (actualHeight Sample.host m))
    by (right; split; discriminate).
  assert (H5 : targetDPI p2 == 2 * targetDPI p) by reflexivity.
  split; [now split|].
  destruct (capture_scale_spec Sample.host p p2 m H1 H2 H3 H4 H5)
    as (_ & _ & _ & B & S & N & _ & _ & _ & W & _ & D).
  exact (conj B (conj S (conj N (conj W D)))).
Defined.

(** The input on which C6 fails.  For an inline formula at 16 pixels whose
    content lies 2.2 pixels below the centre, the adjustment turns a
    vertical padding of 9.6 pixels into one of 2.5 pixels and a horizontal
    padding of 16 pixels into one of 1 pixel: the size of the container
    changes. *)
Example centering_changes_container_size :
  let st := staging_style Sample.host Sample.request_e in
  let st' := adjust_centering Sample.host st
               (Some Sample.low_content) Sample.low_container in
  baseFontSize Sample.host Sample.request_e = Px (Some 16.0)
  /\ 1 < Qabs (offsetY Sample.low_content Sample.low_container
               - (height Sample.low_container - height Sample.low_content) / 2)
  /\ is_number (vertical_padding Sample.host 16 st) 9.6
  /\ is_number (vertical_padding Sample.host 16 st') 2.5
  /\ ~ is_number (vertical_padding Sample.host 16 st') 9.6
  /\ is_number (horizontal_padding Sample.host 16 st) 16
  /\ is_number (horizontal_padding Sample.host 16 st') 1
  /\ ~ is_number (horizontal_padding Sample.host 16 st') 16.
Proof. repeat split; discriminate. Qed.

(** The same measurement on a container whose padding is declared in
    pixels ([4.8px 8px], what [0.3em 0.5em] comes to at 16 pixels): the
    adjustment moves 2.2 pixels from the top to the bottom and the sums
    stay 9.6 and 16 pixels. *)
Example pixel_padding_is_conserved :
  let st := set_style "padding" (Raw "4.8px 8px")
              (staging_style Sample.host Sample.request_e) in
  let st' := adjust_centering Sample.host st
               (Some Sample.low_content) Sample.low_container in
  is_number (used_padding Sample.host 16 STop st') 2.6
  /\ is_number (used_padding Sample.host 16 SBottom st') 7
  /\ is_number (vertical_padding Sample.host 16 st') 9.6
  /\ is_number (horizontal_padding Sample.host 16 st') 16.
Proof. repeat split; vm_compute; reflexivity. Qed.

Lemma centering_writes_em_as_px_witness :
  let k := Sample.low_content in
  let c := Sample.low_container in
  let st := staging_style Sample.host Sample.request_e in
  let st' := adjust_centering Sample.host st (Some k) c in
  (1 < Qabs (offsetY k c) /\ 1 < Qabs (adjustY k c)
   /\ Qabs (adjustX k c) <= Qred 0.5)
  /\ get_style "padding" st = Some (Raw "0.3em 0.5em")
  /\ get_style "paddingTop" st'
     = Some (Px (Some (Qmax 0 (Qred 0.3 + adjustY k c))))
  /\ get_style "paddingBottom" st'
     = Some (Px (Some (Qmax 0 (Qred 0.3 - adjustY k c))))
  /\ is_number (vertical_padding Sample.host 16 st) (2 * Qred 0.3 * 16)
  /\ is_number (vertical_padding Sample.host 16 st')
               (Qred 0.3 + Qmax (Qred 0.3) (Qabs (adjustY k c)))
  /\ is_number (horizontal_padding Sample.host 16 st) (2 * Qred 0.5 * 16)
  /\ is_number (horizontal_padding Sample.host 16 st')
               (Qred 0.5 + Qmax (Qred 0.5) (Qabs (adjustX k c)))
  /\ (is_number (horizontal_padding Sample.host 16 st') (2 * Qred 0.5 * 16)
      <-> 16 == 1).
Proof.
  intros k c st st'.
  assert (Hoff : 1 < Qabs (offsetY k c)) by reflexivity.
  assert (Hay : 1 < Qabs (adjustY k c)) by reflexivity.
  assert (Hax : Qabs (adjustX k c) <= Qred 0.5) by discriminate.
  split; [exact (conj Hoff (conj Hay Hax))|].
  destruct (centering_writes_em_as_px Sample.host Sample.request_e k c
              (Qred 0.3) (Qred 0.5) 16 eq_refl eq_refl eq_refl eq_refl
              (or_intror Hoff))
    as (P & T & B & _ & _ & V & V' & H & H' & _ & I).
  exact (conj P (conj T (conj B (conj V (conj V' (conj H (conj H' (I Hax)))))))).
Defined.
End RasterExamples.

Module LifecycleExamples.
Import JS MathToImage LifecycleFacts.
Local Open Scope string_scope.
Local Open Scope nat_scope.

(** C1, as the specification states it, fails.  Request [a^2] and then
    request [b^2] are issued; the capture of [b^2] resolves first, that of
    [a^2] last.  The occurrence ends with the image computed for [a^2],
    shown under the label of [b^2]. *)
Lemma superseded_result_is_committed :
  let w := run Sample.host (initial Sample.request_a) Sample.stale_last in
  math (props w) = "b^2"
  /\ isLoading w = false
  /\ fst (encode (Sample.canvas "b2") (quality Sample.request_b))
     = Some "data:image/png;base64,b2"
  /\ imageDataUrl w = "data:image/png;base64,a2"
  /\ imageDataUrl w <> "data:image/png;base64,b2"
  /\ src (render Sample.host w) = "data:image/png;base64,a2"
  /\ alt (render Sample.host w) = formula_label ++ "b^2".
Proof. repeat split. discriminate. Qed.

Lemma last_resolved_wins_witness :
  let w := run Sample.host (initial Sample.request_a) Sample.both_capturing in
  imageDataUrl (step Sample.host w (Captured 0 (Some (Sample.canvas "a2"))))
  = "data:image/png;base64,a2"
  /\ imageDataUrl (step Sample.host w (Captured 1 (Some (Sample.canvas "b2"))))
     = "data:image/png;base64,b2"
  /\ imageDataUrl
       (run Sample.host w [Captured 0 (Some (Sample.canvas "a2"));
                           Captured 1 (Some (Sample.canvas "b2"))])
     = "data:image/png;base64,b2"
  /\ imageDataUrl
       (run Sample.host w [Captured 1 (Some (Sample.canvas "b2"));
                           Captured 0 (Some (Sample.canvas "a2"))])
     = "data:image/png;base64,a2".
Proof.
  apply (last_resolved_wins Sample.host Sample.request_a
           Sample.both_capturing 0 1
           (Sample.task_of 0 Sample.request_a)
           (Sample.task_of 1 Sample.request_b)
           (Sample.canvas "a2") (Sample.canvas "b2")).
  - lia.
  - reflexivity.
  - reflexivity.
  - reflexivity.
  - reflexivity.
  - reflexivity.
  - reflexivity.
Defined.

(** C4, as the specification states it, fails.  When neither encoding
    succeeds, the occurrence shows the markup KaTeX renders for the
    formula, without a title: the display is typeset, not text, and
    nothing in it says that the image could not be made.  The notice of a
    failed image belongs to the [onError] handler of a committed image. *)
Lemma double_failure_shows_no_notice :
  let w := run Sample.host (initial Sample.request_e)
               Sample.both_encodings_fail in
  fst (encode Sample.canvas_dead (quality Sample.request_e)) = None
  /\ render Sample.host w
     = {| tag := "span"; class := "math-fallback "; src := ""; alt := "";
          title := None;
          content := Html "<span class=katex>E=mc^2</span>" |}
  /\ title (render Sample.host w) = None
  /\ content (render Sample.host w) <> Text (math (props w))
  /\ title (onError_text (props w)) = Some load_failed_notice.
Proof. repeat split. discriminate. Qed.

Lemma encoding_fallback_witness :
  let w := run Sample.host (initial Sample.request_e) Sample.capturing_e in
  let w' := step Sample.host w (Captured 0 (Some (Sample.canvas_jpeg_only "e"))) in
  encode (Sample.canvas_jpeg_only "e") 1
  = (Some "data:image/jpeg;base64,e",
     [Encode Png 1; Warned; Encode Jpeg (Qmax 1 0.8)])
  /\ imageDataUrl w' = "data:image/jpeg;base64,e" /\ isLoading w' = false.
Proof.
  intros w w'.
  destruct (encoding_fallback Sample.host Sample.request_e
              Sample.capturing_e 0 (Sample.task_of 0 Sample.request_e)
              (Sample.canvas_jpeg_only "e") eq_refl eq_refl)
    as (_ & H & _).
  exact (H "data:image/jpeg;base64,e" eq_refl eq_refl).
Defined.

Lemma staging_detached_exactly_once_witness :
  let w := run Sample.host (initial Sample.request_e)
               Sample.both_encodings_fail in
  attaches 0 (log w) <= 1
  /\ detaches 0 (log w) <= attaches 0 (log w)
  /\ (in_flight 0 w = true ->
      In 0 (body w) /\ attaches 0 (log w) = 1 /\ detaches 0 (log w) = 0)
  /\ (in_flight 0 w = false -> attaches 0 (log w) = 1 ->
      detaches 0 (log w) = 1 /\ ~ In 0 (body w))
  /\ existsb is_cleanup_failure (log w) = false
  /\ in_flight 0 (run Sample.host w [Settled 0 None; Captured 0 None]) = false.
Proof.
  exact (staging_detached_exactly_once Sample.host Sample.request_e
           Sample.both_encodings_fail 0 None None).
Defined.

(** The five ways an attempt ends, each with one attachment and one
    detachment. *)
Example exits_detach_once :
  map (fun evs => log (run Sample.host (initial Sample.request_e) evs))
      [ Sample.capturing_e ++ [Captured 0 (Some (Sample.canvas "e"))];
        [Effect Sample.request_e false];
        [Effect Sample.request_e true; Settled 0 None];
        Sample.capturing_e ++ [Captured 0 None];
        Sample.both_encodings_fail ]%list
  = [ [Attached 0; CaptureRequested 0 88 40; Encode Png 1; Detached 0];
      [Attached 0; ErrorLogged; Detached 0];
      [Attached 0; ErrorLogged; Detached 0];
      [Attached 0; CaptureRequested 0 88 40; ErrorLogged; Detached 0];
      [Attached 0; CaptureRequested 0 88 40; Encode Png 1; Warned;
       Encode Jpeg (Qmax 1 0.8); ErrorLogged; Detached 0] ].
Proof. reflexivity. Qed.
End LifecycleExamples.

(** ** More on the markup *)

Module MarkupMore.
Import Markup MarkupFacts.
Local Open Scope string_scope.
Local Open Scope nat_scope.

(** *** Line breaks in code blocks *)

Lemma replace_newlines_app (a b : string) :
  replace_newlines (a ++ b) = replace_newlines a ++ replace_newlines b.
Proof.
  induction a as [|c a IH]; [reflexivity|]. simpl.
  destruct (Ascii.eqb c newline); simpl; now rewrite IH.
Qed.

Lemma replace_newlines_clean (a : string) :
  lacks newline (replace_newlines a) = true.
Proof.
  induction a as [|c a IH]; [reflexivity|]. simpl.
  destruct (Ascii.eqb c newline) eqn:E; simpl; [exact IH|].
  now rewrite E, IH.
Qed.

Lemma replace_newlines_fixed (a : string) :
  lacks newline a = true -> replace_newlines a = a.
Proof.
  induction a as [|c a IH]; [reflexivity|]. simpl.
  rewrite andb_true_iff, negb_true_iff. intros [E H].
  now rewrite E, IH.
Qed.

(** Step C turns every line feed into a line-break marker and nothing
    else: the text before and after a line feed is treated on its own, no
    line feed is left, text without line feeds is unchanged, and a second
    pass changes nothing. *)
Theorem replace_newlines_spec (a b : string) :
  replace_newlines (a ++ String newline b)
  = replace_newlines a ++ "<br>" ++ replace_newlines b
  /\ lacks newline (replace_newlines a) = true
  /\ (replace_newlines a = a <-> lacks newline a = true)
  /\ replace_newlines (replace_newlines a) = replace_newlines a.
Proof.
  split; [|split; [|split]].
  - rewrite replace_newlines_app. reflexivity.
  - apply replace_newlines_clean.
  - split; [|apply replace_newlines_fixed].
    intros H. rewrite <- H. apply replace_newlines_clean.
  - apply replace_newlines_fixed, replace_newlines_clean.
Qed.

(** *** What an injection leaves alone *)

Lemma occurs_tail (o : string) (c : ascii) (r : string) :
  occurs o (String c r) = false ->
  prefix o (String c r) = false /\ occurs o r = false.
Proof. simpl. now rewrite orb_false_iff. Qed.

(** A fragment in which the opening literal of an injection does not
    occur, or which holds no [>], passes the injection unchanged. *)
Theorem inject_without_match (p : injection) (s : string) :
  occurs (opening p) s = false \/ lacks ">" s = true ->
  inject p s = s.
Proof.
  unfold inject. intros [H|H].
  - induction s as [|c r IH]; [reflexivity|].
    apply occurs_tail in H as [H1 H2].
    rewrite inject_outside, H1. now rewrite IH.
  - assert (G : forall st, inject_from p st s = s).
    { induction s as [|c r IH]; intros st; [reflexivity|].
      simpl in H. apply andb_true_iff in H as [Hc Hr].
      apply negb_true_iff in Hc.
      destruct st.
      - rewrite inject_inside_other by assumption. now rewrite IH.
      - rewrite inject_outside. now rewrite IH. }
    apply G.
Qed.

Lemma inject_without_match_witness :
  inject inj_code "</code></pre><p>1 &gt; 0</p>" = "</code></pre><p>1 &gt; 0</p>".
Proof.
  apply (inject_without_match inj_code "</code></pre><p>1 &gt; 0</p>").
  left. reflexivity.
Defined.

(** *** What an injection matches *)

Lemma prefix_app_self (o t : string) : prefix o (o ++ t) = true.
Proof.
  induction o as [|c o IH]; [apply prefix_nil|].
  change (String c o ++ t) with (String c (o ++ t)).
  now rewrite prefix_cons, Ascii.eqb_refl.
Qed.

Lemma lacks_app (c : ascii) (a b : string) :
  lacks c (a ++ b) = lacks c a && lacks c b.
Proof.
  induction a as [|d a IH]; [reflexivity|]. simpl.
  now rewrite IH, andb_assoc.
Qed.

(** A tag at the head of a text whose text begins with the opening
    literal. *)
Lemma inject_at_head (p : injection) (tail rest : string) :
  wf p = true -> lacks ">" tail = true ->
  inject p (opening p ++ tail ++ ">" ++ rest)
  = opening p ++ tail ++ attr p ++ ">" ++ inject p rest.
Proof.
  intros Hwf Ht. destruct (wf_parts p Hwf) as (Ho & Hg & _).
  unfold inject.
  destruct (opening p) as [|c o] eqn:Eo; [discriminate|].
  change (String c o ++ ?x) with (String c (o ++ x)).
  rewrite inject_outside.
  replace (prefix (opening p) (String c (o ++ tail ++ ">" ++ rest)))
    with true.
  2:{ rewrite Eo. symmetry.
      exact (prefix_app_self (String c o) (tail ++ ">" ++ rest)). }
  f_equal.
  replace (o ++ tail ++ ">" ++ rest)
    with ((o ++ tail) ++ String ">" rest)
    by (rewrite append_assoc; reflexivity).
  rewrite inject_inside_plain.
  - rewrite inject_inside_close, !append_assoc. reflexivity.
  - simpl in Hg. apply andb_true_iff in Hg as [_ Hg].
    now rewrite lacks_app, Hg, Ht.
Qed.

(** *** The wrapper *)

Lemma wrap_parts (inner : string) :
  wrap inner = wrapper_open ++ inner ++ wrapper_close.
Proof. vm_compute. reflexivity. Qed.

(** A literal that begins at a place of a text but does not fit into it
    is cut by the end of the text, which then ends inside a tag. *)
Lemma cut_literal (o x t : string) :
  lacks ">" o = true ->
  prefix o (x ++ t) = true -> prefix o x = false -> lacks ">" x = true.
Proof.
  revert x. induction o as [|a o IH]; intros x Hg H1 H2.
  - now rewrite prefix_nil in H2.
  - destruct x as [|c x]; [reflexivity|].
    simpl in Hg. apply andb_true_iff in Hg as [Ha Hg].
    change (String c x ++ t) with (String c (x ++ t)) in H1.
    rewrite prefix_cons in H1, H2.
    apply andb_true_iff in H1 as [E H1]. rewrite E in H2. simpl in H2.
    apply Ascii.eqb_eq in E. subst c. simpl. rewrite Ha.
    now apply IH.
Qed.

Lemma open_tag_stays_open (x : string) (tag : bool) :
  lacks ">" x = true -> tag = true -> ends_in_tag tag x = true.
Proof.
  revert tag. induction x as [|c x IH]; intros tag H Ht; [exact Ht|].
  simpl in H. apply andb_true_iff in H as [Hc Hx].
  apply negb_true_iff in Hc. simpl. rewrite Hc.
  destruct (Ascii.eqb c "<"); now apply IH.
Qed.

Lemma prefix_app_more (o x t : string) :
  prefix o x = true -> prefix o (x ++ t) = true.
Proof.
  revert x. induction o as [|a o IH]; intros x H; [apply prefix_nil|].
  destruct x as [|c x]; [discriminate|].
  change (String c x ++ t) with (String c (x ++ t)).
  rewrite prefix_cons in *. apply andb_true_iff in H as [E H].
  now rewrite E, IH.
Qed.

(** Behind a text that does not end inside a tag the scanner is idle:
    what follows is rewritten as if it stood alone. *)
Lemma inject_after_closed (p : injection) :
  wf p = true ->
  forall x t st tag,
    (st = true -> tag = true) ->
    ends_in_tag tag x = false ->
    inject_from p st (x ++ t)
    = inject_from p st x ++ inject_from p false t.
Proof.
  intros Hwf. destruct (wf_parts p Hwf) as (Ho & Hg & _).
  induction x as [|c x IH]; intros t st tag Hst Hend.
  - simpl in Hend. subst tag. destruct st; [|reflexivity].
    now specialize (Hst eq_refl).
  - change (String c x ++ t) with (String c (x ++ t)).
    destruct st.
    + specialize (Hst eq_refl). subst tag.
      destruct (Ascii.eqb c ">") eqn:Ec.
      * apply Ascii.eqb_eq in Ec as ->. rewrite !inject_inside_close.
        simpl in Hend.
        rewrite (IH t false false) by (assumption || discriminate).
        now rewrite append_assoc.
      * rewrite !inject_inside_other by assumption.
        rewrite (IH t true true); [reflexivity|reflexivity|].
        simpl in Hend. rewrite Ec in Hend.
        now destruct (Ascii.eqb c "<").
    + rewrite !inject_outside.
      assert (Hpre : prefix (opening p) (String c (x ++ t))
                     = prefix (opening p) (String c x)).
      { destruct (prefix (opening p) (String c x)) eqn:E1.
        - exact (prefix_app_more _ (String c x) t E1).
        - destruct (prefix (opening p) (String c (x ++ t))) eqn:E2;
            [exfalso|reflexivity].
          pose proof (cut_literal _ (String c x) t Hg E2 E1) as Hl.
          destruct (prefix_head _ _ _ Ho E2) as [r Hr].
          injection Hr as -> _.
          simpl in Hend.
          assert (Hx : lacks ">" x = true) by (simpl in Hl; exact Hl).
          now rewrite (open_tag_stays_open x true Hx eq_refl) in Hend. }
      rewrite Hpre.
      destruct (prefix (opening p) (String c x)) eqn:E.
      * destruct (prefix_head _ _ _ Ho E) as [r Hr]. injection Hr as -> _.
        simpl in Hend.
        now rewrite (IH t true true) by (assumption || reflexivity).
      * assert (Hend' : exists tag', ends_in_tag tag' x = false).
        { simpl in Hend.
          destruct (Ascii.eqb c "<"); [now exists true|].
          destruct (Ascii.eqb c ">"); [now exists false|now exists tag]. }
        destruct Hend' as [tag' Hend'].
        now rewrite (IH t false tag') by (assumption || discriminate).
Qed.

(** An injection rewrites every tag whose text begins with its opening
    literal, wherever the tag stands in the fragment and whatever follows
    the literal up to the [>]: behind a text that does not end inside a
    tag, the tag keeps what it had and the style attribute is written
    behind it, and the texts before and after the tag are rewritten each
    on its own.  So the pattern for header cells also rewrites [<thead>],
    and a tag that already carries a style attribute ends up with two. *)
Theorem inject_rewrites_tag (p : injection) (before tail rest : string) :
  wf p = true -> ends_in_tag false before = false ->
  lacks ">" tail = true ->
  inject p (before ++ opening p ++ tail ++ ">" ++ rest)
  = inject p before ++ opening p ++ tail ++ attr p ++ ">" ++ inject p rest.
Proof.
  intros Hwf Hb Ht. unfold inject at 1.
  rewrite (inject_after_closed p Hwf before _ false false);
    [|discriminate|exact Hb].
  fold (inject p before) (inject p (opening p ++ tail ++ ">" ++ rest)).
  now rewrite inject_at_head.
Qed.

Lemma inject_rewrites_tag_witness :
  inject inj_th ("<table><caption>t</caption>" ++ "<th" ++ "ead" ++ ">"
                 ++ "<tr><th>a</th></tr>")
  = inject inj_th "<table><caption>t</caption>"
    ++ "<th" ++ "ead" ++ attr inj_th ++ ">"
    ++ inject inj_th "<tr><th>a</th></tr>"
  /\ inject inj_table
       ("<p>x</p>" ++ "<table"
        ++ (" style=" ++ dquote ++ "width: 100%;" ++ dquote)
        ++ ">" ++ "<tr></tr></table>")
     = inject inj_table "<p>x</p>" ++ "<table"
       ++ (" style=" ++ dquote ++ "width: 100%;" ++ dquote)
       ++ attr inj_table ++ ">" ++ inject inj_table "<tr></tr></table>".
Proof.
  split.
  - apply (inject_rewrites_tag inj_th "<table><caption>t</caption>" "ead"
             "<tr><th>a</th></tr>"); reflexivity.
  - apply (inject_rewrites_tag inj_table "<p>x</p>"
             (" style=" ++ dquote ++ "width: 100%;" ++ dquote)
             "<tr></tr></table>"); reflexivity.
Defined.

Lemma ends_in_tag_plain (u t : string) (tag : bool) :
  lacks "<" u = true -> lacks ">" u = true ->
  ends_in_tag tag (u ++ t) = ends_in_tag tag t.
Proof.
  induction u as [|c u IH]; intros Hl Hg; [reflexivity|].
  simpl in Hl, Hg.
  apply andb_true_iff in Hl as [Hl Hl'], Hg as [Hg Hg'].
  apply negb_true_iff in Hl, Hg.
  simpl. rewrite Hl, Hg. now apply IH.
Qed.

Lemma ends_in_tag_inject (p : injection) :
  wf p = true ->
  forall s st tag, ends_in_tag tag (inject_from p st s) = ends_in_tag tag s.
Proof.
  intros Hwf. destruct (wf_parts p Hwf) as (_ & _ & _ & _ & Hl & Hg).
  induction s as [|c r IH]; intros st tag; [reflexivity|].
  destruct st.
  - destruct (Ascii.eqb c ">") eqn:Ec.
    + apply Ascii.eqb_eq in Ec as ->. rewrite inject_inside_close.
      rewrite ends_in_tag_plain by assumption. simpl. apply IH.
    + rewrite inject_inside_other by assumption.
      simpl. rewrite Ec, !IH. reflexivity.
  - rewrite inject_outside. simpl. now rewrite !IH.
Qed.

Lemma wrapper_untouched (p : injection) :
  In p injections ->
  inject p wrapper_open = wrapper_open
  /\ inject p wrapper_close = wrapper_close.
Proof.
  intros Hp.
  assert (H : forallb (fun q => String.eqb (inject q wrapper_open) wrapper_open
                                && String.eqb (inject q wrapper_close)
                                              wrapper_close)
                      injections = true) by (vm_compute; reflexivity).
  rewrite forallb_forall in H. specialize (H p Hp).
  apply andb_true_iff in H as [H1 H2].
  apply String.eqb_eq in H1. apply String.eqb_eq in H2.
  split; assumption.
Qed.

(** Injections that leave two texts alone, the first of which does not end
    inside a tag, work between them as they work on the text in between. *)
Lemma apply_all_between (front back : string) (l : list injection) :
  ends_in_tag false front = false ->
  (forall p, In p l ->
             wf p = true /\ inject p front = front /\ inject p back = back) ->
  forall s, ends_in_tag false s = false ->
    apply_all l (front ++ s ++ back) = front ++ apply_all l s ++ back.
Proof.
  intros Hfront.
  induction l as [|p l IH]; intros Hl s Hs; [reflexivity|].
  rewrite !apply_all_cons.
  destruct (Hl p (or_introl eq_refl)) as (Hwf & Wo & Wc).
  assert (E : inject p (front ++ s ++ back) = front ++ inject p s ++ back).
  { unfold inject.
    rewrite (inject_after_closed p Hwf front (s ++ back) false false);
      [|discriminate|exact Hfront].
    rewrite (inject_after_closed p Hwf s back false false);
      [|discriminate|exact Hs].
    fold (inject p front) (inject p back) (inject p s).
    rewrite Wo, Wc. reflexivity. }
  rewrite E. apply IH.
  - intros q Hq. apply Hl. now right.
  - unfold inject. rewrite ends_in_tag_inject by exact Hwf. exact Hs.
Qed.

Lemma wrapper_open_closed : ends_in_tag false wrapper_open = false.
Proof. vm_compute. reflexivity. Qed.

(** When the serialized preview does not end inside a tag, the fragment
    handed to the clipboard is the wrapper's opening tag, the preview with
    all injections applied, and the wrapper's closing tag: the injections
    never rewrite the wrapper. *)
Theorem export_fragment_parts (inner : string) :
  ends_in_tag false inner = false ->
  export_fragment inner
  = wrapper_open ++ apply_all injections inner ++ wrapper_close.
Proof.
  intros H. unfold export_fragment. rewrite wrap_parts.
  apply apply_all_between; [exact wrapper_open_closed| |exact H].
  intros p Hp. split; [exact (injections_wf p Hp)|].
  exact (wrapper_untouched p Hp).
Qed.

Lemma export_fragment_parts_witness :
  export_fragment "<h1>T</h1><p><code>x</code></p>"
  = wrapper_open
    ++ apply_all injections "<h1>T</h1><p><code>x</code></p>"
    ++ wrapper_close.
Proof.
  apply (export_fragment_parts "<h1>T</h1><p><code>x</code></p>").
  reflexivity.
Defined.

End MarkupMore.

(** ** Code blocks in the fragment *)

Module FragmentFacts.
Import Markup MarkupFacts MarkupMore.
Local Open Scope string_scope.
Local Open Scope nat_scope.

(** *** Texts that follow one another *)

(** Behind a text that does not end inside a tag, the injections work on
    what follows as they work on it alone. *)
Lemma apply_all_app (l : list injection) :
  (forall p, In p l -> wf p = true) ->
  forall x y, ends_in_tag false x = false ->
    apply_all l (x ++ y) = apply_all l x ++ apply_all l y.
Proof.
  induction l as [|p l IH]; intros Hl x y Hx; [reflexivity|].
  rewrite !apply_all_cons.
  pose proof (Hl p (or_introl eq_refl)) as Hwf.
  unfold inject.
  rewrite (inject_after_closed p Hwf x y false false);
    [|discriminate|exact Hx].
  apply IH.
  - intros q Hq. apply Hl. now right.
  - now rewrite ends_in_tag_inject.
Qed.

Lemma apply_all_fixed (l : list injection) (s : string) :
  (forall p, In p l -> inject p s = s) -> apply_all l s = s.
Proof.
  induction l as [|p l IH]; intros Hl; [reflexivity|].
  rewrite apply_all_cons, (Hl p (or_introl eq_refl)).
  apply IH. intros q Hq. apply Hl. now right.
Qed.

Lemma ends_in_tag_close (u r : string) (tag : bool) :
  ends_in_tag tag (u ++ String ">" r) = ends_in_tag false r.
Proof.
  revert tag. induction u as [|c u IH]; intros tag; [reflexivity|].
  change (String c u ++ ?x) with (String c (u ++ x)).
  cbn [ends_in_tag]. destruct (Ascii.eqb c "<"); [apply IH|].
  destruct (Ascii.eqb c ">"); apply IH.
Qed.

(** *** Tags of other elements *)

Lemma inject_idle_plain (q : injection) (u : string) :
  wf q = true -> lacks "<" u = true -> inject_from q false u = u.
Proof.
  intros Hwf. induction u as [|c u IH]; intros H; [reflexivity|].
  simpl in H. apply andb_true_iff in H as [Hc Hu].
  apply negb_true_iff in Hc.
  rewrite (inject_outside_other q Hwf) by assumption. now rewrite IH.
Qed.

(** A tag [<NAME ...>] whose name is not comparable with the opening
    literal of an injection, and which holds no other [<], passes the
    injection unchanged. *)
Lemma inject_foreign_tag (q : injection) (name body : string) :
  wf q = true ->
  prefix (opening q) (String "<" name) = false ->
  prefix (String "<" name) (opening q) = false ->
  lacks "<" (name ++ body) = true ->
  inject q (String "<" name ++ body) = String "<" name ++ body.
Proof.
  intros Hwf H1 H2 Hl. unfold inject.
  change (String "<" name ++ body) with (String "<" (name ++ body)).
  rewrite inject_outside.
  replace (prefix (opening q) (String "<" (name ++ body))) with false.
  - now rewrite inject_idle_plain.
  - symmetry.
    destruct (prefix (opening q) (String "<" (name ++ body))) eqn:E;
      [|reflexivity].
    pose proof (prefix_app_self (String "<" name) body) as S.
    change (String "<" name ++ body) with (String "<" (name ++ body)) in S.
    destruct (prefix_comparable _ _ _ E S); congruence.
Qed.

Lemma injections_leave_tag (l : list injection) (name body : string) :
  (forall p, In p l -> wf p = true) ->
  forallb (foreign (String "<" name)) l = true ->
  lacks "<" (name ++ body) = true ->
  apply_all l (String "<" name ++ body) = String "<" name ++ body.
Proof.
  intros Hwf Hf Hl. apply apply_all_fixed. intros q Hq.
  rewrite forallb_forall in Hf. specialize (Hf q Hq).
  unfold foreign in Hf. apply andb_true_iff in Hf as [F1 F2].
  apply negb_true_iff in F1, F2.
  now apply inject_foreign_tag; [apply Hwf| | |].
Qed.

(** *** Code blocks *)

Lemma injections_code_first : injections = inj_code :: later_injections.
Proof. reflexivity. Qed.

Lemma later_injections_wf (p : injection) :
  In p later_injections -> wf p = true.
Proof. intros H. apply injections_wf. rewrite injections_code_first. now right. Qed.

(** The injections on a [<code ...>] tag behind a closed text: the one for
    [<code] writes its attribute, the later ones leave the tag alone. *)
Lemma apply_all_code_tag (x a y : string) :
  ends_in_tag false x = false ->
  lacks "<" a = true -> lacks ">" a = true ->
  apply_all injections (x ++ "<code" ++ a ++ ">" ++ y)
  = apply_all injections x
    ++ "<code" ++ a ++ attr inj_code ++ ">" ++ apply_all injections y.
Proof.
  intros Hx Hl Hg.
  assert (W : wf inj_code = true) by (vm_compute; reflexivity).
  destruct (wf_parts inj_code W) as (_ & _ & _ & _ & Al & Ag).
  rewrite injections_code_first, !apply_all_cons.
  assert (E : inject inj_code (x ++ "<code" ++ a ++ ">" ++ y)
              = inject inj_code x
                ++ "<code" ++ a ++ attr inj_code ++ ">" ++ inject inj_code y).
  { unfold inject at 1.
    rewrite (inject_after_closed inj_code W x _ false false);
      [|discriminate|exact Hx].
    fold (inject inj_code x). f_equal.
    exact (inject_at_head inj_code a y W Hg). }
  rewrite E. clear E.
  set (x' := inject inj_code x). set (y' := inject inj_code y).
  set (att := attr inj_code) in *.
  assert (Hx' : ends_in_tag false x' = false).
  { unfold x', inject. now rewrite ends_in_tag_inject. }
  rewrite (apply_all_app later_injections later_injections_wf x' _ Hx').
  replace ("<code" ++ a ++ att ++ ">" ++ y')
    with (("<code" ++ a ++ att ++ ">") ++ y')
    by (rewrite !append_assoc; reflexivity).
  rewrite (apply_all_app later_injections later_injections_wf _ y').
  2:{ replace ("<code" ++ a ++ att ++ ">")
        with (("<code" ++ a ++ att) ++ String ">" "")
        by (rewrite !append_assoc; reflexivity).
      now rewrite ends_in_tag_close. }
  rewrite (injections_leave_tag later_injections "code" (a ++ att ++ ">")).
  - now rewrite !append_assoc.
  - exact later_injections_wf.
  - vm_compute. reflexivity.
  - change ("code" ++ a ++ att ++ ">") with ("code" ++ (a ++ att ++ ">")).
    rewrite !lacks_app, Hl, Al. reflexivity.
Qed.

Lemma apply_all_pre_tag (pa : string) :
  lacks "<" pa = true ->
  apply_all injections ("<pre" ++ pa ++ ">") = "<pre" ++ pa ++ ">".
Proof.
  intros Hl.
  apply (injections_leave_tag injections "pre" (pa ++ ">")).
  - exact injections_wf.
  - vm_compute. reflexivity.
  - change ("pre" ++ pa ++ ">") with ("pre" ++ (pa ++ ">")).
    rewrite !lacks_app, Hl. reflexivity.
Qed.

(** C10.  In the fragment handed to the clipboard, the [<code ...>] tag
    that follows a [<pre ...>] tag carries the inline-code style
    attribute, [white-space: nowrap] included, while the [<pre ...>] tag
    is as the serialization gave it: the injection for inline code
    rewrites the code element of a code block like any other, whatever
    precedes the block and whatever its content is (line-break markers of
    Step C included), and no later injection touches the two tags. *)
Theorem block_code_gets_inline_style
        (before pre_attrs code_attrs rest : string) :
  ends_in_tag false before = false ->
  lacks "<" pre_attrs = true ->
  lacks "<" code_attrs = true -> lacks ">" code_attrs = true ->
  ends_in_tag false rest = false ->
  export_fragment
    (before ++ "<pre" ++ pre_attrs ++ ">"
     ++ "<code" ++ code_attrs ++ ">" ++ rest)
  = wrapper_open ++ apply_all injections before
    ++ "<pre" ++ pre_attrs ++ ">"
    ++ "<code" ++ code_attrs ++ attr inj_code ++ ">"
    ++ apply_all injections rest ++ wrapper_close
  /\ exists a b,
       attr inj_code
       = " style=" ++ dquote ++ a ++ "white-space: nowrap; " ++ b ++ dquote.
Proof.
  intros Hb Hp Hl Hg Hr. split.
  - set (pre := "<pre" ++ pre_attrs ++ ">").
    assert (Hpre : ends_in_tag false (before ++ pre) = false).
    { unfold pre.
      replace (before ++ "<pre" ++ pre_attrs ++ ">")
        with ((before ++ "<pre" ++ pre_attrs) ++ String ">" "")
        by (rewrite !append_assoc; reflexivity).
      now rewrite ends_in_tag_close. }
    assert (Hin : ends_in_tag false
                    (before ++ pre ++ "<code" ++ code_attrs ++ ">" ++ rest)
                  = false).
    { replace (before ++ pre ++ "<code" ++ code_attrs ++ ">" ++ rest)
        with ((before ++ pre ++ "<code" ++ code_attrs) ++ String ">" rest)
        by (rewrite !append_assoc; reflexivity).
      now rewrite ends_in_tag_close. }
    replace (before ++ "<pre" ++ pre_attrs ++ ">"
             ++ "<code" ++ code_attrs ++ ">" ++ rest)
      with (before ++ pre ++ "<code" ++ code_attrs ++ ">" ++ rest)
      by (unfold pre; rewrite !append_assoc; reflexivity).
    unfold export_fragment. rewrite wrap_parts.
    rewrite (apply_all_between wrapper_open wrapper_close injections
               wrapper_open_closed); [| |exact Hin].
    2:{ intros p Hq. split; [exact (injections_wf p Hq)|].
        exact (wrapper_untouched p Hq). }
    f_equal.
    replace (before ++ pre ++ "<code" ++ code_attrs ++ ">" ++ rest)
      with ((before ++ pre) ++ "<code" ++ code_attrs ++ ">" ++ rest)
      by (rewrite !append_assoc; reflexivity).
    rewrite (apply_all_code_tag (before ++ pre) code_attrs rest Hpre Hl Hg).
    rewrite (apply_all_app injections injections_wf before pre Hb).
    unfold pre. rewrite (apply_all_pre_tag pre_attrs Hp).
    rewrite !append_assoc. reflexivity.
  - exists ("background-color: #f1f3f4; color: #c7254e; padding: 2px 6px; "
            ++ "margin: 0 2px; font-family: Consolas, " ++ squote
            ++ "Courier New" ++ squote ++ ", Monaco, monospace; "
            ++ "font-size: 90%; font-weight: normal; "
            ++ "border: 1px solid #d1d5db; border-radius: 3px; "
            ++ "word-wrap: break-word; "),
           "vertical-align: baseline; mso-element: span;".
    vm_compute. reflexivity.
Qed.

Lemma block_code_gets_inline_style_witness :
  let content := replace_newlines ("line1" ++ nl ++ "line2") in
  content = "line1<br>line2"
  /\ export_fragment
       ("<p>x</p>" ++ "<pre" ++ " style=white-space:pre-wrap" ++ ">"
        ++ "<code" ++ " class=hljs" ++ ">"
        ++ (content ++ "</code></pre>"))
     = wrapper_open ++ apply_all injections "<p>x</p>"
       ++ "<pre" ++ " style=white-space:pre-wrap" ++ ">"
       ++ "<code" ++ " class=hljs" ++ attr inj_code ++ ">"
       ++ apply_all injections (content ++ "</code></pre>")
       ++ wrapper_close
  /\ exists a b,
       attr inj_code
       = " style=" ++ dquote ++ a ++ "white-space: nowrap; " ++ b ++ dquote.
Proof.
  intros content. split; [reflexivity|].
  apply (block_code_gets_inline_style "<p>x</p>"
           " style=white-space:pre-wrap" " class=hljs"
           (content ++ "</code></pre>")); reflexivity.
Defined.

End FragmentFacts.

(** ** More on the life of an instance *)

Module LifecycleMore.
Import JS MathToImage LifecycleFacts.
Local Open Scope string_scope.
Local Open Scope nat_scope.

Section Runs.

Variable h : Host.

(** *** What leaving an attempt changes *)

Lemma release_keeps (n : nat) (w : World) :
  match release n w with
  | Some w' =>
      imageDataUrl w' = imageDataUrl w /\ isLoading w' = isLoading w
      /\ tasks w' = tasks w /\ fresh w' = fresh w /\ props w' = props w
  | None => False
  end.
Proof.
  unfold release, has_parent, removeChild.
  destruct (existsb (Nat.eqb n) (body w)); now repeat split.
Qed.

Lemma on_failure_keeps (n : nat) (w : World) :
  imageDataUrl (on_failure n w) = imageDataUrl w
  /\ isLoading (on_failure n w) = false
  /\ tasks (on_failure n w) = tasks w
  /\ fresh (on_failure n w) = fresh w
  /\ props (on_failure n w) = props w.
Proof.
  unfold on_failure.
  pose proof (release_keeps n (write [ErrorLogged] w)) as H.
  destruct (release n (write [ErrorLogged] w)) as [w'|]; [|contradiction].
  destruct H as (A & B & C & D & E). simpl.
  rewrite A, C, D, E. now repeat split.
Qed.

Lemma on_success_keeps (n : nat) (d : string) (w : World) :
  imageDataUrl (on_success n d w) = d
  /\ isLoading (on_success n d w) = false
  /\ tasks (on_success n d w) = tasks w
  /\ fresh (on_success n d w) = fresh w
  /\ props (on_success n d w) = props w.
Proof.
  unfold on_success.
  pose proof (release_keeps n (setImageDataUrl d w)) as H.
  destruct (release n (setImageDataUrl d w)) as [w'|]; [|contradiction].
  destruct H as (A & B & C & D & E). simpl.
  rewrite A, C, D, E. now repeat split.
Qed.

(** *** Loading ends with the last attempt *)

Lemma effect_loading (w : World) (p : Props) (ty : bool) :
  isLoading (step h w (Effect p ty)) = true ->
  tasks (step h w (Effect p ty)) <> [].
Proof.
  simpl. destruct (blank (math p)); [discriminate|].
  destruct ty.
  - intros _. simpl. now destruct (tasks w).
  - intros H.
    now rewrite (proj1 (proj2 (on_failure_keeps _ _))) in H.
Qed.

Lemma step_loading (w : World) (e : Event) :
  (isLoading w = true -> tasks w <> []) ->
  isLoading (step h w e) = true -> tasks (step h w e) <> [].
Proof.
  intros J. destruct e as [p ty|n m|n c]; [apply effect_loading| |]; simpl.
  - destruct (find_task n w) as [t|] eqn:Hf; [|exact J].
    destruct (phase t); [|exact J].
    destruct m as [m|].
    + simpl. intros H. specialize (J H).
      destruct (tasks w); [contradiction|discriminate].
    + intros H.
      now rewrite (proj1 (proj2 (on_failure_keeps _ _))) in H.
  - destruct (find_task n w) as [t|] eqn:Hf; [|exact J].
    destruct (phase t); [exact J|].
    destruct c as [c|].
    + destruct (encode c (quality (request t))) as [[d|] es]; intros H.
      * now rewrite (proj1 (proj2 (on_success_keeps _ _ _))) in H.
      * now rewrite (proj1 (proj2 (on_failure_keeps _ _))) in H.
    + intros H.
      now rewrite (proj1 (proj2 (on_failure_keeps _ _))) in H.
Qed.

Lemma run_loading (es : list Event) (w : World) :
  (isLoading w = true -> tasks w <> []) ->
  isLoading (run h w es) = true -> tasks (run h w es) <> [].
Proof.
  revert w. induction es as [|e es IH]; intros w J; [exact J|].
  simpl. apply IH. now apply step_loading.
Qed.

(** From the first run of the effect on, the loading placeholder is
    shown only while an attempt is in flight: once no attempt is left
    the instance shows an image or the fallback, whatever happened to
    the attempts. *)
Theorem loading_needs_an_attempt
        (p p0 : Props) (typeset : bool) (es : list Event) :
  let w := run h (initial p) (Effect p0 typeset :: es) in
  (isLoading w = true -> tasks w <> [])
  /\ (tasks w = [] -> status w <> Loading).
Proof.
  intros w.
  assert (J : isLoading w = true -> tasks w <> []).
  { unfold w.
    change (run h (initial p) (Effect p0 typeset :: es))
      with (run h (step h (initial p) (Effect p0 typeset)) es).
    apply run_loading, effect_loading. }
  split; [exact J|].
  intros Ht. unfold status.
  destruct (isLoading w) eqn:L.
  - now elim (J eq_refl).
  - destruct (imageDataUrl w); discriminate.
Qed.

(** *** The image shown changes only when a capture is encoded *)

(** The image an instance holds changes only when the capture of an
    attempt in flight is encoded, and then to the data URL of that
    encoding: a new request, a blank source or a failure never clears
    the image of an earlier request. *)
Theorem image_changes_only_when_encoded (w : World) (e : Event) :
  imageDataUrl (step h w e) <> imageDataUrl w ->
  exists n c t d,
    e = Captured n (Some c)
    /\ find_task n w = Some t /\ phase t = Capturing
    /\ fst (encode c (quality (request t))) = Some d
    /\ imageDataUrl (step h w e) = d.
Proof.
  destruct e as [p ty|n m|n c]; simpl.
  - destruct (blank (math p)); [now intros []|].
    destruct ty; [now intros []|].
    rewrite (proj1 (on_failure_keeps _ _)). now intros [].
  - destruct (find_task n w) as [t|]; [|now intros []].
    destruct (phase t); [|now intros []].
    destruct m as [m|]; [now intros []|].
    rewrite (proj1 (on_failure_keeps _ _)). now intros [].
  - destruct (find_task n w) as [t|] eqn:Hf; [|now intros []].
    destruct (phase t) eqn:Hp; [now intros []|].
    destruct c as [c|].
    + destruct (encode c (quality (request t))) as [[d|] es] eqn:E.
      * intros _. exists n, c, t, d.
        rewrite (proj1 (on_success_keeps _ _ _)).
        repeat split; try assumption. now rewrite E.
      * rewrite (proj1 (on_failure_keeps _ _)). now intros [].
    + rewrite (proj1 (on_failure_keeps _ _)). now intros [].
Qed.

(** *** One container for each request with a source *)

Lemma step_fresh (w : World) (e : Event) :
  fresh (step h w e) = fresh w + (if starts_attempt e then 1 else 0).
Proof.
  destruct e as [p ty|n m|n c]; simpl.
  - destruct (blank (math p)); [simpl; lia|].
    destruct ty; [simpl; lia|].
    rewrite (proj1 (proj2 (proj2 (proj2 (on_failure_keeps _ _))))).
    simpl. lia.
  - rewrite Nat.add_0_r.
    destruct (find_task n w) as [t|]; [|reflexivity].
    destruct (phase t); [|reflexivity].
    destruct m as [m|]; [reflexivity|].
    now rewrite (proj1 (proj2 (proj2 (proj2 (on_failure_keeps _ _))))).
  - rewrite Nat.add_0_r.
    destruct (find_task n w) as [t|]; [|reflexivity].
    destruct (phase t); [reflexivity|].
    destruct c as [c|].
    + destruct (encode c (quality (request t))) as [[d|] es].
      * now rewrite (proj1 (proj2 (proj2 (proj2 (on_success_keeps _ _ _))))).
      * now rewrite (proj1 (proj2 (proj2 (proj2 (on_failure_keeps _ _))))).
    + now rewrite (proj1 (proj2 (proj2 (proj2 (on_failure_keeps _ _))))).
Qed.

Lemma run_fresh (es : list Event) (w : World) :
  fresh (run h w es) = fresh w + length (filter starts_attempt es).
Proof.
  revert w. induction es as [|e es IH]; intros w; simpl; [lia|].
  rewrite IH, step_fresh. destruct (starts_attempt e); simpl; lia.
Qed.

(** A staging container is created and attached once for every run of
    the effect whose source is not blank, whether typesetting succeeds or
    not, and for nothing else: a source that is empty or white space
    creates none. *)
Theorem one_container_per_request (p : Props) (es : list Event) (n : nat) :
  let w := run h (initial p) es in
  fresh w = length (filter starts_attempt es)
  /\ attaches n (log w)
     = (if n <? length (filter starts_attempt es) then 1 else 0).
Proof.
  intros w.
  assert (F : fresh w = length (filter starts_attempt es))
    by (unfold w; now rewrite run_fresh).
  split; [exact F|].
  assert (HI : Inv w) by (apply run_inv, initial_inv).
  destruct HI as [_ [_ _ CA _ _]]. now rewrite CA, F.
Qed.

End Runs.

End LifecycleMore.

(** ** More on sizes and padding *)

Module RasterMore.
Import JS MathToImage NumberFacts DoubleFacts RasterFacts.
Local Open Scope string_scope.
Local Open Scope Q_scope.

(** *** Splitting at blanks *)

Lemma append_nil_r (s : string) : s ++ "" = s.
Proof. induction s as [|c s IH]; simpl; [reflexivity|now rewrite IH]. Qed.

Lemma split_token_from (t : string) :
  Markup.lacks " " t = true ->
  forall cur rest,
    split_space_from cur (t ++ String " " rest)
    = (cur ++ t) :: split_space_from "" rest.
Proof.
  induction t as [|c t IH]; intros H cur rest.
  - simpl. now rewrite append_nil_r.
  - simpl in H. apply andb_true_iff in H as [Hc Ht].
    apply negb_true_iff in Hc. simpl. rewrite Hc, IH by assumption.
    now rewrite MarkupFacts.append_assoc.
Qed.

Lemma split_last_token_from (t : string) :
  Markup.lacks " " t = true ->
  forall cur, split_space_from cur t = [cur ++ t].
Proof.
  induction t as [|c t IH]; intros H cur.
  - simpl. now rewrite append_nil_r.
  - simpl in H. apply andb_true_iff in H as [Hc Ht].
    apply negb_true_iff in Hc. simpl. rewrite Hc, IH by assumption.
    now rewrite MarkupFacts.append_assoc.
Qed.

(** Splitting the join of pieces that hold no blank gives the pieces
    back. *)
Lemma split_joined_tokens (tokens : list string) :
  tokens <> [] -> forallb (Markup.lacks " ") tokens = true ->
  split_space (join_space tokens) = tokens.
Proof.
  intros Hne Hall.
  unfold split_space, join_space.
  induction tokens as [|t ts IH]; [contradiction|].
  simpl in Hall. apply andb_true_iff in Hall as [Ht Hts].
  destruct ts as [|u ts].
  - simpl. now rewrite split_last_token_from.
  - change (String.concat " " (t :: u :: ts))
      with (t ++ String " " (String.concat " " (u :: ts))).
    rewrite split_token_from by assumption.
    rewrite IH by (assumption || discriminate). reflexivity.
Qed.

(** *** The padding that the centering adjustment reads *)

Lemma join_tokens_nonempty (tokens : list string) :
  tokens <> [] -> forallb is_token tokens = true ->
  join_space tokens <> "".
Proof.
  intros Hne Hall. destruct tokens as [|t ts]; [contradiction|].
  simpl in Hall. apply andb_true_iff in Hall as [Ht _].
  unfold is_token in Ht. apply andb_true_iff in Ht as [Ht _].
  destruct t as [|c t]; [discriminate|].
  unfold join_space. simpl. now destruct ts.
Qed.

Lemma tokens_lack_blank (tokens : list string) :
  forallb is_token tokens = true ->
  forallb (Markup.lacks " ") tokens = true.
Proof.
  rewrite !forallb_forall. intros H t Ht. specialize (H t Ht).
  unfold is_token in H. now apply andb_true_iff in H.
Qed.

Lemma str_or_token (t d : string) :
  is_token t = true -> str_or (Some t) d = t.
Proof.
  unfold is_token. rewrite andb_true_iff. intros [H _].
  now destruct t.
Qed.

Section WithHost.

Variable h : Host.

(** The four numbers the adjustment reads from a padding shorthand of
    one to four values are the numeric parts of the sides that CSS gives
    the shorthand. *)
Theorem read_padding_shorthand
        (st : Style) (tokens : list string) (t r b l : string) :
  get_style "padding" st = Some (Raw (join_space tokens)) ->
  forallb is_token tokens = true ->
  shorthand_sides tokens = Some (t, r, b, l) ->
  read_padding h st
  = {| paddingTop := parseFloat h t; paddingRight := parseFloat h r;
       paddingBottom := parseFloat h b; paddingLeft := parseFloat h l |}.
Proof.
  intros Hget Hall Hsides.
  assert (Hne : tokens <> []) by (now destruct tokens).
  assert (Hcp : currentPadding st = tokens).
  { unfold currentPadding. rewrite Hget.
    pose proof (join_tokens_nonempty tokens Hne Hall) as Hj.
    destruct (join_space tokens) as [|c s] eqn:E; [contradiction|].
    rewrite <- E.
    apply (split_joined_tokens tokens Hne (tokens_lack_blank _ Hall)). }
  unfold read_padding. rewrite Hcp.
  destruct tokens as [|a [|a2 [|a3 [|a4 [|a5 rest]]]]]; try discriminate;
    simpl in Hall; rewrite ?andb_true_iff in Hall;
    injection Hsides as <- <- <- <-; cbn [nth_error];
    repeat (rewrite str_or_token by tauto); cbn [str_or];
    repeat (rewrite str_or_token by tauto); reflexivity.
Qed.

(** *** Sizes *)

Lemma or_default_self (v : Q) : or_default (Some v) 0 == v.
Proof.
  unfold or_default. destruct (Qeq_bool v 0) eqn:E; [|reflexivity].
  apply Qeq_bool_eq in E. now rewrite E.
Qed.

Lemma measured_covers (off scroll rect : Q) (style : number) :
  0 <= rect ->
  let size := Qmax (Qmax (or_default (Some off) scroll)
                         (or_default style 0))
                   (or_default (Some rect) 0) in
  0 <= size /\ rect <= size /\ off <= size
  /\ (forall v, style = Some v -> v <= size).
Proof.
  intros Hr size.
  pose proof (or_default_self rect) as Er.
  pose proof (Q.le_max_r (Qmax (or_default (Some off) scroll)
                               (or_default style 0))
                         (or_default (Some rect) 0)) as M1.
  pose proof (Q.le_max_l (Qmax (or_default (Some off) scroll)
                               (or_default style 0))
                         (or_default (Some rect) 0)) as M2.
  pose proof (Q.le_max_l (or_default (Some off) scroll)
                         (or_default style 0)) as M3.
  pose proof (Q.le_max_r (or_default (Some off) scroll)
                         (or_default style 0)) as M4.
  fold size in M1, M2.
  assert (R : rect <= size) by lra.
  split; [lra|]. split; [exact R|]. split.
  - unfold or_default at 1 in M3.
    destruct (Qeq_bool off 0) eqn:E.
    + apply Qeq_bool_eq in E. lra.
    + lra.
  - intros v Hv. unfold size in *. clear R.
    rewrite Hv in *. pose proof (or_default_self v) as Ev. lra.
Qed.

Lemma capture_extent_covers (size s : Q) :
  sized size -> 2 ^ (-519) <= s ->
  size * s * (1 - 2 ^ (-53)) <= inject_Z (capture_extent size s)
  /\ inject_Z (capture_extent size s) < size * s * (1 + 2 ^ (-53)) + 1.
Proof.
  intros Hsz Hs. unfold capture_extent, fmul.
  pose proof (Qle_ceiling (double (size * s))) as C1.
  pose proof (Qceiling_lt (double (size * s))) as C2.
  unfold Z.sub in C2. rewrite inject_Z_plus, inject_Z_opp in C2.
  change (inject_Z 1) with 1 in C2.
  assert (N : size * s * (1 - 2 ^ (-53)) <= double (size * s)
              /\ double (size * s) <= size * s * (1 + 2 ^ (-53))).
  { destruct Hsz as [Z|[L U]].
    - rewrite (double_zero (size * s)) by (rewrite Z; ring).
      rewrite Z. split; discriminate.
    - pose proof (pow2_mul_ge size s (-256) (-519) L Hs) as G.
      change (-256 + -519)%Z with (-775)%Z in G.
      apply double_near.
      apply Qle_trans with (2 ^ (-775)); [apply pow2_le; lia|exact G]. }
  destruct N as [N1 N2]. split; lra.
Qed.

Lemma capture_extent_mono (size s s' : Q) :
  0 <= size -> 0 <= s -> s <= s' ->
  (0 <= capture_extent size s <= capture_extent size s')%Z.
Proof.
  intros H0 Hs0 Hs. unfold capture_extent, fmul.
  assert (P : 0 <= size * s) by (now apply Qmult_le_0_compat).
  split.
  - rewrite <- (Qceiling_Z 0). apply Qceiling_resp_le.
    now apply double_nonneg.
  - apply Qceiling_resp_le, double_mono; [exact P|].
    rewrite (Qmult_comm size s), (Qmult_comm size s').
    apply Qmult_le_compat_r; assumption.
Qed.

Lemma scale_mono (p p' : Props) (m : Measure) :
  ordinary (targetDPI p) -> ratio_ordinary (devicePixelRatio m) ->
  targetDPI p <= targetDPI p' ->
  scale p m <= scale p' m.
Proof.
  intros Ht Hd L.
  destruct (divisor_bounds _ (pixel_ratio_ordinary m Hd))
    as (_ & _ & Lc & _).
  destruct (scale_bounds p m Ht Hd) as (Lq & _ & _ & _).
  pose proof (pow2_pos (-250)) as P1. pose proof (pow2_pos (-519)) as P2.
  unfold scale, fdiv in *.
  apply double_mono; [lra|].
  apply Qmult_le_compat_r; [exact L|].
  apply Qlt_le_weak, Qinv_lt_0_compat. lra.
Qed.

(** For a [targetDPI], a device pixel ratio and measured sizes far
    inside the range of binary64: the measured size is at least every
    one of its sources; the capture is smaller than the measured size
    times the scale by at most one part in [2 ^ 53] of that product, and
    exceeds it by less than a pixel and one such part; and a higher
    [targetDPI] never gives a smaller capture. *)
Theorem capture_covers_scaled_size (p p' : Props) (m : Measure) :
  ordinary (targetDPI p) -> ordinary (targetDPI p') ->
  targetDPI p <= targetDPI p' ->
  ratio_ordinary (devicePixelRatio m) ->
  0 <= rectWidth m -> 0 <= rectHeight m ->
  sized (actualWidth h m) -> sized (actualHeight h m) ->
  (rectWidth m <= actualWidth h m /\ offsetWidth m <= actualWidth h m
   /\ forall v, parseFloat h (computedWidth m) = Some v ->
                v <= actualWidth h m)
  /\ (rectHeight m <= actualHeight h m /\ offsetHeight m <= actualHeight h m
      /\ forall v, parseFloat h (computedHeight m) = Some v ->
                   v <= actualHeight h m)
  /\ (actualWidth h m * scale p m * (1 - 2 ^ (-53))
      <= inject_Z (capture_width h p m)
      /\ inject_Z (capture_width h p m)
         < actualWidth h m * scale p m * (1 + 2 ^ (-53)) + 1)
  /\ (actualHeight h m * scale p m * (1 - 2 ^ (-53))
      <= inject_Z (capture_height h p m)
      /\ inject_Z (capture_height h p m)
         < actualHeight h m * scale p m * (1 + 2 ^ (-53)) + 1)
  /\ (0 <= capture_width h p m <= capture_width h p' m)%Z
  /\ (0 <= capture_height h p m <= capture_height h p' m)%Z.
Proof.
  intros Hp Hp' Hpp Hd Hw Hh Sw Sh.
  destruct (measured_covers (offsetWidth m) (scrollWidth m) (rectWidth m)
              (parseFloat h (computedWidth m)) Hw) as (W0 & W1 & W2 & W3).
  destruct (measured_covers (offsetHeight m) (scrollHeight m)
              (rectHeight m) (parseFloat h (computedHeight m)) Hh)
    as (H0 & H1 & H2 & H3).
  destruct (scale_bounds p m Hp Hd) as (_ & _ & Ls & _).
  pose proof (scale_mono p p' m Hp Hd Hpp) as Hs.
  assert (Hs0 : 0 <= scale p m)
    by (pose proof (pow2_pos (-519)); lra).
  split; [now repeat split|]. split; [now repeat split|].
  split; [now apply capture_extent_covers|].
  split; [now apply capture_extent_covers|].
  split; now apply capture_extent_mono.
Qed.

(** *** The unit of the padding *)

Lemma max0_same (x a : Q) : 0 <= x -> a == 0 -> Qmax 0 (x + a) == x.
Proof.
  intros Hx Ha. rewrite Q.max_r by lra. lra.
Qed.

Lemma max0_same_sub (x a : Q) : 0 <= x -> a == 0 -> Qmax 0 (x - a) == x.
Proof.
  intros Hx Ha. rewrite Q.max_r by lra. lra.
Qed.

(** When the typeset content is already centred, the adjustment (which
    runs whenever the content lies more than a pixel from the corner)
    turns a padding of [x] em into one of [x] px: with a font of
    [fontPx] pixels the padding along an axis goes from [2 x fontPx] to
    [2 x] pixels. *)
Theorem centred_content_loses_em_padding
        (p : Props) (k c : Rect) (x y fontPx : Q) :
  parseFloat h (fst (padding_tokens (displayMode p))) = Some x ->
  parseFloat h (snd (padding_tokens (displayMode p))) = Some y ->
  0 <= x -> 0 <= y ->
  off_position k c = true ->
  adjustX k c == 0 -> adjustY k c == 0 ->
  let st := staging_style h p in
  let st' := adjust_centering h st (Some k) c in
  is_number (vertical_padding h fontPx st) (2 * x * fontPx)
  /\ is_number (vertical_padding h fontPx st') (2 * x)
  /\ is_number (horizontal_padding h fontPx st) (2 * y * fontPx)
  /\ is_number (horizontal_padding h fontPx st') (2 * y).
Proof.
  intros Hx Hy Hx0 Hy0 Hoff Hax Hay st st'.
  assert (Hpd : read_padding h st
                = {| paddingTop := Some x; paddingRight := Some y;
                     paddingBottom := Some x; paddingLeft := Some y |}).
  { unfold st, staging_style.
    destruct (displayMode p); simpl in Hx, Hy;
      unfold read_padding; cbn; now rewrite Hx, Hy. }
  assert (Hbefore : forall s, get_style (longhand s) st = None).
  { intros s. unfold st, staging_style.
    destruct (displayMode p), s; reflexivity. }
  unfold vertical_padding, horizontal_padding, used_padding.
  rewrite !Hbefore. unfold declared. rewrite Hpd.
  unfold st', adjust_centering. rewrite Hoff, Hpd.
  cbn [paddingTop paddingRight paddingBottom paddingLeft longhand
       get_style set_style String.eqb Ascii.eqb Bool.eqb
       Math_max add sub mul lift2 is_number].
  repeat split.
  - ring.
  - rewrite max0_same, max0_same_sub by assumption. ring.
  - ring.
  - rewrite max0_same, max0_same_sub by assumption. ring.
Qed.

End WithHost.

Lemma read_padding_shorthand_witness :
  read_padding Sample.host
    (staging_style Sample.host (Sample.block "x"))
  = {| paddingTop := Sample.parseFloat "0.8em";
       paddingRight := Sample.parseFloat "1.0em";
       paddingBottom := Sample.parseFloat "0.8em";
       paddingLeft := Sample.parseFloat "1.0em" |}.
Proof.
  apply (read_padding_shorthand Sample.host
           (staging_style Sample.host (Sample.block "x"))
           ["0.8em"; "1.0em"] "0.8em" "1.0em" "0.8em" "1.0em");
    reflexivity.
Defined.

Lemma capture_covers_scaled_size_witness :
  let p := Sample.with_dpi 96 Sample.request_e in
  let p' := Sample.with_dpi 300 Sample.request_e in
  let m := Sample.settled in
  (ordinary (targetDPI p) /\ ordinary (targetDPI p')
   /\ targetDPI p <= targetDPI p')
  /\ (actualHeight Sample.host m * scale p' m * (1 - 2 ^ (-53))
        <= inject_Z (capture_height Sample.host p' m)
      /\ inject_Z (capture_height Sample.host p' m)
         < actualHeight Sample.host m * scale p' m * (1 + 2 ^ (-53)) + 1)
  /\ (0 <= capture_height Sample.host p m
      <= capture_height Sample.host p' m)%Z
  /\ capture_height Sample.host p m = 40%Z
  /\ capture_height Sample.host p' m = 126%Z.
Proof.
  intros p p' m.
  assert (H1 : ordinary (targetDPI p)) by (split; discriminate).
  assert (H1' : ordinary (targetDPI p')) by (split; discriminate).
  assert (H2 : targetDPI p <= targetDPI p') by discriminate.
  assert (H2' : targetDPI p' <= targetDPI p') by discriminate.
  assert (H3 : ratio_ordinary (devicePixelRatio m))
    by (right; split; discriminate).
  assert (H4 : 0 <= rectWidth m) by discriminate.
  assert (H5 : 0 <= rectHeight m) by discriminate.
  assert (H6 : sized (actualWidth Sample.host m))
    by (right; split; discriminate).
  assert (H7 : sized (actualHeight Sample.host m))
    by (right; split; discriminate).
  split; [exact (conj H1 (conj H1' H2))|].
  destruct (capture_covers_scaled_size Sample.host p p' m
              H1 H1' H2 H3 H4 H5 H6 H7) as (_ & _ & _ & _ & _ & M).
  destruct (capture_covers_scaled_size Sample.host p' p' m
              H1' H1' H2' H3 H4 H5 H6 H7) as (_ & _ & _ & C & _).
  exact (conj C (conj M (conj eq_refl eq_refl))).
Defined.

Lemma centred_content_loses_em_padding_witness :
  let k := Sample.rect 8 (24 / 5) 50 20 in
  let c := Sample.rect 0 0 66 (148 / 5) in
  let st := staging_style Sample.host Sample.request_e in
  let st' := adjust_centering Sample.host st (Some k) c in
  is_number (vertical_padding Sample.host 16 st) (2 * Qred 0.3 * 16)
  /\ is_number (vertical_padding Sample.host 16 st') (2 * Qred 0.3)
  /\ is_number (horizontal_padding Sample.host 16 st) (2 * Qred 0.5 * 16)
  /\ is_number (horizontal_padding Sample.host 16 st') (2 * Qred 0.5).
Proof.
  intros k c.
  apply (centred_content_loses_em_padding Sample.host Sample.request_e
           k c (Qred 0.3) (Qred 0.5) 16);
    try reflexivity; discriminate.
Defined.

End RasterMore.

(** ** More on the export action *)

Module ExportMore.
Import MathToImage App ExportFacts.
Local Open Scope string_scope.

(** *** The readiness check *)

(** The export is refused exactly when the preview holds an image of class
    [math-image] whose source is not a data URL of an image or whose
    natural width is zero; it then shows the retry message and does
    nothing else. *)
Theorem refused_iff_pending_image (pg : Page) (nodes : list Node) :
  preview pg = Some nodes ->
  (refused nodes = true
   <-> exists n, In n nodes /\ is_math_image n = true
                 /\ is_img n = true /\ not_ready n = true)
  /\ (refused nodes = true -> handleCopy pg = [Alert msg_pending]).
Proof.
  intros Hp. split.
  - rewrite refused_loadingImages. unfold loadingImages, mathImages.
    split.
    + intros H.
      destruct (filter not_ready (filter is_img (filter is_math_image nodes)))
        as [|n l] eqn:E; [discriminate|].
      assert (Hn : In n (n :: l)) by now left.
      rewrite <- E in Hn. rewrite !filter_In in Hn.
      exists n. tauto.
    + intros (n & Hn & H1 & H2 & H3).
      assert (Hin : In n (filter not_ready
                            (filter is_img (filter is_math_image nodes))))
        by (rewrite !filter_In; tauto).
      now destruct (filter not_ready _).
  - intros H. unfold handleCopy. now rewrite Hp, H.
Qed.

Lemma refused_iff_pending_image_witness :
  refused [Sample.undecoded_image] = true
  /\ handleCopy Sample.undecoded_page = [Alert msg_pending].
Proof.
  destruct (refused_iff_pending_image Sample.undecoded_page
              [Sample.undecoded_image] eq_refl) as [[_ H1] H2].
  assert (R : refused [Sample.undecoded_image] = true).
  { apply H1. exists Sample.undecoded_image.
    repeat split. now left. }
  exact (conj R (H2 R)).
Defined.

Lemma image_class_token (cn : string) :
  existsb (String.eqb "math-image") (JS.split_space ("math-image " ++ cn))
  = true.
Proof. reflexivity. Qed.

Lemma node_counted (h : Host) (x : World * Z) :
  is_math_image (node_of h (fst x) (snd x))
  && is_img (node_of h (fst x) (snd x))
  && not_ready (node_of h (fst x) (snd x))
  = pending x.
Proof.
  destruct x as [w nw]. unfold pending, is_math_image, is_img, not_ready,
    node_of, render. simpl fst. simpl snd. simpl elem. simpl naturalWidth.
  destruct (isLoading w).
  - simpl. now rewrite andb_false_r.
  - destruct (imageDataUrl w) as [|c d] eqn:E.
    + destruct (renderToString h (math (props w)) (displayMode (props w)));
        simpl; now rewrite andb_false_r.
    + cbn [tag class src].
      pose proof (image_class_token (className (props w))) as T.
      cbn [append] in T. rewrite T. reflexivity.
Qed.

Lemma filter_and {A : Type} (f g : A -> bool) (l : list A) :
  filter g (filter f l) = filter (fun a => f a && g a) l.
Proof.
  induction l as [|a l IH]; [reflexivity|]. simpl.
  destruct (f a); simpl; [destruct (g a)|]; now rewrite IH.
Qed.

Lemma filter_nil_existsb {A : Type} (f : A -> bool) (l : list A) :
  match filter f l with [] => false | _ => true end = existsb f l.
Proof.
  induction l as [|a l IH]; [reflexivity|]. simpl.
  now destruct (f a).
Qed.

(** For a preview made of [MathToImage] instances, the export is refused
    exactly when some instance has left loading with an image whose source
    is not a data URL of an image or that the browser reports with a
    natural width of zero.  Instances that are loading or show the
    fallback never hold the export back. *)
Theorem refused_by_instances (h : Host) (instances : list (World * Z)) :
  refused (map (fun x => node_of h (fst x) (snd x)) instances)
  = existsb pending instances.
Proof.
  rewrite refused_loadingImages. unfold loadingImages, mathImages.
  rewrite !filter_and, filter_nil_existsb.
  induction instances as [|x l IH]; [reflexivity|].
  simpl. rewrite IH. f_equal.
  rewrite andb_assoc. apply node_counted.
Qed.

(** *** What [handleCopy] shows and writes *)

(** [handleCopy] shows at most one message.  It shows none exactly when
    the preview ref is null, or when the export is not refused, the markup
    was produced, the structured clipboard interface is missing and there
    is no selection object: then nothing is copied and nothing is said. *)
Theorem handleCopy_silent_iff (pg : Page) :
  (length (alerts (handleCopy pg)) <= 1)%nat
  /\ (alerts (handleCopy pg) = []
      <-> preview pg = None
          \/ exists nodes inner,
               preview pg = Some nodes /\ refused nodes = false
               /\ innerHTML pg = Some inner
               /\ clipboard_api pg = false /\ selection pg = false).
Proof.
  unfold handleCopy, commit, on_error.
  destruct (preview pg) as [nodes|] eqn:Hp.
  2:{ split; [simpl; lia|]. split; [now left|reflexivity]. }
  destruct (refused nodes) eqn:Hr.
  { split; [simpl; lia|]. split; [discriminate|].
    intros [H|(n & i & H & R & _)]; [discriminate|].
    injection H as <-. congruence. }
  destruct (innerHTML pg) as [inner|] eqn:Hi.
  2:{ split; [destruct (selection pg); simpl; lia|].
      split; [destruct (selection pg); discriminate|].
      intros [H|(n & i & _ & _ & H & _)]; discriminate. }
  generalize (Markup.export_fragment inner). intros frag.
  destruct (clipboard_api pg) eqn:Ha, (write_ok pg), (selection pg) eqn:Hs,
    (execCommand_copy pg); simpl;
    (split; [lia|]);
    (split;
     [try discriminate; intros _; right; exists nodes, inner; now repeat split
     |intros [H|(n & i & _ & _ & _ & A & S)]; try discriminate; reflexivity]).
Qed.

(** [handleCopy] writes to the clipboard only through the structured
    interface when it is present, only when the export is not refused, and
    only the fragment built from the serialized clone; it never both
    writes through the interface and runs the legacy copy command. *)
Theorem handleCopy_writes_only_the_fragment (pg : Page) (html : string) :
  In (ClipboardWrite html) (handleCopy pg) ->
  clipboard_api pg = true
  /\ existsb is_exec (handleCopy pg) = false
  /\ exists nodes inner,
       preview pg = Some nodes /\ refused nodes = false
       /\ innerHTML pg = Some inner
       /\ html = Markup.export_fragment inner.
Proof.
  unfold handleCopy, commit, on_error.
  destruct (preview pg) as [nodes|] eqn:Hp; [|intros []].
  destruct (refused nodes) eqn:Hr.
  { intros [H|[]]. discriminate. }
  destruct (innerHTML pg) as [inner|] eqn:Hi.
  2:{ destruct (selection pg); simpl; intuition discriminate. }
  remember (Markup.export_fragment inner) as frag eqn:Ef.
  destruct (clipboard_api pg), (write_ok pg), (selection pg),
    (execCommand_copy pg); simpl; intros H;
    repeat (destruct H as [H|H]; try discriminate);
    try contradiction;
    injection H as <-;
    (split; [reflexivity|]); (split; [reflexivity|]);
    exists nodes, inner; repeat split; assumption.
Qed.

Lemma handleCopy_writes_only_the_fragment_witness :
  clipboard_api Sample.rejected_write_page = true
  /\ existsb is_exec (handleCopy Sample.rejected_write_page) = false
  /\ exists nodes inner,
       preview Sample.rejected_write_page = Some nodes
       /\ refused nodes = false
       /\ innerHTML Sample.rejected_write_page = Some inner
       /\ Markup.export_fragment "<p>x</p>" = Markup.export_fragment inner.
Proof.
  apply (handleCopy_writes_only_the_fragment Sample.rejected_write_page
           (Markup.export_fragment "<p>x</p>")).
  left. reflexivity.
Defined.

End ExportMore.

(** ** The overrides of the preview *)

Module OverrideFacts.
Import JS MathToImage App MarkupFacts MarkupMore RasterMore.
Local Open Scope string_scope.

(** *** Tokens and substrings *)

Lemma occurs_here (x b : string) : Markup.occurs x (x ++ b) = true.
Proof.
  pose proof (prefix_app_self x b) as H.
  destruct (x ++ b); cbn [Markup.occurs]; now rewrite H.
Qed.

Lemma occurs_later (x a t : string) :
  Markup.occurs x t = true -> Markup.occurs x (a ++ t) = true.
Proof.
  intros H. induction a as [|c a IH]; [exact H|].
  simpl. rewrite IH. apply orb_true_r.
Qed.

Lemma token_is_part (s cur x : string) :
  In x (split_space_from cur s) -> exists a b, cur ++ s = a ++ x ++ b.
Proof.
  revert cur. induction s as [|c s IH]; intros cur; simpl.
  - intros [<-|[]]. now exists "", "".
  - destruct (Ascii.eqb c " ") eqn:E.
    + apply Ascii.eqb_eq in E. subst c. intros [<-|H].
      * now exists "", (String " " s).
      * destruct (IH "" H) as (a & b & Hab). simpl in Hab.
        exists (cur ++ String " " a), b.
        rewrite Hab, !append_assoc. reflexivity.
    + intros H. destruct (IH _ H) as (a & b & Hab).
      exists a, b. rewrite <- Hab, append_assoc. reflexivity.
Qed.

Lemma token_occurs (s x : string) :
  In x (split_space s) -> Markup.occurs x s = true.
Proof.
  intros H. destruct (token_is_part s "" x H) as (a & b & Hab).
  simpl in Hab. rewrite Hab. apply occurs_later, occurs_here.
Qed.

Lemma includes_In (x : string) (l : list string) :
  includes x l = true -> In x l.
Proof.
  unfold includes. rewrite existsb_exists.
  intros (y & Hy & E). apply String.eqb_eq in E. now subst.
Qed.

Lemma strip_final_newline_app (t : string) :
  strip_final_newline (t ++ Markup.nl) = t.
Proof.
  induction t as [|c t IH]; [reflexivity|].
  change (String c t ++ Markup.nl) with (String c (t ++ Markup.nl)).
  cbn [strip_final_newline]. rewrite IH.
  now destruct (t ++ Markup.nl) eqn:E; [destruct t; discriminate|].
Qed.

(** Whatever the override for [code] shows as a formula, the override for
    [pre] shows as a block formula with the same source when it is called
    for the enclosing code block: a class token [language-math] is also a
    substring of the class. *)
Theorem pre_override_follows_code_override
        (cn text : string) (p : Props) :
  code_override (Some cn) text = Formula p ->
  Markup.occurs "language-math" cn = true
  /\ math p = strip_final_newline text
  /\ pre_override (Some (Some cn, text)) = Formula (formula (math p) true).
Proof.
  unfold code_override. intros H.
  destruct (includes "language-math" (classNames (Some cn))) eqn:E;
    [|discriminate].
  assert (O : Markup.occurs "language-math" cn = true).
  { apply includes_In in E. unfold classNames in E.
    destruct cn as [|c cn]; [contradiction|]. now apply token_occurs. }
  assert (M : math p = strip_final_newline text).
  { destruct (includes "math-inline" (classNames (Some cn)));
      [now injection H as <-|].
    destruct (includes "math-display" (classNames (Some cn)));
      [now injection H as <-|discriminate]. }
  split; [exact O|]. split; [exact M|].
  unfold pre_override. now rewrite O, M.
Qed.

Lemma pre_override_follows_code_override_witness :
  Markup.occurs "language-math" "language-math math-inline" = true
  /\ math (formula "x^2" false) = strip_final_newline ("x^2" ++ Markup.nl)
  /\ pre_override (Some (Some "language-math math-inline", "x^2" ++ Markup.nl))
     = Formula (formula (math (formula "x^2" false)) true).
Proof.
  apply (pre_override_follows_code_override
           "language-math math-inline" ("x^2" ++ Markup.nl)
           (formula "x^2" false)).
  reflexivity.
Defined.

(** The override for [pre] tests the class of the code element for the
    substring [language-math]: every class that holds it, such as
    [language-mathematica], makes the code block a block formula whose
    source is the text without its final line feed, also where the
    override for [code] shows plain code. *)
Theorem pre_override_by_substring (before after text : string) :
  pre_override (Some (Some (before ++ "language-math" ++ after),
                      text ++ Markup.nl))
  = Formula (formula text true)
  /\ (includes "language-math"
        (classNames (Some (before ++ "language-math" ++ after))) = false ->
      code_override (Some (before ++ "language-math" ++ after))
                    (text ++ Markup.nl) = Plain).
Proof.
  split.
  - unfold pre_override.
    rewrite (occurs_later "language-math" before ("language-math" ++ after))
      by apply occurs_here.
    now rewrite strip_final_newline_app.
  - intros H. unfold code_override. now rewrite H.
Qed.

(** Every formula the overrides hand to [MathToImage] has a parent font
    size of 16 pixels and the default resolution and quality, so that with
    a [parseFloat] that reads [16px] as 16 its base font size is 16 pixels
    when inline and the floor of 18 pixels when a block. *)
Theorem override_formulas_font_size
        (h : Host) (cn : option string) (children : string) (p : Props)
        (v : Q) :
  In (Formula p)
     [span_override cn children; div_override cn children;
      code_override cn children; pre_override (Some (cn, children))] ->
  parseFloat h "16px" = Some v -> v == 16 ->
  parentFontSize p = Some "16px" /\ targetDPI p = 96 /\ quality p = 1
  /\ exists x, baseFontSize h p = Px (Some x)
               /\ x == (if displayMode p then 18 else 16).
Proof.
  intros Hin Hv Ev.
  assert (Hf : exists text display, p = formula text display).
  { unfold span_override, div_override, code_override, pre_override in Hin.
    simpl in Hin.
    destruct Hin as [H|[H|[H|[H|[]]]]].
    - destruct (includes "math-inline" (classNames cn)); [|discriminate].
      injection H as <-. eauto.
    - destruct (includes "math-display" (classNames cn)); [|discriminate].
      injection H as <-. eauto.
    - destruct (includes "language-math" (classNames cn)); [|discriminate].
      destruct (includes "math-inline" (classNames cn));
        [injection H as <-; eauto|].
      destruct (includes "math-display" (classNames cn)); [|discriminate].
      injection H as <-. eauto.
    - destruct cn as [cn|]; [|discriminate].
      destruct (Markup.occurs "language-math" cn); [|discriminate].
      injection H as <-. eauto. }
  destruct Hf as (text & display & ->).
  repeat split.
  unfold baseFontSize. cbn [parentFontSize formula displayMode].
  rewrite Hv. destruct display; cbn [Math_max mul lift2];
    eexists; (split; [reflexivity|]); rewrite Ev; reflexivity.
Qed.

Lemma override_formulas_font_size_witness :
  parentFontSize (formula "x" true) = Some "16px"
  /\ targetDPI (formula "x" true) = 96 /\ quality (formula "x" true) = 1
  /\ exists x, baseFontSize Sample.host (formula "x" true) = Px (Some x)
               /\ x == (if displayMode (formula "x" true) then 18 else 16).
Proof.
  apply (override_formulas_font_size Sample.host (Some "math-display") "x"
           (formula "x" true) 16).
  - right. left. reflexivity.
  - reflexivity.
  - reflexivity.
Defined.

End OverrideFacts.

Module LifecycleMoreExamples.
Import JS MathToImage LifecycleMore.
Local Open Scope string_scope.

Lemma image_changes_only_when_encoded_witness :
  let w := run Sample.host (initial Sample.request_e) Sample.capturing_e in
  let e := Captured 0 (Some (Sample.canvas "e")) in
  exists n c t d,
    e = Captured n (Some c)
    /\ find_task n w = Some t /\ phase t = Capturing
    /\ fst (encode c (quality (request t))) = Some d
    /\ imageDataUrl (step Sample.host w e) = d.
Proof.
  apply (image_changes_only_when_encoded Sample.host
           (run Sample.host (initial Sample.request_e) Sample.capturing_e)
           (Captured 0 (Some (Sample.canvas "e")))).
  discriminate.
Defined.

(** Sources that [trim] empties start no attempt: the empty source,
    ASCII white space, a no-break space, an ideographic space, a byte
    order mark.  A zero-width space is no white space, and a letter behind
    a no-break space is a source: each starts an attempt. *)
Example blank_sources_start_no_attempt :
  map (fun s => log (run Sample.host (initial Sample.request_e)
                         [Effect (Sample.inline s) true]))
      [ ""; "  "; Sample.no_break_space;
        " " ++ Sample.ideographic_space ++ Sample.byte_order_mark;
        Sample.zero_width_space; Sample.no_break_space ++ "x" ]
  = [ []; []; []; []; [Attached 0]; [Attached 0] ].
Proof. reflexivity. Qed.

End LifecycleMoreExamples.
